(** * tcp-uart-bridge: frame codec, framer and session managers

    A shallow embedding of [tcp-server.js] (the ingress side) and
    [tcp-client.js] (the egress side) of the TCP-over-UART tunnel, and the
    properties of the wire format, of the stream reassembler and of the
    session life cycle that follow from the code.

    Conventions.
    - A Node [Buffer] is a [list byte]; a JavaScript string is a [string]
      (code units below 256, which covers every string the program builds).
    - A JavaScript number that the program uses as an integer is a [Z].
    - A call that can throw returns [option]; [None] is the exception.
    - Logging has no effect on the state of the tunnel; [logger.js] is
      modelled on its own, after the two programs. *)

From Stdlib Require Import List ZArith String Ascii Bool Lia.
From Stdlib Require Import Strings.Byte.
Import ListNotations.
Open Scope Z_scope.

(** ** JavaScript and Buffer primitives used by the program *)

Module Js.

(** Values that reach a parameter tested with [typeof x === 'string']. *)
Inductive JsValue :=
| JsStr (s : string)
| JsNum (n : Z)
| JsUndefined
| JsNull.

Definition b2z (b : byte) : Z := Z.of_N (Byte.to_N b).

(** Storing a number into a byte of a Buffer keeps it modulo 256. *)
Definition z2b (z : Z) : byte :=
  match Byte.of_N (Z.to_N (z mod 256)) with
  | Some b => b
  | None => x00
  end.

Definition code (c : ascii) : Z := Z.of_nat (nat_of_ascii c).
Definition chr (z : Z) : ascii := ascii_of_nat (Z.to_nat z).

(** [Buffer.alloc(n)]: [n] zero bytes. *)
Definition alloc (n : nat) : list byte := repeat x00 n.

(** [src.copy(target, targetStart)]: as many bytes of [src] as fit. *)
Definition copy (src target : list byte) (targetStart : nat) : list byte :=
  let n := Nat.min (List.length src) (List.length target - targetStart) in
  firstn targetStart target ++ firstn n src ++ skipn (targetStart + n) target.

(** [buf.subarray(start, end)] for [start <= end]. *)
Definition subarray (buf : list byte) (start stop : nat) : list byte :=
  firstn (stop - start) (skipn start buf).

Definition readUInt8 (buf : list byte) (offset : nat) : Z :=
  b2z (nth offset buf x00).

Definition readUInt16BE (buf : list byte) (offset : nat) : Z :=
  b2z (nth offset buf x00) * 256 + b2z (nth (offset + 1) buf x00).

Definition readUInt32BE (buf : list byte) (offset : nat) : Z :=
  b2z (nth offset buf x00) * 16777216
  + b2z (nth (offset + 1) buf x00) * 65536
  + b2z (nth (offset + 2) buf x00) * 256
  + b2z (nth (offset + 3) buf x00).

(** The [writeUInt*] family throws a RangeError when the value is outside
    the range of the field or the field does not fit in the buffer. *)
Definition writeUInt8 (buf : list byte) (value : Z) (offset : nat)
  : option (list byte) :=
  if (0 <=? value) && (value <=? 255)
     && (offset + 1 <=? List.length buf)%nat
  then Some (copy [z2b value] buf offset)
  else None.

Definition writeUInt16BE (buf : list byte) (value : Z) (offset : nat)
  : option (list byte) :=
  if (0 <=? value) && (value <=? 65535)
     && (offset + 2 <=? List.length buf)%nat
  then Some (copy [z2b (value / 256); z2b value] buf offset)
  else None.

Definition writeUInt32BE (buf : list byte) (value : Z) (offset : nat)
  : option (list byte) :=
  if (0 <=? value) && (value <=? 4294967295)
     && (offset + 4 <=? List.length buf)%nat
  then Some (copy [z2b (value / 16777216); z2b (value / 65536);
                   z2b (value / 256); z2b value] buf offset)
  else None.

(** *** Hexadecimal strings *)

Definition hexDigit (n : Z) : ascii :=
  if n <? 10 then chr (48 + n) else chr (87 + n).

Definition unhex (c : ascii) : option Z :=
  let k := code c in
  if (48 <=? k) && (k <=? 57) then Some (k - 48)
  else if (97 <=? k) && (k <=? 102) then Some (k - 87)
  else if (65 <=? k) && (k <=? 70) then Some (k - 55)
  else None.

(** [buf.toString('hex')] *)
Fixpoint toHex (buf : list byte) : string :=
  match buf with
  | [] => EmptyString
  | b :: r =>
      String (hexDigit (b2z b / 16)) (String (hexDigit (b2z b mod 16)) (toHex r))
  end.

(** [Buffer.from(s, 'hex')]: decoding stops at the first pair that is not
    two hexadecimal digits; a trailing single character is dropped. *)
Fixpoint fromHex (s : string) : list byte :=
  match s with
  | String a (String b r) =>
      match unhex a, unhex b with
      | Some h, Some l => z2b (h * 16 + l) :: fromHex r
      | _, _ => []
      end
  | _ => []
  end.

(** *** String helpers *)

Definition isHyphen (c : ascii) : bool := code c =? 45.
Definition isDot (c : ascii) : bool := code c =? 46.

(** [s.includes('-')] *)
Fixpoint includesHyphen (s : string) : bool :=
  match s with
  | EmptyString => false
  | String c r => isHyphen c || includesHyphen r
  end.

(** [s.replace(/-/g, '')] *)
Fixpoint removeHyphens (s : string) : string :=
  match s with
  | EmptyString => EmptyString
  | String c r => if isHyphen c then removeHyphens r else String c (removeHyphens r)
  end.

(** [s.split('.')] *)
Fixpoint splitDots (s : string) : list string :=
  match s with
  | EmptyString => [EmptyString]
  | String c r =>
      if isDot c then EmptyString :: splitDots r
      else match splitDots r with
           | h :: t => String c h :: t
           | [] => [String c EmptyString]
           end
  end.

(** No ['.'] occurs in [s]. *)
Fixpoint noDot (s : string) : bool :=
  match s with
  | EmptyString => true
  | String c r => negb (isDot c) && noDot r
  end.

(** [parts.join('.')] *)
Fixpoint joinDots (parts : list string) : string :=
  match parts with
  | [] => EmptyString
  | [p] => p
  | p :: r => (p ++ String (chr 46) (joinDots r))%string
  end.

(** [String(n)] for an integer [0 <= n <= 255], as [join] prints a byte. *)
Definition byteToString (b : byte) : string :=
  let n := b2z b in
  if n <? 10 then String (chr (48 + n)) EmptyString
  else if n <? 100 then
    String (chr (48 + n / 10)) (String (chr (48 + n mod 10)) EmptyString)
  else
    String (chr (48 + n / 100))
      (String (chr (48 + n / 10 mod 10))
         (String (chr (48 + n mod 10)) EmptyString)).

(** *** [parseInt] *)

Definition isWhite (c : ascii) : bool :=
  let k := code c in
  ((9 <=? k) && (k <=? 13)) || (k =? 32) || (k =? 160).

Fixpoint trimStart (s : string) : string :=
  match s with
  | String c r => if isWhite c then trimStart r else s
  | EmptyString => s
  end.

Definition digitVal (radix : Z) (c : ascii) : option Z :=
  let k := code c in
  let v := if (48 <=? k) && (k <=? 57) then k - 48
           else if (97 <=? k) && (k <=? 122) then k - 87
           else if (65 <=? k) && (k <=? 90) then k - 55
           else 36 in
  if v <? radix then Some v else None.

(** The longest prefix of digits; [None] when there is none. *)
Fixpoint parseDigits (radix : Z) (s : string) (acc : option Z) : option Z :=
  match s with
  | String c r =>
      match digitVal radix c with
      | Some d =>
          parseDigits radix r
            (Some (match acc with Some a => a * radix + d | None => d end))
      | None => acc
      end
  | EmptyString => acc
  end.

(** The integer value of the double nearest to a non-negative integer
    (ties to even); the identity below 2^53. *)
Definition roundFloat64 (v : Z) : Z :=
  let e := Z.log2 v in
  if e <? 53 then v
  else
    let sh := e - 52 in
    let q := Z.shiftr v sh in
    let r := v - Z.shiftl q sh in
    let half := Z.shiftl 1 (sh - 1) in
    let q' := if (half <? r) || ((r =? half) && Z.odd q) then q + 1 else q in
    Z.shiftl q' sh.

Definition stripSign (s : string) : Z * string :=
  match s with
  | String c r =>
      if code c =? 45 then (-1, r)
      else if code c =? 43 then (1, r)
      else (1, s)
  | EmptyString => (1, s)
  end.

Definition stripRadix (s : string) : Z * string :=
  match s with
  | String c0 (String c1 r) =>
      if (code c0 =? 48) && ((code c1 =? 120) || (code c1 =? 88))
      then (16, r) else (10, s)
  | _ => (10, s)
  end.

(** [parseInt(s)]; [None] is NaN. *)
Definition parseInt (s : string) : option Z :=
  let '(sign, s1) := stripSign (trimStart s) in
  let '(radix, s2) := stripRadix s1 in
  match parseDigits radix s2 None with
  | Some v => Some (sign * roundFloat64 v)
  | None => None
  end.

(** [x || 0] on the result of [parseInt]. *)
Definition orZero (x : option Z) : Z :=
  match x with
  | Some v => v
  | None => 0
  end.

(** *** [crypto.randomUUID()]

    The generator yields sixteen bytes; the call returns them in the
    8-4-4-4-12 lower-case form. *)
Definition randomUUID (rnd : list byte) : string :=
  let h := fun a b => toHex (subarray rnd a b) in
  (h 0 4 ++ String (chr 45) (h 4 6 ++ String (chr 45) (h 6 8 ++
     String (chr 45) (h 8 10 ++ String (chr 45) (h 10 16)))))%string%nat.

(** *** [Map]

    A JavaScript [Map] keeps its entries in insertion order and compares
    keys without coercion (a string never equals a number). *)

Definition sameValueZero (a b : JsValue) : bool :=
  match a, b with
  | JsStr s, JsStr t => String.eqb s t
  | JsNum n, JsNum m => n =? m
  | JsUndefined, JsUndefined => true
  | JsNull, JsNull => true
  | _, _ => false
  end.

Definition Map (V : Type) : Type := list (JsValue * V).

Fixpoint mapGet {V} (m : Map V) (k : JsValue) : option V :=
  match m with
  | [] => None
  | (k', v) :: r => if sameValueZero k' k then Some v else mapGet r k
  end.

Definition mapHas {V} (m : Map V) (k : JsValue) : bool :=
  match mapGet m k with
  | Some _ => true
  | None => false
  end.

(** [m.set(k, v)]: an existing key keeps its place. *)
Fixpoint mapSet {V} (m : Map V) (k : JsValue) (v : V) : Map V :=
  match m with
  | [] => [(k, v)]
  | (k', v') :: r =>
      if sameValueZero k' k then (k', v) :: r else (k', v') :: mapSet r k v
  end.

(** [m.delete(k)] *)
Definition mapDelete {V} (m : Map V) (k : JsValue) : Map V :=
  filter (fun e => negb (sameValueZero (fst e) k)) m.

End Js.

(** ** Frame codec and framer

    [createPacket] and [PacketStream] have the same text in [tcp-server.js]
    and in [tcp-client.js]; one embedding serves both sides. *)

Module Codec.
Import Js.

Definition CMD_DATA : Z := 1.
Definition CMD_DISCONNECT : Z := 3.
Definition CMD_PROGRAM_CLOSE : Z := 5.

(** The object emitted with the ['packet'] event. *)
Record Packet := mkPacket {
  cmd : Z;
  clientId : string;
  targetHost : string;
  targetPort : Z;
  data : list byte
}.

(** The three-way choice of [clientIdBuffer] in [createPacket]; [uuid] is
    what [crypto.randomUUID()] returns if the last branch calls it. *)
Definition clientIdBuffer (clientId : JsValue) (uuid : string) : list byte :=
  match clientId with
  | JsStr s =>
      if (String.length s =? 32)%nat then fromHex s
      else if includesHyphen s then fromHex (removeHyphens s)
      else fromHex (removeHyphens uuid)
  | _ => fromHex (removeHyphens uuid)
  end.

(** Whether [createPacket] draws from the random generator. *)
Definition drawsUUID (clientId : JsValue) : bool :=
  match clientId with
  | JsStr s => negb ((String.length s =? 32)%nat || includesHyphen s)
  | _ => true
  end.

(** [ipBuffer] in [createPacket]: four zero bytes for the empty host,
    otherwise one byte per dot-separated part, at most four of them. *)
Definition ipBuffer (targetHost : string) : list byte :=
  match targetHost with
  | EmptyString => alloc 4
  | _ =>
      let ipParts := map (fun part => orZero (parseInt part)) (splitDots targetHost) in
      map z2b (firstn 4 ipParts)
  end.

Definition bind {A B} (x : option A) (f : A -> option B) : option B :=
  match x with
  | Some a => f a
  | None => None
  end.

Notation "x <- e ;; k" := (bind e (fun x => k))
  (at level 61, e at next level, right associativity).

Definition createPacket (cmd : Z) (clientId : JsValue) (data : list byte)
    (targetHost : string) (targetPort : Z) (uuid : string)
  : option (list byte) :=
  let dataBuffer := data in
  let clientIdBuffer := clientIdBuffer clientId uuid in
  let ipBuffer := ipBuffer targetHost in
  let packet := alloc (1 + 16 + 4 + 2 + 4 + List.length dataBuffer) in
  let offset := 0%nat in
  packet <- writeUInt8 packet cmd offset ;;
  let offset := (offset + 1)%nat in
  let packet := copy clientIdBuffer packet offset in
  let offset := (offset + 16)%nat in
  let packet := copy ipBuffer packet offset in
  let offset := (offset + 4)%nat in
  packet <- writeUInt16BE packet targetPort offset ;;
  let offset := (offset + 2)%nat in
  packet <- writeUInt32BE packet (Z.of_nat (List.length dataBuffer)) offset ;;
  let offset := (offset + 4)%nat in
  Some (copy dataBuffer packet offset).

(** One turn of the [while] loop of [_transform]: [None] when the loop
    stops (fewer than 27 bytes, or the payload is not complete), otherwise
    the packet emitted and the buffer that remains. *)
Definition extract (buffer : list byte) : option (Packet * list byte) :=
  if (27 <=? List.length buffer)%nat then
    let cmd := readUInt8 buffer 0 in
    let clientId := subarray buffer 1 17 in
    let targetIp := subarray buffer 17 21 in
    let targetPort := readUInt16BE buffer 21 in
    let dataLength := readUInt32BE buffer 23 in
    if 27 + dataLength <=? Z.of_nat (List.length buffer) then
      let data := subarray buffer 27 (27 + Z.to_nat dataLength) in
      let buffer := skipn (27 + Z.to_nat dataLength) buffer in
      let targetHost := joinDots (map byteToString targetIp) in
      Some (mkPacket cmd (toHex clientId) targetHost targetPort data, buffer)
    else None
  else None.

(** The loop itself.  Every turn removes at least 27 bytes, so the length
    of the buffer bounds the number of turns; [None] would mean that the
    bound was too small. *)
Fixpoint transformLoop (fuel : nat) (buffer : list byte)
  : option (list Packet * list byte) :=
  match extract buffer with
  | None => Some ([], buffer)
  | Some (p, rest) =>
      match fuel with
      | O => None
      | S fuel' =>
          match transformLoop fuel' rest with
          | Some (ps, final) => Some (p :: ps, final)
          | None => None
          end
      end
  end.

(** [PacketStream._transform]: the new buffer and the packets emitted. *)
Definition _transform (buffer chunk : list byte)
  : option (list Packet * list byte) :=
  let buffer := buffer ++ chunk in
  transformLoop (List.length buffer) buffer.

(** A [PacketStream] fed a sequence of chunks, one [write] each. *)
Fixpoint feed (buffer : list byte) (chunks : list (list byte))
  : option (list Packet * list byte) :=
  match chunks with
  | [] => Some ([], buffer)
  | chunk :: more =>
      match _transform buffer chunk with
      | Some (ps, buffer') =>
          match feed buffer' more with
          | Some (qs, final) => Some (ps ++ qs, final)
          | None => None
          end
      | None => None
      end
  end.

End Codec.

(** ** Egress side ([tcp-client.js])

    The process is a set of event handlers over shared state.  [State]
    holds what the handlers read and write; [Event] lists what Node can
    deliver; [step] runs the handlers of one event to completion. *)

Module Egress.
Import Js Codec.

(** A [net.Socket] made by [createTargetConnection], with the values its
    callbacks close over. *)
Record Socket := mkSocket {
  sk_clientId : string;
  sk_targetHost : string;
  sk_targetPort : Z;
  sk_data : list byte;          (* [data] held by the [then] callback of [handlePacket] *)
  sk_connected : bool;          (* the connect callback has run *)
  sk_destroyed : bool;          (* [socket.destroyed] *)
  sk_closed : bool;             (* ['close'] has been emitted *)
  sk_ended : bool;              (* [socket.end()] has been called *)
  sk_written : list (list byte) (* payloads accepted by [socket.write], in order *)
}.

Record ClientInfo := mkClientInfo {
  ci_id : string;
  ci_socket : nat;
  ci_connected : bool;
  ci_targetHost : string;
  ci_targetPort : Z
}.

(** Where [gracefulShutdown] is suspended. *)
Inductive Phase :=
| Running
| AwaitProgramClose               (* the write of ProgramClose and the 1 s pause *)
| AwaitNotifications              (* [Promise.all(notificationPromises)] and the 500 ms pause *)
| AwaitSockets (pending : list nat) (* [Promise.all(clientClosePromises)] *)
| AwaitSerialClose.               (* [serialPort.close] or its 3 s timer *)

Record State := mkState {
  clients : Map ClientInfo;
  sockets : list Socket;          (* every socket created, by order of creation *)
  buffer : list byte;             (* [packetStream.buffer] *)
  serialOpen : bool;              (* [serialPort.isOpen] *)
  wire : list (list byte);        (* buffers handed to [serialPort.write], in order *)
  rng : nat -> list byte;         (* the bytes of the n-th [crypto.randomUUID()] *)
  draws : nat;                    (* calls of [crypto.randomUUID()] so far *)
  phase : Phase;
  exitCode : option Z             (* argument of [process.exit] *)
}.

Definition init (rng : nat -> list byte) : State :=
  mkState [] [] [] true [] rng 0 Running None.

Definition setClients (st : State) (c : Map ClientInfo) : State :=
  mkState c (sockets st) (buffer st) (serialOpen st) (wire st) (rng st)
    (draws st) (phase st) (exitCode st).
Definition setSockets (st : State) (s : list Socket) : State :=
  mkState (clients st) s (buffer st) (serialOpen st) (wire st) (rng st)
    (draws st) (phase st) (exitCode st).
Definition setBuffer (st : State) (b : list byte) : State :=
  mkState (clients st) (sockets st) b (serialOpen st) (wire st) (rng st)
    (draws st) (phase st) (exitCode st).
Definition setSerialOpen (st : State) (o : bool) : State :=
  mkState (clients st) (sockets st) (buffer st) o (wire st) (rng st)
    (draws st) (phase st) (exitCode st).
Definition setWire (st : State) (w : list (list byte)) : State :=
  mkState (clients st) (sockets st) (buffer st) (serialOpen st) w (rng st)
    (draws st) (phase st) (exitCode st).
Definition setDraws (st : State) (n : nat) : State :=
  mkState (clients st) (sockets st) (buffer st) (serialOpen st) (wire st)
    (rng st) n (phase st) (exitCode st).
Definition setPhase (st : State) (p : Phase) : State :=
  mkState (clients st) (sockets st) (buffer st) (serialOpen st) (wire st)
    (rng st) (draws st) p (exitCode st).
Definition exit (st : State) (c : Z) : State :=
  mkState (clients st) (sockets st) (buffer st) (serialOpen st) (wire st)
    (rng st) (draws st) (phase st) (Some c).

Fixpoint updateAt {A} (l : list A) (i : nat) (f : A -> A) : list A :=
  match l, i with
  | [], _ => []
  | x :: r, O => f x :: r
  | x :: r, S j => x :: updateAt r j f
  end.

Definition updSocket (st : State) (s : nat) (f : Socket -> Socket) : State :=
  setSockets st (updateAt (sockets st) s f).

Definition skEnd (k : Socket) : Socket :=
  mkSocket (sk_clientId k) (sk_targetHost k) (sk_targetPort k) (sk_data k)
    (sk_connected k) (sk_destroyed k) (sk_closed k) true (sk_written k).

Definition skDestroy (k : Socket) : Socket :=
  mkSocket (sk_clientId k) (sk_targetHost k) (sk_targetPort k) (sk_data k)
    (sk_connected k) true (sk_closed k) (sk_ended k) (sk_written k).

(** [socket.write(data)] on a connected socket.  The payload is accepted
    while the socket has been neither ended nor destroyed.  A write after
    [end()] fails with [ERR_STREAM_WRITE_AFTER_END] and the stream
    destroys the socket at once; a write on a destroyed socket only
    hands the error to the callback, which logs it. *)
Definition skWrite (d : list byte) (k : Socket) : Socket :=
  if sk_connected k && negb (sk_destroyed k) then
    if sk_ended k then skDestroy k
    else mkSocket (sk_clientId k) (sk_targetHost k) (sk_targetPort k)
           (sk_data k) (sk_connected k) (sk_destroyed k) (sk_closed k)
           (sk_ended k) (sk_written k ++ [d])
  else k.

Definition skSetConnected (k : Socket) : Socket :=
  mkSocket (sk_clientId k) (sk_targetHost k) (sk_targetPort k) (sk_data k)
    true (sk_destroyed k) (sk_closed k) (sk_ended k) (sk_written k).

Definition skSetClosed (k : Socket) : Socket :=
  mkSocket (sk_clientId k) (sk_targetHost k) (sk_targetPort k) (sk_data k)
    (sk_connected k) true true (sk_ended k) (sk_written k).

(** [createPacket] inside the process: the generator advances when the
    call draws from it.  The packet is [None] when the call throws. *)
Definition createPacketS (st : State) (cmd : Z) (clientId : JsValue)
    (data : list byte) (targetHost : string) (targetPort : Z)
  : State * option (list byte) :=
  let uuid := randomUUID (rng st (draws st)) in
  let st' := if drawsUUID clientId then setDraws st (S (draws st)) else st in
  (st', createPacket cmd clientId data targetHost targetPort uuid).

(** [serialPort.write(packet)] *)
Definition serialWrite (st : State) (packet : list byte) : State :=
  setWire st (wire st ++ [packet]).

(** The outcome of a handler: it returns, or it throws with the state it
    has reached. *)
Inductive Outcome :=
| Return (st : State)
| Throw (st : State).

(** [createPacket] followed by [serialPort.write] of its result. *)
Definition sendPacket (st : State) (cmd : Z) (clientId : JsValue)
    (data : list byte) (targetHost : string) (targetPort : Z) : Outcome :=
  match createPacketS st cmd clientId data targetHost targetPort with
  | (st', Some packet) => Return (serialWrite st' packet)
  | (st', None) => Throw st'
  end.

(** [createTargetConnection]: a new socket starts to connect; nothing is
    stored in [clients] until the connect callback runs. *)
Definition createTargetConnection (st : State) (clientId targetHost : string)
    (targetPort : Z) (data : list byte) : State :=
  setSockets st
    (sockets st ++
       [mkSocket clientId targetHost targetPort data false false false false []]).

Definition handlePacket (st : State) (packet : Packet) : State :=
  let clientId := Codec.clientId packet in
  if Codec.cmd packet =? CMD_DATA then
    match mapGet (clients st) (JsStr clientId) with
    | Some client =>
        if ci_connected client
        then updSocket st (ci_socket client) (skWrite (Codec.data packet))
        else st
    | None =>
        createTargetConnection st clientId (Codec.targetHost packet)
          (Codec.targetPort packet) (Codec.data packet)
    end
  else if Codec.cmd packet =? CMD_DISCONNECT then
    match mapGet (clients st) (JsStr clientId) with
    | Some client =>
        let st := updSocket st (ci_socket client) skEnd in
        setClients st (mapDelete (clients st) (JsStr clientId))
    | None => st
    end
  else st.

(** [serialPort.on('data')]: the chunk goes through the framer and every
    packet it emits goes to [handlePacket]. *)
Definition onSerialData (st : State) (chunk : list byte) : option State :=
  match _transform (buffer st) chunk with
  | Some (packets, buffer') =>
      Some (fold_left handlePacket packets (setBuffer st buffer'))
  | None => None
  end.

(** The connect callback of socket [s], and the [then] callback of
    [handlePacket] that follows it. *)
Definition onConnect (st : State) (s : nat) (k : Socket) : State :=
  let clientInfo :=
    mkClientInfo (sk_clientId k) s true (sk_targetHost k) (sk_targetPort k) in
  let st := setClients st (mapSet (clients st) (JsStr (sk_clientId k)) clientInfo) in
  let st := updSocket st s skSetConnected in
  updSocket st s (skWrite (sk_data k)).

(** ['error'] before the connection is made: the promise is rejected and
    the [catch] of [handlePacket] logs. *)
Definition onConnectError (st : State) (s : nat) : State :=
  updSocket st s skSetClosed.

(** ['data'] on a connected socket. *)
Definition onSocketData (st : State) (k : Socket) (data : list byte) : Outcome :=
  if serialOpen st
  then sendPacket st CMD_DATA (JsStr (sk_clientId k)) data
         (sk_targetHost k) (sk_targetPort k)
  else Return st.

(** ['close'] on a connected socket. *)
Definition onSocketClose (st : State) (s : nat) (k : Socket) : Outcome :=
  let st := updSocket st s skSetClosed in
  let st := setClients st (mapDelete (clients st) (JsStr (sk_clientId k))) in
  if serialOpen st
  then sendPacket st CMD_DISCONNECT (JsStr (sk_clientId k)) []
         (sk_targetHost k) (sk_targetPort k)
  else Return st.

(** ['error'] on a connected socket. *)
Definition onSocketError (st : State) (k : Socket) : State :=
  setClients st (mapDelete (clients st) (JsStr (sk_clientId k))).


(** *** [gracefulShutdown]

    The function is written below from its last step to its first; each
    definition runs up to the next [await] that actually suspends. *)

(** Step 5: close the serial port, or exit at once when it is not open. *)
Definition closeSerial (st : State) : State :=
  if serialOpen st then setPhase st AwaitSerialClose else exit st 0.

(** Step 4, [clients.clear()], then step 5. *)
Definition afterSockets (st : State) : State :=
  closeSerial (setClients st []).

(** The sockets that step 3 ends and waits for: those of [clients] that
    are not destroyed. *)
Fixpoint socketsToClose (st : State) (entries : Map ClientInfo) : list nat :=
  match entries with
  | [] => []
  | (_, client) :: rest =>
      match nth_error (sockets st) (ci_socket client) with
      | Some k =>
          if negb (sk_destroyed k)
          then ci_socket client :: socketsToClose st rest
          else socketsToClose st rest
      | None => socketsToClose st rest
      end
  end.

(** Step 3: [socket.end()] on each of them, then wait for every ['close']
    or 3 s timer. *)
Definition closeSockets (st : State) : State :=
  let targets := socketsToClose st (clients st) in
  let st := fold_left (fun st s => updSocket st s skEnd) targets st in
  match targets with
  | [] => afterSockets st
  | _ => setPhase st (AwaitSockets targets)
  end.

(** The [forEach] of step 2: one Disconnect per entry of [clients]. *)
Fixpoint notifyClients (st : State) (entries : Map ClientInfo) : Outcome :=
  match entries with
  | [] => Return st
  | (uuid, client) :: rest =>
      if serialOpen st then
        match sendPacket st CMD_DISCONNECT uuid []
                (ci_targetHost client) (ci_targetPort client) with
        | Return st' => notifyClients st' rest
        | Throw st' => Throw st'
        end
      else notifyClients st rest
  end.

(** Step 2, then step 3 at once when nothing was sent. *)
Definition notify (st : State) : State :=
  match notifyClients st (clients st) with
  | Throw st' => exit st' 1
  | Return st' =>
      match clients st with
      | _ :: _ =>
          if serialOpen st then setPhase st' AwaitNotifications
          else closeSockets st'
      | [] => closeSockets st'
      end
  end.

(** Step 1: ProgramClose under a fresh id, when the serial port is open. *)
Definition gracefulShutdown (st : State) : State :=
  if serialOpen st then
    let uuid := removeHyphens (randomUUID (rng st (draws st))) in
    let st := setDraws st (S (draws st)) in
    match sendPacket st CMD_PROGRAM_CLOSE (JsStr uuid) [] EmptyString 0 with
    | Return st' => setPhase st' AwaitProgramClose
    | Throw st' => exit st' 1
    end
  else notify st.

(** *** Events *)

Inductive Event :=
| SerialData (chunk : list byte)        (* [serialPort.on('data')] *)
| Connect (s : nat)                     (* the connect callback of socket [s] *)
| ConnectError (s : nat)                (* ['error'] while connecting *)
| SocketData (s : nat) (data : list byte)
| SocketClose (s : nat)
| SocketError (s : nat)
| Signal                                (* SIGINT, SIGTERM *)
| Resume                                (* the pause of step 1 or 2 is over *)
| CloseTimeout (s : nat)                (* the 3 s timer of step 3 for socket [s] *)
| SerialClosed                          (* the callback of [serialPort.close] *)
| SerialTimeout.                        (* the 3 s timer of step 5 *)

(** The model follows one run of [gracefulShutdown]; a request for a
    second run while the first is suspended is outside it ([None]). *)
Definition startShutdown (st : State) : option State :=
  match phase st with
  | Running => Some (gracefulShutdown st)
  | _ => None
  end.

(** An exception that leaves a handler reaches ['uncaughtException']. *)
Definition settle (o : Outcome) : option State :=
  match o with
  | Return st => Some st
  | Throw st => startShutdown st
  end.

(** One of the promises of step 3 resolves. *)
Definition resolveClose (st : State) (s : nat) : State :=
  match phase st with
  | AwaitSockets pending =>
      if existsb (Nat.eqb s) pending then
        match filter (fun x => negb (Nat.eqb s x)) pending with
        | [] => afterSockets st
        | pending' => setPhase st (AwaitSockets pending')
        end
      else st
  | _ => st
  end.

Definition step (st : State) (ev : Event) : option State :=
  match exitCode st with
  | Some _ => None
  | None =>
      match ev with
      | SerialData chunk => onSerialData st chunk
      | Connect s =>
          match nth_error (sockets st) s with
          | Some k =>
              if negb (sk_connected k) && negb (sk_destroyed k)
              then Some (onConnect st s k) else None
          | None => None
          end
      | ConnectError s =>
          match nth_error (sockets st) s with
          | Some k =>
              if negb (sk_connected k) && negb (sk_destroyed k)
              then Some (onConnectError st s) else None
          | None => None
          end
      | SocketData s data =>
          match nth_error (sockets st) s with
          | Some k =>
              if sk_connected k && negb (sk_destroyed k)
              then settle (onSocketData st k data) else None
          | None => None
          end
      | SocketClose s =>
          match nth_error (sockets st) s with
          | Some k =>
              if sk_connected k && negb (sk_closed k)
              then match onSocketClose st s k with
                   | Return st' => Some (resolveClose st' s)
                   | Throw st' => startShutdown st'
                   end
              else None
          | None => None
          end
      | SocketError s =>
          match nth_error (sockets st) s with
          | Some k =>
              if sk_connected k && negb (sk_closed k)
              then Some (onSocketError st k) else None
          | None => None
          end
      | Signal => startShutdown st
      | Resume =>
          match phase st with
          | AwaitProgramClose => Some (notify st)
          | AwaitNotifications => Some (closeSockets st)
          | _ => None
          end
      | CloseTimeout s =>
          match phase st with
          | AwaitSockets pending =>
              if existsb (Nat.eqb s) pending then
                match nth_error (sockets st) s with
                | Some k =>
                    let st := if sk_destroyed k then st
                              else updSocket st s skDestroy in
                    Some (resolveClose st s)
                | None => None
                end
              else None
          | _ => None
          end
      | SerialClosed =>
          match phase st with
          | AwaitSerialClose => Some (exit (setSerialOpen st false) 0)
          | _ => None
          end
      | SerialTimeout =>
          match phase st with
          | AwaitSerialClose => Some (exit st 0)
          | _ => None
          end
      end
  end.

(** A run: the events of a trace, in order. *)
Fixpoint run (st : State) (trace : list Event) : option State :=
  match trace with
  | [] => Some st
  | ev :: rest =>
      match step st ev with
      | Some st' => run st' rest
      | None => None
      end
  end.

End Egress.

(** ** Ingress side ([tcp-server.js]) *)

Module Ingress.
Import Js Codec.

(** An entry of [portMappings]. *)
Record Mapping := mkMapping {
  localPort : Z;
  remoteHost : string;
  remotePort : Z;
  description : string
}.

(** A socket accepted by one of the servers, with the values its
    callbacks close over. *)
Record Socket := mkSocket {
  sk_clientId : string;
  sk_mapping : Mapping;
  sk_destroyed : bool;          (* [socket.destroyed] *)
  sk_closed : bool;             (* ['close'] has been emitted *)
  sk_ended : bool;              (* [socket.end()] has been called *)
  sk_written : list (list byte) (* payloads accepted by [socket.write], in order *)
}.

(** [clientInfo]; the [address] field only feeds the log. *)
Record ClientInfo := mkClientInfo {
  ci_id : string;
  ci_socket : nat;
  ci_localPort : Z;
  ci_mapping : Mapping
}.

(** Where [gracefulShutdown] is suspended. *)
Inductive Phase :=
| Running
| AwaitDisconnects                (* [Promise.all(disconnectPromises)] *)
| AwaitSockets (pending : list nat) (* [Promise.all(clientClosePromises)] *)
| AwaitServers                    (* [Promise.all(serverClosePromises)] *)
| AwaitSerialClose.               (* [serialPort.close] or its 3 s timer *)

Record State := mkState {
  clientsByPort : Map (Map ClientInfo);
  portMappings : list Mapping;
  listening : bool;               (* the servers accept connections *)
  sockets : list Socket;          (* every socket accepted, by order of arrival *)
  buffer : list byte;             (* [packetStream.buffer] *)
  serialOpen : bool;              (* [serialPort.isOpen] *)
  wire : list (list byte);        (* buffers handed to [serialPort.write], in order *)
  rng : nat -> list byte;         (* the bytes of the n-th [crypto.randomUUID()] *)
  draws : nat;                    (* calls of [crypto.randomUUID()] so far *)
  immediates : nat;               (* [setImmediate] callbacks not yet run *)
  phase : Phase;
  exitCode : option Z             (* argument of [process.exit] *)
}.

Definition init (mappings : list Mapping) (rng : nat -> list byte) : State :=
  mkState [] mappings true [] [] true [] rng 0 0 Running None.

Definition setClientsByPort (st : State) (c : Map (Map ClientInfo)) : State :=
  mkState c (portMappings st) (listening st) (sockets st) (buffer st)
    (serialOpen st) (wire st) (rng st) (draws st) (immediates st) (phase st)
    (exitCode st).
Definition setListening (st : State) (l : bool) : State :=
  mkState (clientsByPort st) (portMappings st) l (sockets st) (buffer st)
    (serialOpen st) (wire st) (rng st) (draws st) (immediates st) (phase st)
    (exitCode st).
Definition setSockets (st : State) (s : list Socket) : State :=
  mkState (clientsByPort st) (portMappings st) (listening st) s (buffer st)
    (serialOpen st) (wire st) (rng st) (draws st) (immediates st) (phase st)
    (exitCode st).
Definition setBuffer (st : State) (b : list byte) : State :=
  mkState (clientsByPort st) (portMappings st) (listening st) (sockets st) b
    (serialOpen st) (wire st) (rng st) (draws st) (immediates st) (phase st)
    (exitCode st).
Definition setSerialOpen (st : State) (o : bool) : State :=
  mkState (clientsByPort st) (portMappings st) (listening st) (sockets st)
    (buffer st) o (wire st) (rng st) (draws st) (immediates st) (phase st)
    (exitCode st).
Definition setWire (st : State) (w : list (list byte)) : State :=
  mkState (clientsByPort st) (portMappings st) (listening st) (sockets st)
    (buffer st) (serialOpen st) w (rng st) (draws st) (immediates st)
    (phase st) (exitCode st).
Definition setDraws (st : State) (n : nat) : State :=
  mkState (clientsByPort st) (portMappings st) (listening st) (sockets st)
    (buffer st) (serialOpen st) (wire st) (rng st) n (immediates st)
    (phase st) (exitCode st).
Definition setImmediates (st : State) (n : nat) : State :=
  mkState (clientsByPort st) (portMappings st) (listening st) (sockets st)
    (buffer st) (serialOpen st) (wire st) (rng st) (draws st) n (phase st)
    (exitCode st).
Definition setPhase (st : State) (p : Phase) : State :=
  mkState (clientsByPort st) (portMappings st) (listening st) (sockets st)
    (buffer st) (serialOpen st) (wire st) (rng st) (draws st) (immediates st)
    p (exitCode st).
Definition exit (st : State) (c : Z) : State :=
  mkState (clientsByPort st) (portMappings st) (listening st) (sockets st)
    (buffer st) (serialOpen st) (wire st) (rng st) (draws st) (immediates st)
    (phase st) (Some c).

Definition updSocket (st : State) (s : nat) (f : Socket -> Socket) : State :=
  setSockets st (Egress.updateAt (sockets st) s f).

Definition skEnd (k : Socket) : Socket :=
  mkSocket (sk_clientId k) (sk_mapping k) (sk_destroyed k) (sk_closed k) true
    (sk_written k).

Definition skDestroy (k : Socket) : Socket :=
  mkSocket (sk_clientId k) (sk_mapping k) true (sk_closed k) (sk_ended k)
    (sk_written k).

(** [socket.write(data)]: the payload is accepted while the socket has
    been neither ended nor destroyed.  A write after [end()] fails with
    [ERR_STREAM_WRITE_AFTER_END] and the stream destroys the socket at
    once; a write on a destroyed socket only hands the error to the
    callback, which logs it. *)
Definition skWrite (d : list byte) (k : Socket) : Socket :=
  if negb (sk_destroyed k) then
    if sk_ended k then skDestroy k
    else mkSocket (sk_clientId k) (sk_mapping k) (sk_destroyed k) (sk_closed k)
           (sk_ended k) (sk_written k ++ [d])
  else k.

Definition skSetClosed (k : Socket) : Socket :=
  mkSocket (sk_clientId k) (sk_mapping k) true true (sk_ended k) (sk_written k).

Definition socketDestroyed (st : State) (s : nat) : bool :=
  match nth_error (sockets st) s with
  | Some k => sk_destroyed k
  | None => true
  end.

Definition createPacketS (st : State) (cmd : Z) (clientId : JsValue)
    (data : list byte) (targetHost : string) (targetPort : Z)
  : State * option (list byte) :=
  let uuid := randomUUID (rng st (draws st)) in
  let st' := if drawsUUID clientId then setDraws st (S (draws st)) else st in
  (st', createPacket cmd clientId data targetHost targetPort uuid).

(** [serialPort.write(packet)] *)
Definition serialWrite (st : State) (packet : list byte) : State :=
  setWire st (wire st ++ [packet]).

Inductive Outcome :=
| Return (st : State)
| Throw (st : State).

(** [createPacket] followed by [serialPort.write] of its result. *)
Definition sendPacket (st : State) (cmd : Z) (clientId : JsValue)
    (data : list byte) (targetHost : string) (targetPort : Z) : Outcome :=
  match createPacketS st cmd clientId data targetHost targetPort with
  | (st', Some packet) => Return (serialWrite st' packet)
  | (st', None) => Throw st'
  end.

(** The connection callback of the server of [mapping]. *)
Definition onConnection (st : State) (mapping : Mapping) : State :=
  let uuid := randomUUID (rng st (draws st)) in
  let st := setDraws st (S (draws st)) in
  let clientId := removeHyphens uuid in
  let s := List.length (sockets st) in
  let clientInfo := mkClientInfo clientId s (localPort mapping) mapping in
  let st := setSockets st
              (sockets st ++ [mkSocket clientId mapping false false false []]) in
  let port := JsNum (localPort mapping) in
  let byPort := if mapHas (clientsByPort st) port then clientsByPort st
                else mapSet (clientsByPort st) port [] in
  let bucket := match mapGet byPort port with
                | Some b => b
                | None => []
                end in
  setClientsByPort st (mapSet byPort port (mapSet bucket (JsStr clientId) clientInfo)).

(** ['data'] on an accepted socket. *)
Definition onSocketData (st : State) (k : Socket) (data : list byte) : Outcome :=
  if serialOpen st
  then sendPacket st CMD_DATA (JsStr (sk_clientId k)) data
         (remoteHost (sk_mapping k)) (remotePort (sk_mapping k))
  else Return st.

(** ['close'] on an accepted socket. *)
Definition onSocketClose (st : State) (s : nat) (k : Socket) : Outcome :=
  let st := updSocket st s skSetClosed in
  let port := JsNum (localPort (sk_mapping k)) in
  let st := match mapGet (clientsByPort st) port with
            | Some bucket =>
                setClientsByPort st
                  (mapSet (clientsByPort st) port
                     (mapDelete bucket (JsStr (sk_clientId k))))
            | None => st
            end in
  if serialOpen st
  then sendPacket st CMD_DISCONNECT (JsStr (sk_clientId k)) []
         (remoteHost (sk_mapping k)) (remotePort (sk_mapping k))
  else Return st.

(** The search loop of the [CMD_DATA] case: the entry of the first bucket
    that has [clientId]. *)
Fixpoint findClient (byPort : Map (Map ClientInfo)) (clientId : JsValue)
  : option ClientInfo :=
  match byPort with
  | [] => None
  | (_, clients) :: rest =>
      match mapGet clients clientId with
      | Some c => Some c
      | None => findClient rest clientId
      end
  end.

(** The loop of the [CMD_DISCONNECT] case: [socket.end()] on the entry of
    every bucket that has [clientId], unless the socket is destroyed. *)
Fixpoint endClient (st : State) (byPort : Map (Map ClientInfo))
    (clientId : JsValue) : State :=
  match byPort with
  | [] => st
  | (_, clients) :: rest =>
      match mapGet clients clientId with
      | Some client =>
          let st := if negb (socketDestroyed st (ci_socket client))
                    then updSocket st (ci_socket client) skEnd
                    else st in
          endClient st rest clientId
      | None => endClient st rest clientId
      end
  end.

Definition handleResponsePacket (st : State) (packet : Packet) : State :=
  let clientId := JsStr (Codec.clientId packet) in
  if Codec.cmd packet =? CMD_DATA then
    match findClient (clientsByPort st) clientId with
    | Some targetClient =>
        if negb (socketDestroyed st (ci_socket targetClient))
        then updSocket st (ci_socket targetClient) (skWrite (Codec.data packet))
        else st
    | None => st
    end
  else if Codec.cmd packet =? CMD_DISCONNECT then
    let st := endClient st (clientsByPort st) clientId in
    (* [clientsByPort.has(clientId)]: the outer map is asked for the id *)
    match mapGet (clientsByPort st) clientId with
    | Some bucket =>
        setClientsByPort st
          (mapSet (clientsByPort st) clientId (mapDelete bucket clientId))
    | None => st
    end
  else if Codec.cmd packet =? CMD_PROGRAM_CLOSE then
    (* [setImmediate(() => gracefulShutdown())] *)
    setImmediates st (S (immediates st))
  else st.

Definition onSerialData (st : State) (chunk : list byte) : option State :=
  match _transform (buffer st) chunk with
  | Some (packets, buffer') =>
      Some (fold_left handleResponsePacket packets (setBuffer st buffer'))
  | None => None
  end.


(** *** [gracefulShutdown]

    Written from its last step to its first; each definition runs up to
    the next [await] that actually suspends. *)

(** Step 5: close the serial port, or exit at once when it is not open. *)
Definition closeSerial (st : State) : State :=
  if serialOpen st then setPhase st AwaitSerialClose else exit st 0.

(** Step 4: [server.close] on every server, one per mapping; each promise
    resolves by the callback or by its 5 s timer. *)
Definition closeServers (st : State) : State :=
  let st := setListening st false in
  match portMappings st with
  | [] => closeSerial st
  | _ => setPhase st AwaitServers
  end.

(** Step 3, [clientsByPort.clear()], then step 4. *)
Definition afterSockets (st : State) : State :=
  closeServers (setClientsByPort st []).

Fixpoint bucketSockets (st : State) (entries : Map ClientInfo) : list nat :=
  match entries with
  | [] => []
  | (_, clientInfo) :: rest =>
      if negb (socketDestroyed st (ci_socket clientInfo))
      then ci_socket clientInfo :: bucketSockets st rest
      else bucketSockets st rest
  end.

(** The sockets that step 2 ends and waits for. *)
Fixpoint socketsToClose (st : State) (byPort : Map (Map ClientInfo)) : list nat :=
  match byPort with
  | [] => []
  | (_, clients) :: rest => bucketSockets st clients ++ socketsToClose st rest
  end.

(** Step 2: [socket.end()] on each of them, then wait for every ['close']
    or 3 s timer. *)
Definition closeSockets (st : State) : State :=
  let targets := socketsToClose st (clientsByPort st) in
  let st := fold_left (fun st s => updSocket st s skEnd) targets st in
  match targets with
  | [] => afterSockets st
  | _ => setPhase st (AwaitSockets targets)
  end.

(** The inner [forEach] of step 1.  [createPacket] runs inside a promise
    executor: when it throws, that promise is rejected and the loop goes
    on.  The boolean tells whether some promise was rejected. *)
Fixpoint disconnectBucket (st : State) (entries : Map ClientInfo)
    (rejected : bool) : State * bool :=
  match entries with
  | [] => (st, rejected)
  | (clientId, clientInfo) :: rest =>
      match sendPacket st CMD_DISCONNECT clientId []
              (remoteHost (ci_mapping clientInfo))
              (remotePort (ci_mapping clientInfo)) with
      | Return st' => disconnectBucket st' rest rejected
      | Throw st' => disconnectBucket st' rest true
      end
  end.

Fixpoint disconnectAll (st : State) (byPort : Map (Map ClientInfo))
    (rejected : bool) : State * bool :=
  match byPort with
  | [] => (st, rejected)
  | (_, clients) :: rest =>
      let '(st', rejected') := disconnectBucket st clients rejected in
      disconnectAll st' rest rejected'
  end.

(** [disconnectPromises.length > 0] *)
Definition anyClient (byPort : Map (Map ClientInfo)) : bool :=
  existsb (fun e => match snd e with [] => false | _ => true end) byPort.

(** Step 1: one Disconnect per session, when the serial port is open.  A
    rejected promise makes [await Promise.all] throw, and the [catch]
    exits with status 1. *)
Definition gracefulShutdown (st : State) : State :=
  if serialOpen st then
    let '(st', rejected) := disconnectAll st (clientsByPort st) false in
    if anyClient (clientsByPort st) then
      if rejected then exit st' 1 else setPhase st' AwaitDisconnects
    else closeSockets st'
  else closeSockets st.

(** *** Events *)

Inductive Event :=
| SerialData (chunk : list byte)        (* [serialPort.on('data')] *)
| Connection (i : nat)                  (* a client reaches the server of mapping [i] *)
| SocketData (s : nat) (data : list byte)
| SocketClose (s : nat)
| SocketError (s : nat)
| Immediate                             (* a [setImmediate] callback runs *)
| Signal                                (* SIGINT, SIGTERM *)
| Resume                                (* every Disconnect of step 1 is written *)
| CloseTimeout (s : nat)                (* the 3 s timer of step 2 for socket [s] *)
| ServersClosed                         (* every promise of step 4 is resolved *)
| SerialClosed                          (* the callback of [serialPort.close] *)
| SerialTimeout.                        (* the 3 s timer of step 5 *)

(** The model follows one run of [gracefulShutdown]; a request for a
    second run while the first is suspended is outside it ([None]). *)
Definition startShutdown (st : State) : option State :=
  match phase st with
  | Running => Some (gracefulShutdown st)
  | _ => None
  end.

(** An exception that leaves a handler reaches ['uncaughtException']. *)
Definition settle (o : Outcome) : option State :=
  match o with
  | Return st => Some st
  | Throw st => startShutdown st
  end.

(** One of the promises of step 2 resolves. *)
Definition resolveClose (st : State) (s : nat) : State :=
  match phase st with
  | AwaitSockets pending =>
      if existsb (Nat.eqb s) pending then
        match filter (fun x => negb (Nat.eqb s x)) pending with
        | [] => afterSockets st
        | pending' => setPhase st (AwaitSockets pending')
        end
      else st
  | _ => st
  end.

Definition step (st : State) (ev : Event) : option State :=
  match exitCode st with
  | Some _ => None
  | None =>
      match ev with
      | SerialData chunk => onSerialData st chunk
      | Connection i =>
          match nth_error (portMappings st) i with
          | Some mapping =>
              if listening st then Some (onConnection st mapping) else None
          | None => None
          end
      | SocketData s data =>
          match nth_error (sockets st) s with
          | Some k =>
              if negb (sk_destroyed k)
              then settle (onSocketData st k data) else None
          | None => None
          end
      | SocketClose s =>
          match nth_error (sockets st) s with
          | Some k =>
              if negb (sk_closed k)
              then match onSocketClose st s k with
                   | Return st' => Some (resolveClose st' s)
                   | Throw st' => startShutdown st'
                   end
              else None
          | None => None
          end
      | SocketError s =>
          match nth_error (sockets st) s with
          | Some k => if negb (sk_closed k) then Some st else None
          | None => None
          end
      | Immediate =>
          match immediates st with
          | S n => startShutdown (setImmediates st n)
          | O => None
          end
      | Signal => startShutdown st
      | Resume =>
          match phase st with
          | AwaitDisconnects => Some (closeSockets st)
          | _ => None
          end
      | CloseTimeout s =>
          match phase st with
          | AwaitSockets pending =>
              if existsb (Nat.eqb s) pending then
                let st := if socketDestroyed st s then st
                          else updSocket st s skDestroy in
                Some (resolveClose st s)
              else None
          | _ => None
          end
      | ServersClosed =>
          match phase st with
          | AwaitServers => Some (closeSerial st)
          | _ => None
          end
      | SerialClosed =>
          match phase st with
          | AwaitSerialClose => Some (exit (setSerialOpen st false) 0)
          | _ => None
          end
      | SerialTimeout =>
          match phase st with
          | AwaitSerialClose => Some (exit st 0)
          | _ => None
          end
      end
  end.

(** A run: the events of a trace, in order. *)
Fixpoint run (st : State) (trace : list Event) : option State :=
  match trace with
  | [] => Some st
  | ev :: rest =>
      match step st ev with
      | Some st' => run st' rest
      | None => None
      end
  end.

End Ingress.

(** ** The wire format, as the claims speak of it *)

Module Wire.
Import Js Codec.

(** A field of [n] bytes that holds [src] followed by zero bytes. *)
Definition pad (n : nat) (src : list byte) : list byte :=
  src ++ repeat x00 (n - List.length src).

Definition u16be (v : Z) : list byte := [z2b (v / 256); z2b v].

Definition u32be (v : Z) : list byte :=
  [z2b (v / 16777216); z2b (v / 65536); z2b (v / 256); z2b v].

(** The 27-byte header and the payload: cmd, session id, target ip,
    target port, data length, data. *)
Definition frameBytes (cmd : Z) (id ip : list byte) (port : Z)
    (data : list byte) : list byte :=
  [z2b cmd] ++ pad 16 id ++ pad 4 ip ++ u16be port
  ++ u32be (Z.of_nat (List.length data)) ++ data.

(** A frame whose fields fit the format: the session id is the
    hexadecimal form of sixteen bytes, the target host the dotted form of
    four, and the payload is no longer than [ceiling]. *)
Definition wellFormed (ceiling : Z) (p : Packet) : Prop :=
  0 <= cmd p <= 255
  /\ (exists id, List.length id = 16%nat /\ clientId p = toHex id)
  /\ (exists ip, List.length ip = 4%nat
                 /\ targetHost p = joinDots (map byteToString ip))
  /\ 0 <= targetPort p <= 65535
  /\ Z.of_nat (List.length (data p)) <= ceiling.

(** [createPacket] applied to the fields of a frame. *)
Definition encode (p : Packet) (uuid : string) : option (list byte) :=
  createPacket (cmd p) (JsStr (clientId p)) (data p) (targetHost p)
    (targetPort p) uuid.

(** [encodings] are the results of [createPacket] on [frames], in order. *)
Definition encoded (frames : list Packet) (encodings : list (list byte)) : Prop :=
  Forall2 (fun p e => exists uuid, encode p uuid = Some e) frames encodings.

(** A proper prefix of the encoding of a frame. *)
Definition partialFrame (ceiling : Z) (partial : list byte) : Prop :=
  exists p uuid e rest,
    wellFormed ceiling p /\ encode p uuid = Some e
    /\ e = partial ++ rest /\ rest <> [].

(** The largest value of the [data_len] field. *)
Definition maxDataLength : Z := 4294967295.

(** The cmd byte of a frame on the wire. *)
Definition frameCmd (frame : list byte) : Z := readUInt8 frame 0.

(** A string of 32 hexadecimal digits. *)
Definition isHexChar (c : ascii) : bool :=
  match unhex c with
  | Some _ => true
  | None => false
  end.

Fixpoint allHex (s : string) : bool :=
  match s with
  | EmptyString => true
  | String c r => isHexChar c && allHex r
  end.

Definition isHex32 (s : string) : bool :=
  (String.length s =? 32)%nat && allHex s.

(** The part of [targetHost] for octet [i] is missing or is not a number
    for [parseInt]. *)
Definition octetUnparseable (targetHost : string) (i : nat) : Prop :=
  match nth_error (splitDots targetHost) i with
  | None => True
  | Some part => parseInt part = None
  end.

End Wire.

(** ** Sample values for the worked instances *)

Module Samples.
Import Js Codec.

Definition id0 : list byte :=
  [x00; x11; x22; x33; x44; x55; x66; x77; x88; x99; xaa; xbb; xcc; xdd; xee; xff].

Definition id1 : list byte :=
  [x10; x21; x32; x43; x54; x65; x76; x87; x98; xa9; xba; xcb; xdc; xed; xfe; x0f].

Definition loopback : list byte := [x7f; x00; x00; x01].

(** A Data frame of two bytes, a Disconnect frame without payload. *)
Definition frameData : Packet :=
  mkPacket CMD_DATA (toHex id0) (joinDots (map byteToString loopback)) 9000 [x68; x69].

Definition frameDisconnect : Packet :=
  mkPacket CMD_DISCONNECT (toHex id0) (joinDots (map byteToString loopback)) 9000 [].

Definition bytesOf (p : Packet) : list byte :=
  match Wire.encode p EmptyString with
  | Some e => e
  | None => []
  end.

(** Thirty-two characters that are not hexadecimal digits. *)
Definition notHex32 : string := "zzzzzzzzzzzzzzzzzzzzzzzzzzzzzzzz".

(** A generator that always yields [id1]. *)
Definition rngConst : nat -> list byte := fun _ => id1.

(** Modelled from the spec: the hard ceiling on [data_len] that the spec
    recommends (16 MiB); the source has no such constant. *)
Definition recommendedCeiling : Z := 16 * 1024 * 1024.

(** The header of a Data frame that announces 16 MiB + 1 bytes. *)
Definition oversizeHeader : list byte :=
  [x01] ++ id0 ++ loopback ++ [x23; x28] ++ [x01; x00; x00; x01].

(** A ProgramClose frame, as the egress writes it. *)
Definition frameProgramClose : Packet :=
  mkPacket CMD_PROGRAM_CLOSE (toHex id0)
    (joinDots (map byteToString [x00; x00; x00; x00])) 0 [].

(** A second Data frame for the session of [frameData]. *)
Definition frameData2 : Packet :=
  mkPacket CMD_DATA (toHex id0) (joinDots (map byteToString loopback)) 9000
    [x6a; x6b; x6c].

(** The mapping of the first end-to-end scenario of the spec. *)
Definition echoMapping : Ingress.Mapping :=
  Ingress.mkMapping 8080 "127.0.0.1" 9000 "echo".

(** A mapping whose target port does not fit 16 bits. *)
Definition badMapping : Ingress.Mapping :=
  Ingress.mkMapping 8081 "127.0.0.1" 70000 "bad port".

(** The Disconnect that a peer sends for the session that the ingress
    opens first under [rngConst]. *)
Definition frameDisconnect1 : Packet :=
  mkPacket CMD_DISCONNECT (toHex id1)
    (joinDots (map byteToString loopback)) 9000 [].

End Samples.

(** ** Invariants and vocabulary of the session properties *)

Module Vocabulary.
Import Js Codec Wire.

(** A Data or a Disconnect frame. *)
Definition sessionFrame (frame : list byte) : Prop :=
  frameCmd frame = CMD_DATA \/ frameCmd frame = CMD_DISCONNECT.

(** How many frames of the wire carry cmd [c]. *)
Definition countCmd (c : Z) (wire : list (list byte)) : nat :=
  List.length (filter (fun f => frameCmd f =? c) wire).

Definition portOK (port : Z) : Prop := 0 <= port <= 65535.

(** The payloads of the Data frames for [id] among [packets], in order. *)
Definition payloadsFor (id : string) (packets : list Packet) : list (list byte) :=
  map data
    (filter (fun p => (cmd p =? CMD_DATA) && String.eqb (clientId p) id) packets).

(** No packet of the list is a Disconnect for [id]. *)
Definition noDisconnectFor (id : string) (packets : list Packet) : Prop :=
  Forall (fun p => ~ (cmd p = CMD_DISCONNECT /\ clientId p = id)) packets.

(** Egress: every entry of [clients] is stored under the id of its own
    socket, as the connect callback stores it. *)
Definition egressConsistent (st : Egress.State) : Prop :=
  forall key client,
    In (key, client) (Egress.clients st) ->
    exists k,
      nth_error (Egress.sockets st) (Egress.ci_socket client) = Some k
      /\ key = JsStr (Egress.sk_clientId k)
      /\ Egress.ci_connected client = true.

(** Egress: every port kept in the state came out of a 16-bit field. *)
Definition egressPortsOK (st : Egress.State) : Prop :=
  Forall (fun k => portOK (Egress.sk_targetPort k)) (Egress.sockets st)
  /\ Forall (fun e => portOK (Egress.ci_targetPort (snd e))) (Egress.clients st).

Definition mappingOK (m : Ingress.Mapping) : Prop :=
  portOK (Ingress.remotePort m).

(** Ingress: every mapping in use has a target port that fits its field. *)
Definition ingressPortsOK (st : Ingress.State) : Prop :=
  Forall mappingOK (Ingress.portMappings st)
  /\ Forall (fun k => mappingOK (Ingress.sk_mapping k)) (Ingress.sockets st)
  /\ Forall (fun b => Forall (fun e => mappingOK (Ingress.ci_mapping (snd e)))
                        (snd b))
       (Ingress.clientsByPort st).

(** Ingress: the keys of [clientsByPort] are port numbers. *)
Definition keysAreNumbers (st : Ingress.State) : Prop :=
  Forall (fun b => exists n, fst b = JsNum n) (Ingress.clientsByPort st).

(** Ingress: how many sockets have emitted ['close']. *)
Definition closedCount (st : Ingress.State) : nat :=
  List.length (filter Ingress.sk_closed (Ingress.sockets st)).

(** [gracefulShutdown] has not been called. *)
Definition ingressLive (st : Ingress.State) : Prop :=
  Ingress.phase st = Ingress.Running /\ Ingress.exitCode st = None.

(** Egress: what a step that does not start [gracefulShutdown] adds to the
    wire: Data and Disconnect frames only. *)
Definition egressWire (st st' : Egress.State) : Prop :=
  exists new,
    Egress.wire st' = Egress.wire st ++ new /\ Forall sessionFrame new.

(** Egress: a step keeps the ports within their field, and with such
    ports it exits with status 0 or not at all. *)
Definition egressSound (st st' : Egress.State) : Prop :=
  egressPortsOK st ->
  egressPortsOK st'
  /\ forall c, Egress.exitCode st' = Some c ->
               Egress.exitCode st = Some c \/ c = 0.

(** Egress: once [gracefulShutdown] is suspended it is never idle again. *)
Definition egressPhase (st st' : Egress.State) : Prop :=
  Egress.phase st <> Egress.Running -> Egress.phase st' <> Egress.Running.

Definition egressQuiet (st st' : Egress.State) : Prop :=
  egressWire st st' /\ egressSound st st' /\ egressPhase st st'.

(** Egress: the run of [gracefulShutdown] is under way or over. *)
Definition egressStarted (st : Egress.State) : Prop :=
  Egress.phase st <> Egress.Running \/ Egress.exitCode st <> None.

(** Ingress: what any step adds to the wire: Data and Disconnect frames
    only. *)
Definition ingressWire (st st' : Ingress.State) : Prop :=
  exists new,
    Ingress.wire st' = Ingress.wire st ++ new /\ Forall sessionFrame new.

(** Ingress: a step keeps the mappings in use valid, and with such
    mappings it exits with status 0 or not at all. *)
Definition ingressSound (st st' : Ingress.State) : Prop :=
  ingressPortsOK st ->
  ingressPortsOK st'
  /\ forall c, Ingress.exitCode st' = Some c ->
               Ingress.exitCode st = Some c \/ c = 0.

Definition ingressPhase (st st' : Ingress.State) : Prop :=
  Ingress.phase st <> Ingress.Running -> Ingress.phase st' <> Ingress.Running.

Definition ingressQuiet (st st' : Ingress.State) : Prop :=
  ingressWire st st' /\ ingressSound st st' /\ ingressPhase st st'.

(** Ingress: the run of [gracefulShutdown] is under way or over. *)
Definition ingressStarted (st : Ingress.State) : Prop :=
  Ingress.phase st <> Ingress.Running \/ Ingress.exitCode st <> None.

(** Ingress: between two states, no more Disconnect frames were written
    than sockets emitted ['close']. *)
Definition ingressTally (st st' : Ingress.State) : Prop :=
  (countCmd CMD_DISCONNECT (Ingress.wire st') + closedCount st
   <= countCmd CMD_DISCONNECT (Ingress.wire st) + closedCount st')%nat.

(** Ingress: every entry of a bucket is stored under the id of its own
    socket, as the connection callback stores it. *)
Definition ingressConsistent (st : Ingress.State) : Prop :=
  forall port bucket key client,
    In (port, bucket) (Ingress.clientsByPort st) ->
    In (key, client) bucket ->
    exists k,
      nth_error (Ingress.sockets st) (Ingress.ci_socket client) = Some k
      /\ key = JsStr (Ingress.sk_clientId k).

(** Ingress: the sockets of [st] are still there in [st'], under their
    ids. *)
Definition ingressIdsKept (st st' : Ingress.State) : Prop :=
  forall i k,
    nth_error (Ingress.sockets st) i = Some k ->
    exists k',
      nth_error (Ingress.sockets st') i = Some k'
      /\ Ingress.sk_clientId k' = Ingress.sk_clientId k.

(** The events that a timer of [gracefulShutdown] brings about by itself:
    the 3 s timer of a socket, the 5 s timers of the servers, the 3 s
    timer of the serial port. *)
Definition ingressTimer (ev : Ingress.Event) : bool :=
  match ev with
  | Ingress.CloseTimeout _ | Ingress.ServersClosed | Ingress.SerialTimeout => true
  | _ => false
  end.

Definition egressTimer (ev : Egress.Event) : bool :=
  match ev with
  | Egress.CloseTimeout _ | Egress.SerialTimeout => true
  | _ => false
  end.

(** [gracefulShutdown] is suspended at the wait for the sockets or
    later. *)
Definition ingressWaiting (st : Ingress.State) : Prop :=
  Ingress.exitCode st = None
  /\ match Ingress.phase st with
     | Ingress.AwaitSockets pending => pending <> []
     | Ingress.AwaitServers | Ingress.AwaitSerialClose => True
     | _ => False
     end.

Definition egressWaiting (st : Egress.State) : Prop :=
  Egress.exitCode st = None
  /\ match Egress.phase st with
     | Egress.AwaitSockets pending =>
         pending <> []
         /\ Forall (fun s => (s < List.length (Egress.sockets st))%nat) pending
     | Egress.AwaitSerialClose => True
     | _ => False
     end.

(** Timers alone bring the process to [process.exit(0)]. *)
Definition ingressFinishes (st : Ingress.State) : Prop :=
  exists trace st',
    Forall (fun ev => ingressTimer ev = true) trace
    /\ Ingress.run st trace = Some st'
    /\ Ingress.exitCode st' = Some 0.

Definition egressFinishes (st : Egress.State) : Prop :=
  exists trace st',
    Forall (fun ev => egressTimer ev = true) trace
    /\ Egress.run st trace = Some st'
    /\ Egress.exitCode st' = Some 0.

(** The session id that a frame on the wire carries. *)
Definition frameId (frame : list byte) : string := toHex (subarray frame 1 17).

(** How many frames of the wire are a Disconnect for [id]. *)
Definition disconnectsFor (id : string) (wire : list (list byte)) : nat :=
  List.length
    (filter (fun f => (frameCmd f =? CMD_DISCONNECT) && String.eqb (frameId f) id)
       wire).

(** Ingress: how many sockets accepted under [id] have emitted ['close']. *)
Definition closedFor (id : string) (st : Ingress.State) : nat :=
  List.length
    (filter (fun k => Ingress.sk_closed k && String.eqb (Ingress.sk_clientId k) id)
       (Ingress.sockets st)).

(** Ingress: the entries of all buckets, in the order of the two
    [forEach] loops of [gracefulShutdown], and how many of them are
    stored under [id]. *)
Definition entries (st : Ingress.State) : list (JsValue * Ingress.ClientInfo) :=
  List.concat (map snd (Ingress.clientsByPort st)).

Definition entriesFor (id : string) (st : Ingress.State) : nat :=
  List.length (filter (fun e => sameValueZero (fst e) (JsStr id)) (entries st)).

(** The id and the ['close'] flag of a socket; with the generator, what
    the counts above depend on. *)
Definition sign (k : Ingress.Socket) : string * bool :=
  (Ingress.sk_clientId k, Ingress.sk_closed k).

Definition ingressStamp (st : Ingress.State)
  : (nat -> list byte) * list (string * bool) :=
  (Ingress.rng st, map sign (Ingress.sockets st)).

(** The 32 hexadecimal digits of sixteen bytes. *)
Definition isHexId (s : string) : Prop :=
  exists r : list byte, List.length r = 16%nat /\ s = toHex r.

(** Ingress: the generator yields sixteen bytes, as
    [crypto.randomUUID()] does, and every socket has an id made of
    them. *)
Definition ingressHex (st : Ingress.State) : Prop :=
  (forall n, List.length (Ingress.rng st n) = 16%nat)
  /\ Forall (fun k => isHexId (Ingress.sk_clientId k)) (Ingress.sockets st).

Definition hexKey (e : JsValue * Ingress.ClientInfo) : Prop :=
  exists id, isHexId id /\ fst e = JsStr id.

Definition ingressInv (st : Ingress.State) : Prop :=
  keysAreNumbers st /\ ingressConsistent st /\ ingressHex st.

(** Ingress: between two states, no more Disconnect frames for [id] were
    written than sockets of [id] emitted ['close']. *)
Definition ingressTallyFor (id : string) (st st' : Ingress.State) : Prop :=
  (disconnectsFor id (Ingress.wire st') + closedFor id st
   <= disconnectsFor id (Ingress.wire st) + closedFor id st')%nat.

(** [f] is the Disconnect frame of the session of entry [e]: the peer
    decodes it to a Disconnect with the id under which the entry is
    stored, the target of its mapping and no payload. *)
Definition disconnectOf (e : JsValue * Ingress.ClientInfo) (f : list byte) : Prop :=
  exists id,
    fst e = JsStr id
    /\ extract f
       = Some (mkPacket CMD_DISCONNECT id
                 (joinDots
                    (map byteToString
                       (pad 4 (ipBuffer
                                 (Ingress.remoteHost (Ingress.ci_mapping (snd e)))))))
                 (Ingress.remotePort (Ingress.ci_mapping (snd e))) [],
               []).







End Vocabulary.

(** * [logger.js]

    The logger writes to the console and to a log file; neither is read
    back by the tunnel.  The clock, the outcome of the file write and the
    rendering of the [data] argument are inputs.  The [mkdirSync] of the
    constructor is left out. *)

Module Logger.
Import Js.
Local Open Scope string_scope.

(** [LOG_LEVELS] *)
Inductive Level := DEBUG | INFO | WARN | ERROR.

Definition LEVEL_NAMES (level : Level) : string :=
  match level with
  | DEBUG => "DEBUG"
  | INFO => "INFO"
  | WARN => "WARN"
  | ERROR => "ERROR"
  end.

Definition esc : string := String (chr 27) EmptyString.

Definition LEVEL_COLORS (level : Level) : string :=
  match level with
  | DEBUG => esc ++ "[36m"
  | INFO => esc ++ "[32m"
  | WARN => esc ++ "[33m"
  | ERROR => esc ++ "[31m"
  end.

Definition RESET_COLOR : string := esc ++ "[0m".

(** [this.options] *)
Record Options := mkOptions {
  opt_debug : bool;
  opt_info : bool;
  opt_warn : bool;
  opt_error : bool;
  opt_verbose : bool;
  opt_timestamp : bool;
  opt_colorize : bool;
  opt_logToFile : bool;
  opt_logFile : string
}.

(** An [options] argument: a key is absent, or holds a boolean (a string
    for [logFile]). *)
Record Given := mkGiven {
  g_debug : option bool;
  g_info : option bool;
  g_warn : option bool;
  g_error : option bool;
  g_verbose : option bool;
  g_timestamp : option bool;
  g_colorize : option bool;
  g_logToFile : option bool;
  g_logFile : option string
}.

(** [{}] *)
Definition noOptions : Given :=
  mkGiven None None None None None None None None None.

(** [x || false], [x !== false], [x || d] *)
Definition orFalse (x : option bool) : bool :=
  match x with
  | Some b => b
  | None => false
  end.

Definition notFalse (x : option bool) : bool :=
  match x with
  | Some b => b
  | None => true
  end.

Definition orDefault (x : option string) (d : string) : string :=
  match x with
  | Some (String c r) => String c r
  | _ => d
  end.

Definition orElse {A} (x : option A) (d : A) : A :=
  match x with
  | Some a => a
  | None => d
  end.

Record Logger := mkLogger {
  prefix : string;
  options : Options
}.

(** [constructor(prefix, options)] *)
Definition new (prefix : string) (given : Given) : Logger :=
  mkLogger prefix
    (mkOptions (orFalse (g_debug given)) (notFalse (g_info given))
       (notFalse (g_warn given)) (notFalse (g_error given))
       (orFalse (g_verbose given)) (notFalse (g_timestamp given))
       (notFalse (g_colorize given)) (orFalse (g_logToFile given))
       (orDefault (g_logFile given) "tcp-bridge.log")).

(** What the logger has produced: the lines of [console.log], the
    messages of the errors reported with [console.error], and the texts
    that [fs.appendFileSync] has appended, with their files. *)
Record Output := mkOutput {
  console : list string;
  errors : list string;
  appended : list (string * string)
}.

Definition nonEmpty (s : string) : bool :=
  match s with
  | EmptyString => false
  | _ => true
  end.

(** [formatMessage]; [now] is what [formatTimestamp()] returns, [data]
    the text that [JSON.stringify] or [String] makes of the argument,
    when there is one. *)
Definition formatMessage (lg : Logger) (now : string) (level : Level)
    (message : string) (data : option string) : string :=
  let stamp := if opt_timestamp (options lg) then "[" ++ now ++ "] " else "" in
  let pre := if nonEmpty (prefix lg) then "[" ++ prefix lg ++ "] " else "" in
  let levelName := "[" ++ LEVEL_NAMES level ++ "] " in
  let formattedMessage := stamp ++ pre ++ levelName ++ message in
  match data with
  | Some text => formattedMessage ++ " " ++ text
  | None => formattedMessage
  end.

Definition outputToConsole (lg : Logger) (level : Level) (message : string)
    (out : Output) : Output :=
  let line := if opt_colorize (options lg)
              then LEVEL_COLORS level ++ message ++ RESET_COLOR
              else message in
  mkOutput (console out ++ [line])%list (errors out) (appended out).

(** [outputToFile]; [io] is the message of the error that
    [appendFileSync] throws, if it throws. *)
Definition outputToFile (lg : Logger) (message : string) (io : option string)
    (out : Output) : Output :=
  if opt_logToFile (options lg) then
    match io with
    | None =>
        let text := message ++ String (chr 10) EmptyString in
        mkOutput (console out) (errors out)
          (appended out ++ [(opt_logFile (options lg), text)])%list
    | Some err => mkOutput (console out) (errors out ++ [err])%list (appended out)
    end
  else out.

(** The test of the [switch] of [log] for each level. *)
Definition shown (o : Options) (level : Level) : bool :=
  match level with
  | DEBUG => opt_debug o || opt_verbose o
  | INFO => opt_info o
  | WARN => opt_warn o
  | ERROR => opt_error o
  end.

Definition log (lg : Logger) (now : string) (level : Level) (message : string)
    (data : option string) (io : option string) (out : Output) : Output :=
  let formattedMessage := formatMessage lg now level message data in
  let out := if shown (options lg) level
             then outputToConsole lg level formattedMessage out
             else out in
  outputToFile lg formattedMessage io out.

Definition debug lg now message data io out := log lg now DEBUG message data io out.
Definition info lg now message data io out := log lg now INFO message data io out.
Definition warn lg now message data io out := log lg now WARN message data io out.
Definition error lg now message data io out := log lg now ERROR message data io out.

Definition verbose (lg : Logger) (now message : string) (data io : option string)
    (out : Output) : Output :=
  if opt_verbose (options lg) then log lg now DEBUG message data io out else out.

(** [{ ...a, ...b }] for two arguments, and for [this.options] and an
    argument. *)
Definition over {A} (a b : option A) : option A :=
  match b with
  | Some x => Some x
  | None => a
  end.

Definition spread (a b : Given) : Given :=
  mkGiven (over (g_debug a) (g_debug b)) (over (g_info a) (g_info b))
    (over (g_warn a) (g_warn b)) (over (g_error a) (g_error b))
    (over (g_verbose a) (g_verbose b)) (over (g_timestamp a) (g_timestamp b))
    (over (g_colorize a) (g_colorize b)) (over (g_logToFile a) (g_logToFile b))
    (over (g_logFile a) (g_logFile b)).

Definition merge (o : Options) (b : Given) : Options :=
  mkOptions (orElse (g_debug b) (opt_debug o)) (orElse (g_info b) (opt_info o))
    (orElse (g_warn b) (opt_warn o)) (orElse (g_error b) (opt_error o))
    (orElse (g_verbose b) (opt_verbose o))
    (orElse (g_timestamp b) (opt_timestamp o))
    (orElse (g_colorize b) (opt_colorize o))
    (orElse (g_logToFile b) (opt_logToFile o))
    (orElse (g_logFile b) (opt_logFile o)).

(** An options object passed where an argument is expected. *)
Definition asGiven (o : Options) : Given :=
  mkGiven (Some (opt_debug o)) (Some (opt_info o)) (Some (opt_warn o))
    (Some (opt_error o)) (Some (opt_verbose o)) (Some (opt_timestamp o))
    (Some (opt_colorize o)) (Some (opt_logToFile o)) (Some (opt_logFile o)).

Definition child (lg : Logger) (name : string) (given : Given) : Logger :=
  let childPrefix := if nonEmpty (prefix lg) then prefix lg ++ ":" ++ name
                     else name in
  let childOptions := asGiven (merge (options lg) given) in
  new childPrefix childOptions.

Definition setOptions (lg : Logger) (given : Given) : Logger :=
  mkLogger (prefix lg) (merge (options lg) given).



(** [this.options[key] = value] for a boolean [value] and any key.  A key
    that is not the name of an option adds a property that nothing
    reads.  Under the key [logFile] the boolean would take the place of
    the file name, which [Options] has no value for: [None]. *)
Definition assign (o : Options) (key : string) (value : bool) : option Options :=
  if String.eqb key "debug" then
    Some (mkOptions value (opt_info o) (opt_warn o) (opt_error o)
            (opt_verbose o) (opt_timestamp o) (opt_colorize o)
            (opt_logToFile o) (opt_logFile o))
  else if String.eqb key "info" then
    Some (mkOptions (opt_debug o) value (opt_warn o) (opt_error o)
            (opt_verbose o) (opt_timestamp o) (opt_colorize o)
            (opt_logToFile o) (opt_logFile o))
  else if String.eqb key "warn" then
    Some (mkOptions (opt_debug o) (opt_info o) value (opt_error o)
            (opt_verbose o) (opt_timestamp o) (opt_colorize o)
            (opt_logToFile o) (opt_logFile o))
  else if String.eqb key "error" then
    Some (mkOptions (opt_debug o) (opt_info o) (opt_warn o) value
            (opt_verbose o) (opt_timestamp o) (opt_colorize o)
            (opt_logToFile o) (opt_logFile o))
  else if String.eqb key "verbose" then
    Some (mkOptions (opt_debug o) (opt_info o) (opt_warn o) (opt_error o)
            value (opt_timestamp o) (opt_colorize o) (opt_logToFile o)
            (opt_logFile o))
  else if String.eqb key "timestamp" then
    Some (mkOptions (opt_debug o) (opt_info o) (opt_warn o) (opt_error o)
            (opt_verbose o) value (opt_colorize o) (opt_logToFile o)
            (opt_logFile o))
  else if String.eqb key "colorize" then
    Some (mkOptions (opt_debug o) (opt_info o) (opt_warn o) (opt_error o)
            (opt_verbose o) (opt_timestamp o) value (opt_logToFile o)
            (opt_logFile o))
  else if String.eqb key "logToFile" then
    Some (mkOptions (opt_debug o) (opt_info o) (opt_warn o) (opt_error o)
            (opt_verbose o) (opt_timestamp o) (opt_colorize o) value
            (opt_logFile o))
  else if String.eqb key "logFile" then None
  else Some o.




(** [process.env.NAME === 'true'] *)
Definition isTrue (x : option string) : bool :=
  match x with
  | Some s => String.eqb s "true"
  | None => false
  end.

Definition createLogger (prefix : string) (given : Given) : Logger :=
  new prefix given.

Definition createFromEnv (env : string -> option string) (prefix : string)
    (additionalOptions : Given) : Logger :=
  let options :=
    spread
      (mkGiven (Some (isTrue (env "DEBUG"))) (Some (negb (isTrue (env "QUIET"))))
         (Some true) (Some true) (Some (isTrue (env "VERBOSE"))) None None
         (Some (isTrue (env "LOG_TO_FILE")))
         (Some (orDefault (env "LOG_FILE") "tcp-bridge.log")))
      additionalOptions in
  new prefix options.

(** The logger of [tcp-server.js] and of [tcp-client.js], under their
    names [TCP-SERVER] and [TCP-CLIENT]. *)
Definition programLogger (env : string -> option string) (name : string)
  : Logger :=
  createLogger name
    (mkGiven (Some (isTrue (env "DEBUG"))) (Some (negb (isTrue (env "QUIET"))))
       (Some true) (Some true) (Some (isTrue (env "VERBOSE"))) None None None
       None).

(** An environment for the worked instances: [QUIET=true VERBOSE=true]. *)
Definition envQuietVerbose (name : string) : option string :=
  if String.eqb name "QUIET" then Some "true"
  else if String.eqb name "VERBOSE" then Some "true"
  else None.

Definition noOutput : Output := mkOutput [] [] [].

End Logger.

(** * Properties *)

(** ** Bytes, hexadecimal and decimal strings *)

Module JsFacts.
Import Js.

Lemma b2z_range (b : byte) : 0 <= b2z b <= 255.
Proof.
  unfold b2z. pose proof (Byte.to_N_bounded b). lia.
Qed.

Lemma z2b_b2z (b : byte) : z2b (b2z b) = b.
Proof.
  unfold z2b. pose proof (b2z_range b) as R.
  rewrite Z.mod_small by lia. unfold b2z.
  rewrite N2Z.id, Byte.of_to_N. reflexivity.
Qed.

Lemma b2z_z2b (z : Z) : b2z (z2b z) = z mod 256.
Proof.
  unfold z2b, b2z.
  pose proof (Z.mod_pos_bound z 256 ltac:(lia)) as R.
  destruct (Byte.of_N (Z.to_N (z mod 256))) as [b|] eqn:E.
  - apply Byte.to_of_N in E. rewrite E. rewrite Z2N.id; lia.
  - apply Byte.of_N_None_iff in E. lia.
Qed.

Lemma b2z_z2b_small (z : Z) : 0 <= z <= 255 -> b2z (z2b z) = z.
Proof.
  intros H. rewrite b2z_z2b. apply Z.mod_small. lia.
Qed.

Lemma z2b_zero : z2b 0 = x00.
Proof. reflexivity. Qed.

Lemma fromHex_toHex (buf : list byte) : fromHex (toHex buf) = buf.
Proof.
  induction buf as [|b r IH]; [reflexivity|].
  cbn [toHex fromHex]. rewrite IH.
  replace (unhex (hexDigit (b2z b / 16))) with (Some (b2z b / 16))
    by (destruct b; reflexivity).
  replace (unhex (hexDigit (b2z b mod 16))) with (Some (b2z b mod 16))
    by (destruct b; reflexivity).
  f_equal. rewrite <- (z2b_b2z b) at 3. f_equal.
  pose proof (Z.div_mod (b2z b) 16). lia.
Qed.

Lemma length_toHex (buf : list byte) :
  String.length (toHex buf) = (2 * List.length buf)%nat.
Proof.
  induction buf as [|b r IH]; [reflexivity|].
  cbn [toHex String.length List.length]. rewrite IH. lia.
Qed.

Lemma toHex_app (a b : list byte) : toHex (a ++ b) = (toHex a ++ toHex b)%string.
Proof.
  induction a as [|x a IH]; [reflexivity|].
  cbn [toHex app String.append]. now rewrite IH.
Qed.

Lemma removeHyphens_app (a b : string) :
  removeHyphens (a ++ b) = (removeHyphens a ++ removeHyphens b)%string.
Proof.
  induction a as [|c a IH]; [reflexivity|].
  cbn [String.append removeHyphens]. destruct (isHyphen c); cbn; now rewrite IH.
Qed.

Lemma removeHyphens_toHex (buf : list byte) :
  removeHyphens (toHex buf) = toHex buf.
Proof.
  induction buf as [|b r IH]; [reflexivity|].
  cbn [toHex removeHyphens]. rewrite IH.
  replace (isHyphen (hexDigit (b2z b / 16))) with false
    by (destruct b; reflexivity).
  replace (isHyphen (hexDigit (b2z b mod 16))) with false
    by (destruct b; reflexivity).
  reflexivity.
Qed.

Lemma includesHyphen_toHex (buf : list byte) : includesHyphen (toHex buf) = false.
Proof.
  induction buf as [|b r IH]; [reflexivity|].
  cbn [toHex includesHyphen]. rewrite IH.
  replace (isHyphen (hexDigit (b2z b / 16))) with false
    by (destruct b; reflexivity).
  replace (isHyphen (hexDigit (b2z b mod 16))) with false
    by (destruct b; reflexivity).
  reflexivity.
Qed.

Lemma removeHyphens_group (l : list byte) (s : string) :
  removeHyphens (toHex l ++ String (chr 45) s)
  = (toHex l ++ removeHyphens s)%string.
Proof.
  rewrite removeHyphens_app, removeHyphens_toHex. reflexivity.
Qed.

Lemma removeHyphens_groups (a b c d e : list byte) :
  removeHyphens
    (toHex a ++ String (chr 45) (toHex b ++ String (chr 45) (toHex c ++
       String (chr 45) (toHex d ++ String (chr 45) (toHex e)))))
  = toHex (a ++ b ++ c ++ d ++ e).
Proof.
  rewrite !removeHyphens_group, removeHyphens_toHex, !toHex_app.
  reflexivity.
Qed.

(** The id that [crypto.randomUUID()] yields, without its hyphens, is the
    hexadecimal form of the sixteen bytes drawn. *)
Lemma removeHyphens_randomUUID (rnd : list byte) :
  List.length rnd = 16%nat ->
  removeHyphens (randomUUID rnd) = toHex rnd.
Proof.
  intros L.
  do 16 (destruct rnd as [|? rnd]; [discriminate L|]).
  destruct rnd; [|discriminate L].
  unfold randomUUID. cbv beta.
  rewrite removeHyphens_groups. reflexivity.
Qed.

Lemma parseInt_byteToString (b : byte) : parseInt (byteToString b) = Some (b2z b).
Proof. destruct b; reflexivity. Qed.

End JsFacts.

Module SplitFacts.
Import Js JsFacts.

Lemma noDot_byteToString (b : byte) : noDot (byteToString b) = true.
Proof. destruct b; reflexivity. Qed.

Lemma byteToString_cons (b : byte) :
  exists c r, byteToString b = String c r.
Proof.
  unfold byteToString.
  destruct (b2z b <? 10); [|destruct (b2z b <? 100)]; eauto.
Qed.

Lemma splitDots_noDot (s : string) : noDot s = true -> splitDots s = [s].
Proof.
  induction s as [|c r IH]; [reflexivity|].
  cbn [noDot splitDots]. intros H. apply andb_true_iff in H as [Hc Hr].
  apply negb_true_iff in Hc. rewrite Hc, (IH Hr). reflexivity.
Qed.

Lemma splitDots_app (s t : string) :
  noDot s = true ->
  splitDots (s ++ String (chr 46) t) = s :: splitDots t.
Proof.
  induction s as [|c r IH]; [reflexivity|].
  cbn [noDot String.append splitDots]. intros H.
  apply andb_true_iff in H as [Hc Hr].
  apply negb_true_iff in Hc. rewrite Hc, (IH Hr). reflexivity.
Qed.

Lemma splitDots_joinDots (parts : list string) :
  parts <> [] ->
  Forall (fun p => noDot p = true) parts ->
  splitDots (joinDots parts) = parts.
Proof.
  induction parts as [|p r IH]; [congruence|].
  intros _ H. inversion H as [|? ? Hp Hr]; subst.
  destruct r as [|q r'].
  - cbn [joinDots]. now apply splitDots_noDot.
  - change (joinDots (p :: q :: r'))
      with (p ++ String (chr 46) (joinDots (q :: r')))%string.
    rewrite splitDots_app by assumption.
    rewrite IH; [reflexivity|congruence|assumption].
Qed.

End SplitFacts.

(** ** [createPacket] writes the wire format *)

Module CodecFacts.
Import Js JsFacts SplitFacts Codec Wire.

Lemma skipn_repeat {A} (x : A) (k n : nat) :
  skipn k (repeat x n) = repeat x (n - k).
Proof.
  revert n; induction k as [|k IH]; intros n.
  - now rewrite Nat.sub_0_r.
  - destruct n; [reflexivity|]. cbn. apply IH.
Qed.

Lemma pad_length (n : nat) (src : list byte) :
  (List.length src <= n)%nat -> List.length (pad n src) = n.
Proof.
  intros H. unfold pad. rewrite length_app, repeat_length. lia.
Qed.

Lemma copy_field (src pre field post : list byte) (off : nat) :
  off = List.length pre ->
  (List.length src <= List.length field)%nat ->
  copy src (pre ++ field ++ post) off
  = pre ++ (src ++ skipn (List.length src) field) ++ post.
Proof.
  intros -> H. unfold copy.
  rewrite !length_app.
  replace (Nat.min (List.length src)
             (List.length pre + (List.length field + List.length post)
              - List.length pre))
    with (List.length src) by lia.
  rewrite firstn_app, Nat.sub_diag, firstn_all, firstn_O, app_nil_r.
  rewrite firstn_all.
  rewrite skipn_app, skipn_all2 by lia.
  replace (List.length pre + List.length src - List.length pre)%nat
    with (List.length src) by lia.
  rewrite skipn_app.
  replace (List.length src - List.length field)%nat with 0%nat by lia.
  rewrite skipn_O, <- app_assoc. reflexivity.
Qed.

Lemma copy_pad (src pre post : list byte) (n off : nat) :
  off = List.length pre ->
  (List.length src <= n)%nat ->
  copy src (pre ++ alloc n ++ post) off = pre ++ pad n src ++ post.
Proof.
  intros Hoff H. rewrite copy_field; [|assumption|unfold alloc; now rewrite repeat_length].
  unfold alloc, pad. now rewrite skipn_repeat.
Qed.

Lemma pad_full (n : nat) (src : list byte) :
  List.length src = n -> pad n src = src.
Proof.
  intros H. unfold pad. rewrite H, Nat.sub_diag. apply app_nil_r.
Qed.

Lemma length_ipBuffer (host : string) : (List.length (ipBuffer host) <= 4)%nat.
Proof.
  unfold ipBuffer. destruct host.
  - cbn. lia.
  - rewrite length_map, length_firstn. lia.
Qed.

Lemma length_alloc (n : nat) : List.length (alloc n) = n.
Proof. apply repeat_length. Qed.

(** Discharges the bounds test of a [writeUInt*] call. *)
Ltac bounds_ok :=
  match goal with
  | |- context [(?a <=? ?b)%nat] =>
      replace (a <=? b)%nat with true
        by (symmetry; apply Nat.leb_le;
            repeat rewrite ?length_app, ?length_alloc, ?pad_length by lia;
            cbn [List.length]; lia)
  end.

(** The packet that [createPacket] returns, field by field. *)
Lemma createPacket_layout cmd cid data host port uuid :
  0 <= cmd <= 255 ->
  0 <= port <= 65535 ->
  Z.of_nat (List.length data) <= maxDataLength ->
  (List.length (clientIdBuffer cid uuid) <= 16)%nat ->
  createPacket cmd cid data host port uuid
  = Some (frameBytes cmd (clientIdBuffer cid uuid) (ipBuffer host) port data).
Proof.
  intros Hc Hp Hd Hid. unfold maxDataLength in Hd.
  pose proof (length_ipBuffer host) as Hip.
  unfold createPacket, frameBytes.
  set (idb := clientIdBuffer cid uuid) in *.
  set (ipb := ipBuffer host) in *.
  set (n := List.length data) in *.
  replace (alloc (1 + 16 + 4 + 2 + 4 + n))
    with ([] ++ alloc 1 ++ (alloc 16 ++ alloc 4 ++ alloc 2 ++ alloc 4 ++ alloc n))
    by (unfold alloc; rewrite <- !repeat_app; reflexivity).
  unfold writeUInt8.
  replace ((0 <=? cmd) && (cmd <=? 255)) with true
    by (symmetry; apply andb_true_iff; lia).
  bounds_ok. cbn [andb bind].
  rewrite copy_pad with (n := 1%nat) by (cbn; lia).
  rewrite pad_full by reflexivity. rewrite app_nil_l.
  rewrite copy_pad by (cbn; lia).
  replace ([z2b cmd] ++ pad 16 idb ++ alloc 4 ++ alloc 2 ++ alloc 4 ++ alloc n)
    with (([z2b cmd] ++ pad 16 idb) ++ alloc 4 ++ (alloc 2 ++ alloc 4 ++ alloc n))
    by (now rewrite <- !app_assoc).
  rewrite copy_pad
    by (try rewrite length_app, pad_length; cbn [List.length]; lia).
  unfold writeUInt16BE.
  replace ((0 <=? port) && (port <=? 65535)) with true
    by (symmetry; apply andb_true_iff; lia).
  bounds_ok. cbn [andb bind].
  set (h21 := ([z2b cmd] ++ pad 16 idb) ++ pad 4 ipb).
  assert (L21 : List.length h21 = 21%nat)
    by (unfold h21; rewrite !length_app, !pad_length by lia; reflexivity).
  replace (([z2b cmd] ++ pad 16 idb) ++ pad 4 ipb ++ alloc 2 ++ alloc 4 ++ alloc n)
    with (h21 ++ alloc 2 ++ (alloc 4 ++ alloc n))
    by (unfold h21; now rewrite <- !app_assoc).
  rewrite copy_pad with (n := 2%nat) by (try rewrite L21; cbn; lia).
  rewrite pad_full by reflexivity.
  unfold writeUInt32BE.
  replace ((0 <=? Z.of_nat n) && (Z.of_nat n <=? 4294967295)) with true
    by (symmetry; apply andb_true_iff; lia).
  set (h23 := h21 ++ [z2b (port / 256); z2b port]).
  assert (L23 : List.length h23 = 23%nat)
    by (unfold h23; rewrite length_app, L21; reflexivity).
  replace (h21 ++ [z2b (port / 256); z2b port] ++ alloc 4 ++ alloc n)
    with (h23 ++ alloc 4 ++ alloc n)
    by (unfold h23; now rewrite <- !app_assoc).
  replace ((0 + 1 + 16 + 4 + 2 + 4 <=? List.length (h23 ++ alloc 4 ++ alloc n))%nat)
    with true
    by (symmetry; apply Nat.leb_le; rewrite length_app, L23; cbn; lia).
  cbn [andb bind].
  rewrite copy_pad with (n := 4%nat) by (try rewrite L23; cbn; lia).
  rewrite pad_full by reflexivity.
  set (len := [z2b (Z.of_nat n / 16777216); z2b (Z.of_nat n / 65536);
               z2b (Z.of_nat n / 256); z2b (Z.of_nat n)]).
  replace (h23 ++ len ++ alloc n) with ((h23 ++ len) ++ alloc n ++ [])
    by (now rewrite <- !app_assoc, app_nil_r).
  rewrite copy_pad by (try rewrite length_app, L23; cbn; lia).
  rewrite pad_full by reflexivity.
  unfold h23, h21, len, u16be, u32be. rewrite app_nil_r, <- !app_assoc.
  reflexivity.
Qed.

Lemma nth0_copy (src target : list byte) (off : nat) :
  (1 <= off)%nat -> nth 0 (copy src target off) x00 = nth 0 target x00.
Proof.
  intros H. unfold copy. destruct target as [|t r].
  - rewrite firstn_nil. cbn [List.length Nat.sub]. rewrite Nat.min_0_r.
    rewrite firstn_O, skipn_nil. reflexivity.
  - destruct off; [lia|]. reflexivity.
Qed.

(** [createPacket] returns a packet only for a cmd, a port and a payload
    length that fit their fields, and the first byte is the cmd. *)
Lemma createPacket_some cmd cid data host port uuid packet :
  createPacket cmd cid data host port uuid = Some packet ->
  0 <= cmd <= 255 /\ 0 <= port <= 65535
  /\ Z.of_nat (List.length data) <= maxDataLength
  /\ frameCmd packet = cmd.
Proof.
  unfold createPacket, writeUInt8, writeUInt16BE, writeUInt32BE, maxDataLength.
  destruct ((0 <=? cmd) && (cmd <=? 255)) eqn:Ec; [|discriminate].
  cbn [andb]. 
  match goal with |- context [if ?b then _ else _] => destruct b; [|discriminate] end.
  cbn [bind].
  destruct ((0 <=? port) && (port <=? 65535)) eqn:Ep; [|discriminate].
  cbn [andb].
  match goal with |- context [if ?b then _ else _] => destruct b; [|discriminate] end.
  cbn [bind].
  destruct ((0 <=? Z.of_nat (List.length data))
            && (Z.of_nat (List.length data) <=? 4294967295)) eqn:Ed; [|discriminate].
  cbn [andb].
  match goal with |- context [if ?b then _ else _] => destruct b; [|discriminate] end.
  cbn [bind]. intros [= <-].
  apply andb_true_iff in Ec, Ep, Ed.
  repeat split; try lia.
  unfold frameCmd, readUInt8.
  rewrite !nth0_copy by (cbn; lia).
  unfold copy. cbn [firstn app nth].
  cbn [List.length alloc repeat Nat.add Nat.sub Nat.min firstn app nth].
  apply b2z_z2b_small. lia.
Qed.

Lemma u16_read (v : Z) :
  0 <= v <= 65535 -> b2z (z2b (v / 256)) * 256 + b2z (z2b v) = v.
Proof.
  intros H. rewrite !b2z_z2b.
  rewrite (Z.mod_small (v / 256)) by (split; [apply Z.div_pos; lia|apply Z.div_lt_upper_bound; lia]).
  pose proof (Z.div_mod v 256). lia.
Qed.

Lemma u32_read (v : Z) :
  0 <= v <= 4294967295 ->
  b2z (z2b (v / 16777216)) * 16777216 + b2z (z2b (v / 65536)) * 65536
  + b2z (z2b (v / 256)) * 256 + b2z (z2b v) = v.
Proof.
  intros H. rewrite !b2z_z2b.
  rewrite (Z.mod_small (v / 16777216))
    by (split; [apply Z.div_pos; lia|apply Z.div_lt_upper_bound; lia]).
  pose proof (Z.div_mod v 256 ltac:(lia)) as E0.
  pose proof (Z.div_mod (v / 256) 256 ltac:(lia)) as E1.
  pose proof (Z.div_mod (v / 256 / 256) 256 ltac:(lia)) as E2.
  rewrite !Z.div_div in E1, E2 by lia. rewrite Z.div_div in E2 by lia.
  change (256 * 256) with 65536 in *. change (65536 * 256) with 16777216 in *.
  lia.
Qed.

(** The framer reads back the fields that the layout holds. *)
Lemma extract_frameBytes c id ip port data rest :
  List.length id = 16%nat ->
  List.length ip = 4%nat ->
  0 <= c <= 255 ->
  0 <= port <= 65535 ->
  Z.of_nat (List.length data) <= maxDataLength ->
  extract (frameBytes c id ip port data ++ rest)
  = Some (mkPacket c (toHex id) (joinDots (map byteToString ip)) port data, rest).
Proof.
  intros Lid Lip Hc Hp Hd. unfold maxDataLength in Hd.
  do 16 (destruct id as [|? id]; [discriminate Lid|]).
  destruct id; [|discriminate Lid].
  do 4 (destruct ip as [|? ip]; [discriminate Lip|]).
  destruct ip; [|discriminate Lip].
  unfold frameBytes, pad, u16be, u32be.
  cbn [List.length Nat.sub repeat app].
  unfold extract.
  cbn [List.length Nat.leb].
  unfold readUInt8, readUInt16BE, readUInt32BE, subarray.
  cbn [nth Nat.add Nat.sub skipn firstn].
  rewrite u32_read by lia. rewrite u16_read by lia.
  rewrite b2z_z2b_small by lia.
  rewrite length_app.
  match goal with
  | |- context [27 + ?a <=? Z.of_nat ?b] =>
      replace (27 + a <=? Z.of_nat b) with true
        by (symmetry; apply Z.leb_le; lia)
  end.
  rewrite Nat2Z.id.
  rewrite Nat.sub_0_r.
  rewrite firstn_app, Nat.sub_diag, firstn_all, firstn_O, app_nil_r.
  rewrite skipn_app, Nat.sub_diag, skipn_all, skipn_O. cbn [app].
  reflexivity.
Qed.

Lemma ipBuffer_dotted (ip : list byte) :
  List.length ip = 4%nat ->
  ipBuffer (joinDots (map byteToString ip)) = ip.
Proof.
  intros L.
  do 4 (destruct ip as [|? ip]; [discriminate L|]).
  destruct ip; [|discriminate L].
  assert (S : splitDots (joinDots (map byteToString [b; b0; b1; b2]))
              = map byteToString [b; b0; b1; b2]).
  { apply splitDots_joinDots; [discriminate|].
    repeat constructor; apply noDot_byteToString. }
  remember (joinDots (map byteToString [b; b0; b1; b2])) as host eqn:E.
  destruct host as [|c r].
  - destruct (byteToString_cons b) as (c & r & Eb).
    cbn [map joinDots] in E. rewrite Eb in E. discriminate E.
  - unfold ipBuffer. rewrite S.
    cbn [map firstn]. rewrite !parseInt_byteToString. cbn [orZero].
    now rewrite !z2b_b2z.
Qed.

Lemma clientIdBuffer_hex (id : list byte) (uuid : string) :
  List.length id = 16%nat ->
  clientIdBuffer (JsStr (toHex id)) uuid = id.
Proof.
  intros L. unfold clientIdBuffer.
  rewrite length_toHex, L. cbn [Nat.mul Nat.add Nat.eqb].
  apply fromHex_toHex.
Qed.

(** [createPacket] on a well-formed frame gives its layout, whatever the
    random generator would return. *)
Lemma encode_wellFormed ceiling p uuid :
  ceiling <= maxDataLength ->
  wellFormed ceiling p ->
  exists id ip,
    List.length id = 16%nat /\ List.length ip = 4%nat
    /\ clientId p = toHex id
    /\ targetHost p = joinDots (map byteToString ip)
    /\ encode p uuid = Some (frameBytes (cmd p) id ip (targetPort p) (data p)).
Proof.
  intros Hceil (Hc & (id & Lid & Eid) & (ip & Lip & Eip) & Hp & Hd).
  exists id, ip. repeat split; try assumption.
  unfold encode. rewrite createPacket_layout; try assumption; try lia.
  - rewrite Eid, Eip, clientIdBuffer_hex, ipBuffer_dotted by assumption.
    reflexivity.
  - rewrite Eid, clientIdBuffer_hex by assumption. lia.
Qed.

(** Decoding the encoding of a well-formed frame gives the frame back and
    leaves what follows it. *)
Lemma extract_encode ceiling p uuid e rest :
  ceiling <= maxDataLength ->
  wellFormed ceiling p ->
  encode p uuid = Some e ->
  extract (e ++ rest) = Some (p, rest).
Proof.
  intros Hceil W E.
  destruct (encode_wellFormed ceiling p uuid Hceil W)
    as (id & ip & Lid & Lip & Eid & Eip & E').
  rewrite E in E'. injection E' as ->.
  destruct W as (Hc & _ & _ & Hp & Hd).
  rewrite extract_frameBytes by (try assumption; lia).
  rewrite <- Eid, <- Eip. destruct p; reflexivity.
Qed.

End CodecFacts.

(** ** The framer *)

Module FramerFacts.
Import Js JsFacts Codec Wire CodecFacts.

Lemma subarray_app (a b : list byte) (start stop : nat) :
  (stop <= List.length a)%nat ->
  subarray (a ++ b) start stop = subarray a start stop.
Proof.
  intros H. unfold subarray.
  rewrite skipn_app, firstn_app, length_skipn.
  replace (stop - start - (List.length a - start))%nat with 0%nat by lia.
  rewrite firstn_O. apply app_nil_r.
Qed.

Lemma nth_app_lt (a b : list byte) (i : nat) :
  (i < List.length a)%nat -> nth i (a ++ b) x00 = nth i a x00.
Proof. intros H. now apply app_nth1. Qed.

(** What [extract] finds in a buffer is still found, with the same
    fields, when more bytes follow. *)
Lemma extract_app (buf more : list byte) p rest :
  extract buf = Some (p, rest) ->
  extract (buf ++ more) = Some (p, rest ++ more).
Proof.
  unfold extract.
  destruct (27 <=? List.length buf)%nat eqn:E27; [|discriminate].
  apply Nat.leb_le in E27.
  assert (R32 : readUInt32BE (buf ++ more) 23 = readUInt32BE buf 23)
    by (unfold readUInt32BE; rewrite !nth_app_lt by lia; reflexivity).
  rewrite R32.
  destruct (27 + readUInt32BE buf 23 <=? Z.of_nat (List.length buf)) eqn:EL;
    [|discriminate].
  apply Z.leb_le in EL.
  assert (0 <= readUInt32BE buf 23)
    by (unfold readUInt32BE;
        pose proof (b2z_range (nth 23 buf x00));
        pose proof (b2z_range (nth (23 + 1) buf x00));
        pose proof (b2z_range (nth (23 + 2) buf x00));
        pose proof (b2z_range (nth (23 + 3) buf x00)); lia).
  intros [= <- <-].
  rewrite length_app.
  replace (27 <=? List.length buf + List.length more)%nat with true
    by (symmetry; apply Nat.leb_le; lia).
  replace (27 + readUInt32BE buf 23
           <=? Z.of_nat (List.length buf + List.length more)) with true
    by (symmetry; apply Z.leb_le; lia).
  rewrite !subarray_app by lia.
  unfold readUInt8, readUInt16BE. rewrite !nth_app_lt by lia.
  rewrite skipn_app.
  replace (27 + Z.to_nat (readUInt32BE buf 23) - List.length buf)%nat
    with 0%nat by lia.
  reflexivity.
Qed.

Lemma extract_prefix_none (buf more : list byte) :
  extract (buf ++ more) = None -> extract buf = None.
Proof.
  intros H. destruct (extract buf) as [[p rest]|] eqn:E; [|reflexivity].
  apply extract_app with (more := more) in E. congruence.
Qed.

(** Every turn of the loop removes at least the 27 bytes of a header. *)
Lemma extract_length (buf : list byte) p rest :
  extract buf = Some (p, rest) ->
  (List.length rest + 27 <= List.length buf)%nat.
Proof.
  unfold extract.
  destruct (27 <=? List.length buf)%nat eqn:E27; [|discriminate].
  destruct (27 + readUInt32BE buf 23 <=? Z.of_nat (List.length buf)) eqn:EL;
    [|discriminate].
  set (k := (27 + Z.to_nat (readUInt32BE buf 23))%nat).
  assert (27 <= k)%nat by (unfold k; lia). clearbody k.
  intros [= <- <-]. apply Nat.leb_le in E27.
  rewrite length_skipn. lia.
Qed.

Lemma transformLoop_none (fuel : nat) (buf : list byte) :
  extract buf = None -> transformLoop fuel buf = Some ([], buf).
Proof. intros H. destruct fuel; cbn; now rewrite H. Qed.

(** The bound on the number of turns is never reached: [_transform]
    always returns, and the buffer it leaves holds no complete frame. *)
Lemma transformLoop_total (fuel : nat) (buf : list byte) :
  (List.length buf <= fuel)%nat ->
  exists ps final,
    transformLoop fuel buf = Some (ps, final) /\ extract final = None.
Proof.
  revert buf. induction fuel as [|fuel IH]; intros buf H.
  - destruct buf; [|cbn in H; lia]. exists [], []. split; reflexivity.
  - destruct (extract buf) as [[p rest]|] eqn:E.
    + pose proof (extract_length _ _ _ E) as L.
      destruct (IH rest ltac:(lia)) as (ps & final & R & N).
      exists (p :: ps), final. cbn. now rewrite E, R.
    + exists [], buf. split; [now apply transformLoop_none|assumption].
Qed.

Lemma _transform_total (buffer chunk : list byte) :
  exists ps final,
    _transform buffer chunk = Some (ps, final) /\ extract final = None.
Proof. unfold _transform. apply transformLoop_total. lia. Qed.

Lemma partialFrame_incomplete ceiling partial :
  ceiling <= maxDataLength ->
  partialFrame ceiling partial -> extract partial = None.
Proof.
  intros Hc (p & uuid & e & rest & W & E & -> & Hrest).
  destruct (extract partial) as [[q r]|] eqn:X; [|reflexivity].
  apply extract_app with (more := rest) in X.
  pose proof (extract_encode ceiling p uuid _ [] Hc W E) as Y.
  rewrite app_nil_r in Y. rewrite X in Y. injection Y as _ Y.
  apply app_eq_nil in Y. destruct Y. contradiction.
Qed.

(** The loop on a buffer that is a prefix of an encoded stream emits the
    frames that are complete in it and leaves the rest of the stream
    aligned on a frame boundary. *)
Lemma transformLoop_stream ceiling partial :
  ceiling <= maxDataLength ->
  partialFrame ceiling partial ->
  forall frames encodings,
    Forall (wellFormed ceiling) frames ->
    encoded frames encodings ->
    forall buf tail fuel,
      buf ++ tail = List.concat encodings ++ partial ->
      (List.length buf <= fuel)%nat ->
      exists fs1 fs2 es2 residual,
        frames = fs1 ++ fs2
        /\ Forall (wellFormed ceiling) fs2
        /\ encoded fs2 es2
        /\ transformLoop fuel buf = Some (fs1, residual)
        /\ extract residual = None
        /\ residual ++ tail = List.concat es2 ++ partial.
Proof.
  intros Hc Hpart frames encodings W E.
  induction E as [|p e frames encodings (uuid & Ee) E IH];
    intros buf tail fuel S L.
  - cbn in S.
    assert (N : extract buf = None).
    { apply extract_prefix_none with (more := tail). rewrite S.
      now apply partialFrame_incomplete with (ceiling := ceiling). }
    exists [], [], [], buf. repeat split; try constructor; try assumption.
    now apply transformLoop_none.
  - inversion W as [|? ? Wp Wf]; subst.
    cbn [List.concat] in S. rewrite <- app_assoc in S.
    assert (Complete : forall l, buf = e ++ l ->
              List.concat encodings ++ partial = l ++ tail ->
              exists fs1 fs2 es2 residual,
                p :: frames = fs1 ++ fs2
                /\ Forall (wellFormed ceiling) fs2
                /\ encoded fs2 es2
                /\ transformLoop fuel buf = Some (fs1, residual)
                /\ extract residual = None
                /\ residual ++ tail = List.concat es2 ++ partial).
    { intros l -> S'.
      pose proof (extract_encode ceiling p uuid e l Hc Wp Ee) as X.
      pose proof (extract_length _ _ _ X) as XL.
      destruct fuel as [|fuel]; [lia|].
      destruct (IH Wf l tail fuel (eq_sym S') ltac:(lia))
        as (fs1 & fs2 & es2 & residual & F & W2 & E2 & T & N & R).
      exists (p :: fs1), fs2, es2, residual.
      repeat split; try assumption.
      - cbn. now rewrite F.
      - cbn. now rewrite X, T. }
    apply app_eq_app in S. destruct S as (l & [[S1 S2]|[S1 S2]]).
    + now apply (Complete l).
    + destruct l as [|x l].
      * rewrite app_nil_r in S1. cbn in S2. subst.
        apply (Complete []); [now rewrite app_nil_r|reflexivity].
      * assert (N : extract buf = None).
        { destruct (extract buf) as [[q r]|] eqn:X; [|reflexivity].
          apply extract_app with (more := x :: l) in X.
          pose proof (extract_encode ceiling p uuid e [] Hc Wp Ee) as Y.
          rewrite app_nil_r, S1, X in Y. injection Y as _ Y.
          apply app_eq_nil in Y. destruct Y. discriminate. }
        exists [], (p :: frames), (e :: encodings), buf.
        repeat split; try assumption.
        -- constructor; [now exists uuid|assumption].
        -- now apply transformLoop_none.
        -- cbn [List.concat]. rewrite <- app_assoc, S1, <- app_assoc. now rewrite S2.
Qed.

Lemma feed_stream ceiling partial :
  ceiling <= maxDataLength ->
  partialFrame ceiling partial ->
  forall chunks frames encodings buffer,
    Forall (wellFormed ceiling) frames ->
    encoded frames encodings ->
    extract buffer = None ->
    buffer ++ List.concat chunks = List.concat encodings ++ partial ->
    feed buffer chunks = Some (frames, partial).
Proof.
  intros Hc Hpart chunks.
  induction chunks as [|chunk chunks IH]; intros frames encodings buffer W E N S.
  - cbn in S. rewrite app_nil_r in S. subst buffer.
    destruct E as [|p e frames encodings (uuid & Ee) E].
    + reflexivity.
    + inversion W; subst. cbn [List.concat] in N. rewrite <- app_assoc in N.
      erewrite extract_encode in N; eauto. discriminate.
  - cbn [List.concat] in S. rewrite app_assoc in S.
    destruct (transformLoop_stream ceiling partial Hc Hpart frames encodings W E
                (buffer ++ chunk) (List.concat chunks)
                (List.length (buffer ++ chunk)) S (Nat.le_refl _))
      as (fs1 & fs2 & es2 & residual & F & W2 & E2 & T & N2 & R).
    cbn [feed]. unfold _transform. rewrite T.
    rewrite (IH fs2 es2 residual W2 E2 N2 R). now rewrite F.
Qed.

End FramerFacts.

(** ** Framing round trip *)

Module RoundTrip.
Import Js JsFacts Codec Wire CodecFacts FramerFacts Samples.

(** C1. Frames whose payload is at most the ceiling (any ceiling that the
    [data_len] field can hold), encoded by [createPacket], concatenated,
    followed by a proper prefix of one more frame and cut into chunks in
    any way, come out of the framer as the same frames in the same order;
    the buffer keeps exactly the trailing partial frame. *)
Theorem framing_round_trip
    (ceiling : Z) (frames : list Packet) (encodings : list (list byte))
    (partial : list byte) (chunks : list (list byte)) :
  ceiling <= maxDataLength ->
  Forall (wellFormed ceiling) frames ->
  encoded frames encodings ->
  partialFrame ceiling partial ->
  List.concat chunks = List.concat encodings ++ partial ->
  feed [] chunks = Some (frames, partial).
Proof.
  intros Hc W E P S.
  apply (feed_stream ceiling partial Hc P chunks frames encodings []);
    try assumption; reflexivity.
Qed.

Lemma wellFormed_frameData : wellFormed 16777216 frameData.
Proof.
  unfold wellFormed.
  split; [vm_compute; split; discriminate|].
  split; [exists id0; split; reflexivity|].
  split; [exists loopback; split; reflexivity|].
  split; vm_compute; try split; discriminate.
Defined.

Lemma wellFormed_frameDisconnect : wellFormed 16777216 frameDisconnect.
Proof.
  unfold wellFormed.
  split; [vm_compute; split; discriminate|].
  split; [exists id0; split; reflexivity|].
  split; [exists loopback; split; reflexivity|].
  split; vm_compute; try split; discriminate.
Defined.

(** A Data frame, an empty Disconnect frame and the first three bytes of
    another frame, delivered in chunks of 1, 30, 0 and 28 bytes. *)
Lemma framing_round_trip_witness :
  feed []
    [firstn 1 (bytesOf frameData);
     skipn 1 (bytesOf frameData) ++ firstn 2 (bytesOf frameDisconnect);
     [];
     skipn 2 (bytesOf frameDisconnect) ++ firstn 3 (bytesOf frameData)]
  = Some ([frameData; frameDisconnect], firstn 3 (bytesOf frameData)).
Proof.
  apply (framing_round_trip 16777216 [frameData; frameDisconnect]
           [bytesOf frameData; bytesOf frameDisconnect]).
  - unfold maxDataLength. lia.
  - constructor; [apply wellFormed_frameData|].
    constructor; [apply wellFormed_frameDisconnect|constructor].
  - repeat constructor; exists EmptyString; reflexivity.
  - exists frameData, EmptyString, (bytesOf frameData),
      (skipn 3 (bytesOf frameData)).
    split; [apply wellFormed_frameData|].
    split; [reflexivity|].
    split; [reflexivity|vm_compute; discriminate].
  - reflexivity.
Defined.

End RoundTrip.

(** ** Target hosts that are not dotted quads, and session ids that are
       not ids *)

Module FieldFacts.
Import Js JsFacts Codec Wire CodecFacts FramerFacts Samples.

Lemma nth_ipBuffer (host : string) (i : nat) :
  (i < 4)%nat -> octetUnparseable host i ->
  nth i (pad 4 (ipBuffer host)) x00 = x00.
Proof.
  intros Hi U. unfold pad.
  destruct (Nat.lt_ge_cases i (List.length (ipBuffer host))) as [In|Out].
  - rewrite app_nth1 by assumption.
    unfold ipBuffer in *. destruct host as [|c r].
    + apply nth_repeat.
    + change x00 with (z2b 0). rewrite map_nth.
      rewrite nth_firstn.
      replace (i <? 4)%nat with true by (symmetry; apply Nat.ltb_lt; lia).
      change 0 with (orZero (parseInt EmptyString)) at 1.
      rewrite (map_nth (fun part => orZero (parseInt part))).
      unfold octetUnparseable in U.
      destruct (nth_error (splitDots (String c r)) i) as [part|] eqn:E.
      * rewrite (nth_error_nth _ _ _ E), U. reflexivity.
      * apply nth_error_None in E. rewrite nth_overflow by assumption.
        reflexivity.
  - rewrite app_nth2 by assumption. apply nth_repeat.
Qed.

Lemma frameBytes_ip_nth cmd id ip port data (i : nat) :
  (List.length id <= 16)%nat -> (i < 4)%nat -> (List.length ip <= 4)%nat ->
  nth (17 + i) (frameBytes cmd id ip port data) x00 = nth i (pad 4 ip) x00.
Proof.
  intros Lid Hi Lip. unfold frameBytes.
  rewrite app_nth2 by (cbn; lia).
  rewrite app_nth2 by (rewrite pad_length by assumption; cbn; lia).
  rewrite app_nth1 by (rewrite !pad_length by assumption; cbn; lia).
  rewrite pad_length by assumption. f_equal. cbn. lia.
Qed.

Lemma frameBytes_pad cmd id ip port data :
  (List.length id <= 16)%nat -> (List.length ip <= 4)%nat ->
  frameBytes cmd id ip port data
  = frameBytes cmd (pad 16 id) (pad 4 ip) port data.
Proof.
  intros Lid Lip. unfold frameBytes.
  rewrite (pad_full 16 (pad 16 id)) by now apply pad_length.
  rewrite (pad_full 4 (pad 4 ip)) by now apply pad_length.
  reflexivity.
Qed.

Lemma all_zero_4 (l : list byte) :
  List.length l = 4%nat ->
  (forall i, (i < 4)%nat -> nth i l x00 = x00) ->
  l = [x00; x00; x00; x00].
Proof.
  intros L H.
  do 4 (destruct l as [|? l]; [discriminate L|]).
  destruct l; [|discriminate L].
  pose proof (H 0%nat ltac:(lia)) as H0. pose proof (H 1%nat ltac:(lia)) as H1.
  pose proof (H 2%nat ltac:(lia)) as H2. pose proof (H 3%nat ltac:(lia)) as H3.
  cbn in H0, H1, H2, H3. now subst.
Qed.

Lemma nth_ipBuffer_num (host : string) (i : nat) (part : string) (v : Z) :
  (i < 4)%nat ->
  nth_error (splitDots host) i = Some part ->
  parseInt part = Some v ->
  nth i (pad 4 (ipBuffer host)) x00 = z2b v.
Proof.
  intros Hi Np Pv. unfold pad, ipBuffer. destruct host as [|c r].
  - cbn in Np. destruct i; [|destruct i; discriminate].
    injection Np as <-. discriminate Pv.
  - set (parts := splitDots (String c r)) in *.
    assert (Li : (i < List.length parts)%nat)
      by (apply nth_error_Some; congruence).
    rewrite app_nth1
      by (rewrite length_map, length_firstn, length_map; lia).
    change x00 with (z2b 0). rewrite map_nth, nth_firstn.
    replace (i <? 4)%nat with true by (symmetry; apply Nat.ltb_lt; lia).
    change 0 with (orZero (parseInt EmptyString)) at 1.
    rewrite (map_nth (fun part => orZero (parseInt part))).
    now rewrite (nth_error_nth _ _ _ Np), Pv.
Qed.

(** C9, the statement as first written.  It holds for the ids that fit
    their field only: a hyphenated id of more than 32 hexadecimal digits
    gives more than sixteen bytes, [clientIdBuffer.copy] runs over the
    first octets of the target ip, and the one byte that [ipBuffer] has
    for ['localhost'] restores the first octet only.  The second octet,
    whose part of the host is missing, is then 2, and the peer decodes
    the host as 0.2.0.0. *)
Lemma long_id_spills_into_ip_counterexample :
  exists packet p,
    createPacket CMD_DATA (JsStr "00112233445566778899aabbccddeeff-0102")
      [] "localhost" 22 EmptyString = Some packet
    /\ octetUnparseable "localhost" 1
    /\ nth (17 + 1) packet x00 = x02
    /\ extract packet = Some (p, [])
    /\ targetHost p = "0.2.0.0"%string.
Proof.
  eexists. eexists. split; [vm_compute; reflexivity|].
  split; [reflexivity|]. split; [reflexivity|].
  split; [vm_compute; reflexivity|reflexivity].
Qed.

(** C9, as amended.  For a session id that fits its 16-byte field, and
    whatever [targetHost] is: the four octets of the target ip in the
    packet are those of [ipBuffer], filled with zero bytes; an octet
    whose part of the host is missing or is not a number for [parseInt]
    is a zero byte, an octet whose part is a number holds that number
    modulo 256; the framer of the peer decodes the packet to the cmd, the
    id, the port and the payload given and to the dotted form of these
    four octets, which is 0.0.0.0 when no part is a number, as for a
    host name; and the egress, when the packet is a Data frame for an
    id it does not know, dials that dotted address, not the host
    given. *)
Theorem non_ipv4_host_is_zeroed
    cmd cid data host port uuid packet :
  (List.length (clientIdBuffer cid uuid) <= 16)%nat ->
  createPacket cmd cid data host port uuid = Some packet ->
  let octets := pad 4 (ipBuffer host) in
  let p := mkPacket cmd (toHex (pad 16 (clientIdBuffer cid uuid)))
             (joinDots (map byteToString octets)) port data in
  (forall i, (i < 4)%nat -> nth (17 + i) packet x00 = nth i octets x00)
  /\ (forall i, (i < 4)%nat -> octetUnparseable host i ->
                nth (17 + i) packet x00 = x00)
  /\ (forall i part v,
        (i < 4)%nat -> nth_error (splitDots host) i = Some part ->
        parseInt part = Some v ->
        nth (17 + i) packet x00 = z2b v)
  /\ extract packet = Some (p, [])
  /\ ((forall i, (i < 4)%nat -> octetUnparseable host i) ->
      targetHost p = "0.0.0.0"%string)
  /\ (cmd = CMD_DATA ->
      forall st,
        mapGet (Egress.clients st) (JsStr (clientId p)) = None ->
        Egress.sockets (Egress.handlePacket st p)
        = Egress.sockets st
          ++ [Egress.mkSocket (clientId p) (targetHost p) port data
                false false false false []]).
Proof.
  intros Lid C octets p.
  destruct (createPacket_some _ _ _ _ _ _ _ C) as (Hc & Hp & Hd & _).
  rewrite createPacket_layout in C by assumption. injection C as <-.
  pose proof (length_ipBuffer host) as Lip.
  assert (B : forall i, (i < 4)%nat ->
                nth (17 + i)
                  (frameBytes cmd (clientIdBuffer cid uuid) (ipBuffer host)
                     port data) x00
                = nth i octets x00)
    by (intros i Hi; now apply frameBytes_ip_nth).
  split; [exact B|]. split; [|split; [|split; [|split]]].
  - intros i Hi U. rewrite B by exact Hi. now apply nth_ipBuffer.
  - intros i part v Hi Np Pv. rewrite B by exact Hi.
    now apply (nth_ipBuffer_num host i part v).
  - rewrite frameBytes_pad by assumption.
    rewrite <- (app_nil_r (frameBytes _ _ _ _ _)).
    apply extract_frameBytes; try assumption; now apply pad_length.
  - intros U.
    assert (Z4 : octets = [x00; x00; x00; x00]).
    { apply all_zero_4; [now apply pad_length|].
      intros i Hi. apply nth_ipBuffer; auto. }
    cbn [targetHost p]. now rewrite Z4.
  - intros Ecmd st Hnone. unfold Egress.handlePacket.
    cbn [Codec.cmd Codec.clientId Codec.targetHost Codec.targetPort
           Codec.data p] in *.
    rewrite Ecmd. cbn [Z.eqb CMD_DATA Pos.eqb]. now rewrite Hnone.
Qed.

(** The fallback mapping of [loadPortMappings] sends to ['localhost']:
    the frame carries 0.0.0.0 and the egress dials 0.0.0.0, port 22,
    with the payload.  A host with one part that is not a number is
    zeroed in that part only. *)
Lemma non_ipv4_host_is_zeroed_witness :
  (exists packet p,
      createPacket CMD_DATA (JsStr (toHex id0)) [x68; x69]
        "localhost" 22 EmptyString = Some packet
      /\ extract packet = Some (p, [])
      /\ targetHost p = "0.0.0.0"%string
      /\ Egress.sockets (Egress.handlePacket (Egress.init rngConst) p)
         = [Egress.mkSocket (toHex id0) "0.0.0.0" 22 [x68; x69]
              false false false false []])
  /\ (exists packet p,
        createPacket CMD_DATA (JsStr (toHex id0)) []
          "10.x.7.300" 80 EmptyString = Some packet
        /\ extract packet = Some (p, [])
        /\ targetHost p = "10.0.7.44"%string).
Proof.
  split.
  - eexists. eexists. split; [reflexivity|].
    match goal with
    | |- extract ?pk = _ /\ _ =>
        pose proof (non_ipv4_host_is_zeroed CMD_DATA (JsStr (toHex id0))
                      [x68; x69] "localhost" 22 EmptyString pk
                      ltac:(vm_compute; lia) eq_refl)
          as (_ & _ & _ & E & Z & D)
    end.
    split; [exact E|]. split.
    + apply Z. intros i Hi. unfold octetUnparseable.
      do 4 (destruct i as [|i]; [reflexivity|]). lia.
    + exact (D eq_refl (Egress.init rngConst) eq_refl).
  - eexists. eexists. split; [reflexivity|].
    match goal with
    | |- extract ?pk = _ /\ _ =>
        pose proof (non_ipv4_host_is_zeroed CMD_DATA (JsStr (toHex id0))
                      [] "10.x.7.300" 80 EmptyString pk
                      ltac:(vm_compute; lia) eq_refl)
          as (_ & _ & _ & E & _)
    end.
    split; [exact E|reflexivity].
Defined.


(** C10, as amended. An argument that is not a string, or a string
    whose length is not 32 and that has no hyphen, never makes
    [createPacket] fail: with a cmd, a port and a payload that fit their
    fields it returns a frame, and the frame carries the id drawn from the
    random generator, not the one the caller gave. *)
Theorem random_id_substitution
    cmd cid data host port (rnd : list byte) :
  List.length rnd = 16%nat ->
  (forall s, cid = JsStr s ->
             String.length s <> 32%nat /\ includesHyphen s = false) ->
  0 <= cmd <= 255 ->
  0 <= port <= 65535 ->
  Z.of_nat (List.length data) <= maxDataLength ->
  exists packet,
    createPacket cmd cid data host port (randomUUID rnd) = Some packet
    /\ subarray packet 1 17 = rnd
    /\ exists p, extract packet = Some (p, []) /\ clientId p = toHex rnd.
Proof.
  intros L Hcid Hc Hp Hd.
  assert (B : clientIdBuffer cid (randomUUID rnd) = rnd).
  { unfold clientIdBuffer.
    rewrite (removeHyphens_randomUUID rnd L), fromHex_toHex.
    destruct cid as [s| | |]; try reflexivity.
    destruct (Hcid s eq_refl) as [N H].
    apply Nat.eqb_neq in N. now rewrite N, H. }
  pose proof (length_ipBuffer host) as Lip.
  exists (frameBytes cmd rnd (ipBuffer host) port data).
  split; [rewrite createPacket_layout, B by (try rewrite B; try assumption; lia);
          reflexivity|].
  split.
  - unfold frameBytes, subarray. rewrite pad_full by assumption.
    cbn [app skipn Nat.sub]. rewrite firstn_app, L, Nat.sub_diag, firstn_O.
    rewrite <- L, firstn_all. apply app_nil_r.
  - rewrite frameBytes_pad by lia.
    rewrite <- (app_nil_r (frameBytes _ _ _ _ _)).
    rewrite extract_frameBytes
      by (try apply pad_length; try assumption; lia).
    eexists. split; [reflexivity|]. cbn [clientId].
    now rewrite pad_full.
Qed.

Lemma random_id_substitution_witness :
  exists packet,
    createPacket CMD_DISCONNECT (JsStr "client7"%string) [] "10.0.0.7" 80
      (randomUUID id1) = Some packet
    /\ subarray packet 1 17 = id1.
Proof.
  destruct (random_id_substitution CMD_DISCONNECT (JsStr "client7"%string) []
              "10.0.0.7" 80 id1 eq_refl) as (packet & C & S & _).
  - intros s E. injection E as <-. split; [discriminate|reflexivity].
  - vm_compute. split; discriminate.
  - lia.
  - vm_compute. discriminate.
  - exists packet. split; [exact C|exact S].
Defined.


(** C10, the statement as first written. A string of 32 characters that
    are not hexadecimal digits is neither a 32-character hex string nor
    a string with a hyphen, yet [createPacket] takes the first branch:
    nothing decodes, the id field stays zero and the generator is not
    asked. *)
Lemma silent_substitution_counterexample :
  isHex32 notHex32 = false
  /\ includesHyphen notHex32 = false
  /\ exists packet,
       createPacket CMD_DATA (JsStr notHex32) [x68] "10.0.0.7" 80
         (randomUUID id1) = Some packet
       /\ subarray packet 1 17 = alloc 16
       /\ subarray packet 1 17 <> id1.
Proof.
  split; [reflexivity|]. split; [reflexivity|].
  eexists. split; [reflexivity|]. split; [reflexivity|].
  vm_compute. discriminate.
Qed.

End FieldFacts.

(** ** Maps, socket tables and the success of [createPacket] *)

Module StoreFacts.
Import Js JsFacts Codec Wire CodecFacts FramerFacts.

Lemma sameValueZero_str (k : JsValue) (s : string) :
  sameValueZero k (JsStr s) = true -> k = JsStr s.
Proof.
  destruct k; cbn; try discriminate.
  intros H. apply String.eqb_eq in H. now subst.
Qed.

Lemma sameValueZero_refl_str (s : string) :
  sameValueZero (JsStr s) (JsStr s) = true.
Proof. cbn. apply String.eqb_refl. Qed.

Lemma sameValueZero_str_neq (s t : string) :
  s <> t -> sameValueZero (JsStr s) (JsStr t) = false.
Proof. intros H. cbn. now apply String.eqb_neq. Qed.

Lemma mapGet_In {V} (m : Map V) (k : JsValue) (v : V) :
  mapGet m k = Some v ->
  exists k', In (k', v) m /\ sameValueZero k' k = true.
Proof.
  induction m as [|[a w] r IH]; [discriminate|].
  cbn. destruct (sameValueZero a k) eqn:E.
  - intros [= ->]. exists a. auto.
  - intros H. destruct (IH H) as (k' & I & S). exists k'. auto.
Qed.

Lemma mapDelete_In {V} (m : Map V) (k : JsValue) (e : JsValue * V) :
  In e (mapDelete m k) -> In e m.
Proof. unfold mapDelete. intros H. now apply filter_In in H. Qed.

(** After [delete(k)] the key is gone. *)
Lemma mapGet_mapDelete_same {V} (m : Map V) (k : JsValue) :
  mapGet (mapDelete m k) k = None.
Proof.
  induction m as [|[a w] r IH]; [reflexivity|].
  unfold mapDelete in *. cbn.
  destruct (sameValueZero a k) eqn:E; cbn; [assumption|].
  now rewrite E.
Qed.

Lemma mapGet_mapDelete_other {V} (m : Map V) (s t : string) :
  s <> t ->
  mapGet (mapDelete m (JsStr t)) (JsStr s) = mapGet m (JsStr s).
Proof.
  intros N. induction m as [|[a w] r IH]; [reflexivity|].
  unfold mapDelete in *. cbn.
  destruct (sameValueZero a (JsStr t)) eqn:E; cbn.
  - apply sameValueZero_str in E. subst a.
    rewrite sameValueZero_str_neq by congruence. assumption.
  - destruct (sameValueZero a (JsStr s)); [reflexivity|assumption].
Qed.


Lemma mapSet_In {V} (m : Map V) (k : JsValue) (v : V) (e : JsValue * V) :
  In e (mapSet m k v) ->
  In e m \/ (snd e = v /\ sameValueZero (fst e) k = true) \/ e = (k, v).
Proof.
  induction m as [|[a w] r IH].
  - cbn. intros [<-|[]]. auto.
  - cbn. destruct (sameValueZero a k) eqn:E.
    + intros [<-|I]; [right; left; auto|left; right; assumption].
    + intros [<-|I]; [left; left; reflexivity|].
      destruct (IH I) as [?|?]; [left; right; assumption|auto].
Qed.


Lemma length_updateAt {A} (l : list A) (i : nat) (f : A -> A) :
  List.length (Egress.updateAt l i f) = List.length l.
Proof.
  revert i; induction l as [|x r IH]; intros [|i]; cbn; auto.
Qed.

Lemma nth_error_updateAt_same {A} (l : list A) (i : nat) (f : A -> A) :
  nth_error (Egress.updateAt l i f) i = option_map f (nth_error l i).
Proof.
  revert i; induction l as [|x r IH]; intros [|i]; cbn; auto.
Qed.

Lemma nth_error_updateAt_other {A} (l : list A) (i j : nat) (f : A -> A) :
  i <> j -> nth_error (Egress.updateAt l i f) j = nth_error l j.
Proof.
  revert i j; induction l as [|x r IH]; intros [|i] [|j] N; cbn; auto.
  congruence.
Qed.

Lemma In_updateAt {A} (l : list A) (i : nat) (f : A -> A) (y : A) :
  In y (Egress.updateAt l i f) -> In y l \/ exists x, In x l /\ y = f x.
Proof.
  revert i; induction l as [|x r IH]; intros [|i]; cbn; auto.
  - intros [<-|H]; [right; exists x; auto|auto].
  - intros [<-|H]; [auto|].
    destruct (IH _ H) as [?|(z & ? & ?)]; [auto|right; exists z; auto].
Qed.

Lemma length_copy (src target : list byte) (off : nat) :
  (off <= List.length target)%nat ->
  List.length (copy src target off) = List.length target.
Proof.
  intros H. unfold copy.
  rewrite !length_app, !length_firstn, length_skipn. lia.
Qed.

(** [createPacket] throws for a cmd, a port or a payload length outside
    its field, and for nothing else. *)
Lemma createPacket_ok cmd cid data host port uuid :
  0 <= cmd <= 255 ->
  0 <= port <= 65535 ->
  Z.of_nat (List.length data) <= maxDataLength ->
  exists packet, createPacket cmd cid data host port uuid = Some packet.
Proof.
  intros Hc Hp Hd. unfold maxDataLength in Hd.
  unfold createPacket, writeUInt8, writeUInt16BE, writeUInt32BE.
  replace ((0 <=? cmd) && (cmd <=? 255)) with true
    by (symmetry; apply andb_true_iff; lia).
  replace ((0 <=? port) && (port <=? 65535)) with true
    by (symmetry; apply andb_true_iff; lia).
  replace ((0 <=? Z.of_nat (List.length data))
           && (Z.of_nat (List.length data) <=? 4294967295)) with true
    by (symmetry; apply andb_true_iff; lia).
  set (n := List.length data).
  assert (L0 : List.length (alloc (1 + 16 + 4 + 2 + 4 + n)) = (27 + n)%nat)
    by (rewrite length_alloc; lia).
  replace ((0 + 1 <=? List.length (alloc (1 + 16 + 4 + 2 + 4 + n)))%nat)
    with true by (symmetry; apply Nat.leb_le; lia).
  cbn [andb bind].
  set (p1 := copy [z2b cmd] (alloc (1 + 16 + 4 + 2 + 4 + n)) 0).
  assert (L1 : List.length p1 = (27 + n)%nat)
    by (unfold p1; rewrite length_copy; lia).
  set (p2 := copy (clientIdBuffer cid uuid) p1 (0 + 1)).
  assert (L2 : List.length p2 = (27 + n)%nat)
    by (unfold p2; rewrite length_copy; lia).
  set (p3 := copy (ipBuffer host) p2 (0 + 1 + 16)).
  assert (L3 : List.length p3 = (27 + n)%nat)
    by (unfold p3; rewrite length_copy; lia).
  replace ((0 + 1 + 16 + 4 + 2 <=? List.length p3)%nat)
    with true by (symmetry; apply Nat.leb_le; lia).
  cbn [andb bind].
  set (p4 := copy [z2b (port / 256); z2b port] p3 (0 + 1 + 16 + 4)).
  assert (L4 : List.length p4 = (27 + n)%nat)
    by (unfold p4; rewrite length_copy; lia).
  replace ((0 + 1 + 16 + 4 + 2 + 4 <=? List.length p4)%nat)
    with true by (symmetry; apply Nat.leb_le; lia).
  cbn [andb bind]. eexists. reflexivity.
Qed.

(** The fields that the framer reads are within their ranges. *)
Lemma extract_ranges (buf : list byte) p rest :
  extract buf = Some (p, rest) ->
  0 <= cmd p <= 255 /\ 0 <= targetPort p <= 65535
  /\ Z.of_nat (List.length (data p)) = readUInt32BE buf 23
  /\ 0 <= readUInt32BE buf 23 <= maxDataLength.
Proof.
  unfold extract.
  destruct (27 <=? List.length buf)%nat eqn:E27; [|discriminate].
  destruct (27 + readUInt32BE buf 23 <=? Z.of_nat (List.length buf)) eqn:EL;
    [|discriminate].
  apply Nat.leb_le in E27. apply Z.leb_le in EL.
  assert (R : 0 <= readUInt32BE buf 23 <= maxDataLength).
  { unfold readUInt32BE, maxDataLength.
    pose proof (b2z_range (nth 23 buf x00));
    pose proof (b2z_range (nth (23 + 1) buf x00));
    pose proof (b2z_range (nth (23 + 2) buf x00));
    pose proof (b2z_range (nth (23 + 3) buf x00)). lia. }
  set (k := Z.to_nat (readUInt32BE buf 23)).
  assert (Z.of_nat k = readUInt32BE buf 23) by (unfold k; lia).
  clearbody k.
  intros [= <- <-]. cbn [cmd targetPort data].
  unfold readUInt8, readUInt16BE, subarray.
  pose proof (b2z_range (nth 0 buf x00)).
  pose proof (b2z_range (nth 21 buf x00)).
  pose proof (b2z_range (nth (21 + 1) buf x00)).
  repeat split; try lia.
  rewrite length_firstn, length_skipn. lia.
Qed.

Lemma transformLoop_ranges (fuel : nat) (buf : list byte) ps final :
  transformLoop fuel buf = Some (ps, final) ->
  Forall (fun p => 0 <= targetPort p <= 65535) ps.
Proof.
  revert buf ps. induction fuel as [|fuel IH]; intros buf ps; cbn.
  - destruct (extract buf) as [[p rest]|]; [discriminate|].
    intros [= <- <-]. constructor.
  - destruct (extract buf) as [[p rest]|] eqn:E.
    + destruct (transformLoop fuel rest) as [[qs f]|] eqn:T; [|discriminate].
      intros [= <- <-]. constructor.
      * now apply extract_ranges in E.
      * now apply IH with (buf := rest).
    + intros [= <- <-]. constructor.
Qed.

End StoreFacts.

(** ** Egress: what each handler keeps *)

Module EgressFacts.
Import Js JsFacts Codec Wire CodecFacts FramerFacts StoreFacts Vocabulary.
Import Egress.

Ltac st_cbn :=
  cbn [clients sockets buffer serialOpen wire rng draws phase exitCode
       setClients setSockets setBuffer setSerialOpen setWire setDraws
       setPhase exit updSocket serialWrite createTargetConnection] in *.

Lemma Forall_updateAt {A} (P : A -> Prop) (l : list A) (i : nat) (f : A -> A) :
  Forall P l -> (forall x, P x -> P (f x)) -> Forall P (updateAt l i f).
Proof.
  intros H Hf. revert i. induction H as [|x r Hx Hr IH]; intros [|i]; cbn;
    constructor; auto.
Qed.

Lemma egress_quiet_refl (st : State) : egressQuiet st st.
Proof.
  split; [|split].
  - exists []. split; [now rewrite app_nil_r|constructor].
  - intros Hp. split; [assumption|]. intros c Hc. now left.
  - intros Hp. assumption.
Qed.

Lemma egress_quiet_trans (a b c : State) :
  egressQuiet a b -> egressQuiet b c -> egressQuiet a c.
Proof.
  intros ((n1 & W1 & F1) & S1 & P1) ((n2 & W2 & F2) & S2 & P2).
  split; [|split].
  - exists (n1 ++ n2). split; [now rewrite W2, W1, app_assoc|].
    apply Forall_app. auto.
  - intros Ha. destruct (S1 Ha) as [Pb Eb]. destruct (S2 Pb) as [Pc Ec].
    split; [assumption|].
    intros x Hx. destruct (Ec x Hx) as [Hb | ->]; [now apply Eb|now right].
  - intros Ha. apply P2. now apply P1.
Qed.

(** A change of the sockets, of the table, of the buffer or of the
    generator that keeps the ports is quiet. *)
Lemma egress_quiet_sessions (st st' : State) :
  wire st' = wire st -> phase st' = phase st -> exitCode st' = exitCode st ->
  (egressPortsOK st -> egressPortsOK st') ->
  egressQuiet st st'.
Proof.
  intros W P E Hp. split; [|split].
  - exists []. split; [now rewrite W, app_nil_r|constructor].
  - intros Ha. split; [auto|]. intros c Hc. left. congruence.
  - intros Ha. congruence.
Qed.

Lemma egress_portsOK_updSocket (st : State) (s : nat) (f : Socket -> Socket) :
  (forall k, sk_targetPort (f k) = sk_targetPort k) ->
  egressPortsOK st -> egressPortsOK (updSocket st s f).
Proof.
  intros Hf [Hs Hc]. split; st_cbn; [|assumption].
  apply Forall_updateAt; [assumption|].
  intros k Hk. now rewrite Hf.
Qed.

Lemma egress_quiet_updSocket (st : State) (s : nat) (f : Socket -> Socket) :
  (forall k, sk_targetPort (f k) = sk_targetPort k) ->
  egressQuiet st (updSocket st s f).
Proof.
  intros Hf. apply egress_quiet_sessions; try reflexivity.
  now apply egress_portsOK_updSocket.
Qed.

Lemma skWrite_port d k : sk_targetPort (skWrite d k) = sk_targetPort k.
Proof.
  unfold skWrite, skDestroy.
  repeat match goal with
         | |- context [if ?b then _ else _] => destruct b
         end; reflexivity.
Qed.

Lemma portsOK_mapDelete (st : State) (key : JsValue) :
  egressPortsOK st -> egressPortsOK (setClients st (mapDelete (clients st) key)).
Proof.
  intros [Hs Hc]. split; st_cbn; [assumption|].
  apply Forall_forall. intros e He. apply mapDelete_In in He.
  revert e He. now apply Forall_forall.
Qed.

Lemma quiet_mapDelete (st : State) (key : JsValue) :
  egressQuiet st (setClients st (mapDelete (clients st) key)).
Proof.
  apply egress_quiet_sessions; try reflexivity. apply portsOK_mapDelete.
Qed.

(** [sendPacket] either writes one frame with the cmd given, or throws
    and writes nothing; it throws only for a value outside its field. *)
Lemma egress_sendPacket_cases st c cid d h p :
  (exists st' f,
      sendPacket st c cid d h p = Return st'
      /\ wire st' = wire st ++ [f] /\ frameCmd f = c
      /\ clients st' = clients st /\ sockets st' = sockets st
      /\ serialOpen st' = serialOpen st /\ phase st' = phase st
      /\ exitCode st' = exitCode st)
  \/ (exists st',
      sendPacket st c cid d h p = Throw st'
      /\ wire st' = wire st
      /\ clients st' = clients st /\ sockets st' = sockets st
      /\ serialOpen st' = serialOpen st /\ phase st' = phase st
      /\ exitCode st' = exitCode st
      /\ ~ (0 <= c <= 255 /\ portOK p
            /\ Z.of_nat (List.length d) <= maxDataLength)).
Proof.
  unfold sendPacket, createPacketS.
  destruct (createPacket c cid d h p (randomUUID (rng st (draws st))))
    as [f|] eqn:E.
  - left. apply createPacket_some in E as (_ & _ & _ & E).
    eexists; exists f. split; [reflexivity|].
    destruct (drawsUUID cid); st_cbn; repeat split; auto.
  - right. eexists. split; [reflexivity|].
    destruct (drawsUUID cid); st_cbn; repeat split; auto;
      intros (Hc & Hp & Hd);
      destruct (createPacket_ok c cid d h p
                  (randomUUID (rng st (draws st))) Hc Hp Hd); congruence.
Qed.

Lemma egress_portsOK_same (st st' : State) :
  clients st' = clients st -> sockets st' = sockets st ->
  egressPortsOK st -> egressPortsOK st'.
Proof. unfold egressPortsOK. intros -> ->. auto. Qed.

Lemma egress_sendPacket_quiet st c cid d h p :
  c = CMD_DATA \/ c = CMD_DISCONNECT ->
  forall st',
    (sendPacket st c cid d h p = Return st'
     \/ sendPacket st c cid d h p = Throw st') ->
    egressQuiet st st'.
Proof.
  intros Hc st' H.
  destruct (egress_sendPacket_cases st c cid d h p)
    as [(st1 & f & R & W & F & C & S & _ & P & E)
       |(st1 & R & W & C & S & _ & P & E & _)];
    rewrite R in H; destruct H as [H|H]; try discriminate;
    injection H as <-.
  - split; [|split].
    + exists [f]. split; [assumption|]. constructor; [|constructor].
      unfold sessionFrame. rewrite F. assumption.
    + intros Ha. split; [now apply (egress_portsOK_same st)|].
      intros x Hx. left. congruence.
    + intros Ha. congruence.
  - apply egress_quiet_sessions; try assumption. now apply egress_portsOK_same.
Qed.

Lemma skEnd_port k : sk_targetPort (skEnd k) = sk_targetPort k.
Proof. reflexivity. Qed.

Lemma handlePacket_quiet (st : State) (p : Packet) :
  portOK (targetPort p) -> egressQuiet st (handlePacket st p).
Proof.
  intros Hp. unfold handlePacket.
  destruct (cmd p =? CMD_DATA).
  - destruct (mapGet (clients st) (JsStr (clientId p))) as [client|].
    + destruct (ci_connected client); [|apply egress_quiet_refl].
      apply egress_quiet_updSocket. intros k. apply skWrite_port.
    + apply egress_quiet_sessions; try reflexivity.
      intros [Hs Hc]. split; st_cbn; [|assumption].
      apply Forall_app. split; [assumption|].
      constructor; [exact Hp|constructor].
  - destruct (cmd p =? CMD_DISCONNECT); [|apply egress_quiet_refl].
    destruct (mapGet (clients st) (JsStr (clientId p))) as [client|];
      [|apply egress_quiet_refl].
    apply egress_quiet_trans with (b := updSocket st (ci_socket client) skEnd);
      [apply egress_quiet_updSocket; intros k; apply skEnd_port|].
    apply (quiet_mapDelete (updSocket st (ci_socket client) skEnd)).
Qed.

Lemma handlePackets_quiet (ps : list Packet) (st : State) :
  Forall (fun p => portOK (targetPort p)) ps ->
  egressQuiet st (fold_left handlePacket ps st).
Proof.
  intros H. revert st. induction H as [|p ps Hp Hps IH]; intros st.
  - apply egress_quiet_refl.
  - cbn [fold_left]. apply egress_quiet_trans with (b := handlePacket st p);
      [apply handlePacket_quiet; exact Hp|apply IH].
Qed.

Lemma handlePacket_link (st : State) (p : Packet) :
  wire (handlePacket st p) = wire st
  /\ serialOpen (handlePacket st p) = serialOpen st
  /\ phase (handlePacket st p) = phase st
  /\ exitCode (handlePacket st p) = exitCode st.
Proof.
  unfold handlePacket.
  destruct (cmd p =? CMD_DATA);
    [destruct (mapGet _ _) as [client|];
     [destruct (ci_connected client)|]
    |destruct (cmd p =? CMD_DISCONNECT);
     [destruct (mapGet _ _) as [client|]|]];
    repeat split.
Qed.

Lemma handlePackets_link (ps : list Packet) (st : State) :
  wire (fold_left handlePacket ps st) = wire st
  /\ serialOpen (fold_left handlePacket ps st) = serialOpen st
  /\ phase (fold_left handlePacket ps st) = phase st
  /\ exitCode (fold_left handlePacket ps st) = exitCode st.
Proof.
  revert st. induction ps as [|p ps IH]; intros st; [repeat split|].
  cbn [fold_left].
  destruct (IH (handlePacket st p)) as (A & B & C & D).
  destruct (handlePacket_link st p) as (A' & B' & C' & D').
  repeat split; congruence.
Qed.

(** Bytes from the serial port never stop the process: the handler
    returns, and it writes nothing to the serial port. *)
Lemma onSerialData_quiet (st : State) (chunk : list byte) :
  exists st', onSerialData st chunk = Some st'
              /\ egressQuiet st st' /\ wire st' = wire st
              /\ phase st' = phase st /\ exitCode st' = exitCode st.
Proof.
  unfold onSerialData.
  destruct (_transform_total (buffer st) chunk) as (ps & final & T & _).
  rewrite T. eexists. split; [reflexivity|].
  assert (R : Forall (fun p => portOK (targetPort p)) ps)
    by (unfold _transform in T; now apply transformLoop_ranges in T).
  destruct (handlePackets_link ps (setBuffer st final)) as (A & B & C & D).
  split; [|repeat split; assumption].
  eapply egress_quiet_trans; [|now apply handlePackets_quiet].
  apply egress_quiet_sessions; try reflexivity. intros Hq. exact Hq.
Qed.

Lemma Forall_mapSet_snd {V} (Q : V -> Prop) (m : Map V) (key : JsValue) (v : V) :
  Forall (fun e => Q (snd e)) m -> Q v ->
  Forall (fun e => Q (snd e)) (mapSet m key v).
Proof.
  intros H Hv. induction H as [|[a w] r Hx Hr IH]; cbn.
  - constructor; [exact Hv|constructor].
  - destruct (sameValueZero a key); constructor; auto.
Qed.

Lemma onConnect_quiet (st : State) (s : nat) (k : Socket) :
  nth_error (sockets st) s = Some k -> egressQuiet st (onConnect st s k).
Proof.
  intros N. apply egress_quiet_sessions; try reflexivity.
  intros [Hs Hc]. unfold onConnect. split; st_cbn.
  - apply Forall_updateAt; [apply Forall_updateAt|]; try assumption.
    + intros x Hx. exact Hx.
    + intros x Hx. now rewrite skWrite_port.
  - apply (Forall_mapSet_snd (fun c => portOK (ci_targetPort c)));
      [assumption|]. cbn.
    apply nth_error_In in N. revert k N. now apply Forall_forall.
Qed.

Lemma onSocketData_quiet (st : State) (k : Socket) (d : list byte) st' :
  onSocketData st k d = Return st' \/ onSocketData st k d = Throw st' ->
  egressQuiet st st' /\ phase st' = phase st.
Proof.
  unfold onSocketData. destruct (serialOpen st).
  - intros H. split; [eapply egress_sendPacket_quiet; [left; reflexivity|exact H]|].
    destruct (egress_sendPacket_cases st CMD_DATA (JsStr (sk_clientId k)) d
                (sk_targetHost k) (sk_targetPort k))
      as [(st1 & f & R & W & F & C & S & _ & P & E)
         |(st1 & R & W & C & S & _ & P & E & _)];
      rewrite R in H; destruct H as [H|H]; try discriminate;
      injection H as <-; assumption.
  - intros [H|H]; [|discriminate]. injection H as <-.
    split; [apply egress_quiet_refl|reflexivity].
Qed.

Lemma onSocketClose_quiet (st : State) (s : nat) (k : Socket) st' :
  onSocketClose st s k = Return st' \/ onSocketClose st s k = Throw st' ->
  egressQuiet st st' /\ phase st' = phase st.
Proof.
  unfold onSocketClose.
  set (st1 := setClients (updSocket st s skSetClosed)
                (mapDelete (clients (updSocket st s skSetClosed))
                   (JsStr (sk_clientId k)))).
  assert (Q1 : egressQuiet st st1).
  { apply egress_quiet_trans with (b := updSocket st s skSetClosed);
      [apply egress_quiet_updSocket; intros x; reflexivity|].
    apply (quiet_mapDelete (updSocket st s skSetClosed)). }
  assert (P1 : phase st1 = phase st) by reflexivity.
  destruct (serialOpen st1).
  - intros H. split.
    + eapply egress_quiet_trans; [exact Q1|].
      eapply egress_sendPacket_quiet; [right; reflexivity|exact H].
    + destruct (egress_sendPacket_cases st1 CMD_DISCONNECT (JsStr (sk_clientId k)) []
                  (sk_targetHost k) (sk_targetPort k))
        as [(st2 & f & R & W & F & C & S & _ & P & E)
           |(st2 & R & W & C & S & _ & P & E & _)];
        rewrite R in H; destruct H as [H|H]; try discriminate;
        injection H as <-; congruence.
  - intros [H|H]; [|discriminate]. injection H as <-. auto.
Qed.

(** *** The steps of [gracefulShutdown] *)

(** *** The steps of [gracefulShutdown] *)

Lemma egress_quiet_setPhase (st : State) (ph : Phase) :
  ph <> Running -> egressQuiet st (setPhase st ph).
Proof.
  intros H. split; [|split].
  - exists []. split; [now rewrite app_nil_r|constructor].
  - intros Hp. split; [exact Hp|]. intros c Hc. now left.
  - intros _. exact H.
Qed.

Lemma egress_quiet_exit0 (st : State) : egressQuiet st (exit st 0).
Proof.
  split; [|split].
  - exists []. split; [now rewrite app_nil_r|constructor].
  - intros Hp. split; [exact Hp|]. intros c Hc. right. st_cbn. congruence.
  - intros H. exact H.
Qed.

Lemma egress_closeSerial_spec (st : State) :
  egressQuiet st (closeSerial st) /\ egressStarted (closeSerial st).
Proof.
  unfold closeSerial, egressStarted. destruct (serialOpen st).
  - split; [apply egress_quiet_setPhase|left]; discriminate.
  - split; [apply egress_quiet_exit0|right; discriminate].
Qed.

Lemma egress_afterSockets_spec (st : State) :
  egressQuiet st (afterSockets st) /\ egressStarted (afterSockets st).
Proof.
  unfold afterSockets.
  destruct (egress_closeSerial_spec (setClients st [])) as [Q S].
  split; [|exact S].
  eapply egress_quiet_trans; [|exact Q].
  apply egress_quiet_sessions; try reflexivity.
  intros [Hs Hc]. split; [exact Hs|constructor].
Qed.

Lemma egress_endAll_quiet (targets : list nat) (st : State) :
  egressQuiet st (fold_left (fun st s => updSocket st s skEnd) targets st).
Proof.
  revert st. induction targets as [|s r IH]; intros st; [apply egress_quiet_refl|].
  cbn [fold_left]. apply egress_quiet_trans with (b := updSocket st s skEnd);
    [apply egress_quiet_updSocket; intros k; reflexivity|apply IH].
Qed.

Lemma egress_closeSockets_spec (st : State) :
  egressQuiet st (closeSockets st) /\ egressStarted (closeSockets st).
Proof.
  unfold closeSockets.
  set (targets := socketsToClose st (clients st)).
  set (st1 := fold_left (fun st s => updSocket st s skEnd) targets st).
  assert (Q1 : egressQuiet st st1) by apply egress_endAll_quiet.
  destruct targets as [|t r].
  - destruct (egress_afterSockets_spec st1) as [Q S].
    split; [apply egress_quiet_trans with (b := st1); [exact Q1|exact Q]|exact S].
  - split; [|left; discriminate].
    apply egress_quiet_trans with (b := st1);
      [exact Q1|apply egress_quiet_setPhase; discriminate].
Qed.

Lemma egress_resolveClose_quiet (st : State) (s : nat) :
  egressQuiet st (resolveClose st s).
Proof.
  unfold resolveClose. destruct (phase st) eqn:P; try apply egress_quiet_refl.
  destruct (existsb (Nat.eqb s) pending); [|apply egress_quiet_refl].
  destruct (filter _ pending).
  - apply egress_afterSockets_spec.
  - apply egress_quiet_setPhase. discriminate.
Qed.

Lemma notifyClients_quiet (entries : Map ClientInfo) (st st' : State) :
  notifyClients st entries = Return st'
  \/ notifyClients st entries = Throw st' ->
  egressQuiet st st'
  /\ phase st' = phase st /\ exitCode st' = exitCode st.
Proof.
  revert st. induction entries as [|[uuid client] rest IH]; intros st.
  - cbn. intros [H|H]; [|discriminate]. injection H as <-.
    split; [apply egress_quiet_refl|split; reflexivity].
  - cbn [notifyClients]. destruct (serialOpen st); [|apply IH].
    destruct (egress_sendPacket_cases st CMD_DISCONNECT uuid []
                (ci_targetHost client) (ci_targetPort client))
      as [(st1 & f & R & W & F & C & S & _ & P & E)
         |(st1 & R & W & C & S & _ & P & E & _)]; rewrite R.
    + intros H. destruct (IH st1 H) as (Q & P' & E').
      split; [|split; congruence].
      eapply egress_quiet_trans; [|exact Q].
      eapply egress_sendPacket_quiet; [right; reflexivity|left; exact R].
    + intros [H|H]; [discriminate|]. injection H as <-.
      split; [|split; assumption].
      eapply egress_sendPacket_quiet; [right; reflexivity|right; exact R].
Qed.

(** With ports that fit their field no Disconnect of step 2 throws. *)
Lemma notifyClients_no_throw (entries : Map ClientInfo) (st : State) :
  Forall (fun e => portOK (ci_targetPort (snd e))) entries ->
  exists st', notifyClients st entries = Return st'.
Proof.
  intros H. revert st. induction H as [|[uuid client] rest Hp Hr IH]; intros st.
  - eexists. reflexivity.
  - cbn [notifyClients]. destruct (serialOpen st); [|apply IH].
    destruct (egress_sendPacket_cases st CMD_DISCONNECT uuid []
                (ci_targetHost client) (ci_targetPort client))
      as [(st1 & f & R & _)|(st1 & R & _ & _ & _ & _ & _ & _ & N)];
      rewrite R; [apply IH|].
    exfalso. apply N. cbn in Hp. unfold CMD_DISCONNECT, maxDataLength.
    cbn [List.length]. repeat split; try apply Hp; lia.
Qed.

Lemma notify_spec (st : State) :
  egressQuiet st (notify st) /\ egressStarted (notify st).
Proof.
  unfold notify.
  destruct (notifyClients st (clients st)) as [st1|st1] eqn:N.
  - destruct (notifyClients_quiet _ _ _ (or_introl N)) as (Q & P & E).
    destruct (egress_closeSockets_spec st1) as [Q2 S2].
    destruct (clients st) as [|e r] eqn:C.
    + split; [apply egress_quiet_trans with (b := st1); assumption|exact S2].
    + destruct (serialOpen st).
      * split; [|left; discriminate].
        apply egress_quiet_trans with (b := st1);
          [exact Q|apply egress_quiet_setPhase; discriminate].
      * split; [apply egress_quiet_trans with (b := st1); assumption|exact S2].
  - destruct (notifyClients_quiet _ _ _ (or_intror N)) as (Q & P & E).
    split; [|right; discriminate].
    destruct Q as (W & S & Ph). split; [|split].
    + exact W.
    + intros Hp. exfalso.
      destruct (notifyClients_no_throw (clients st) st (proj2 Hp)) as (x & X).
      congruence.
    + exact Ph.
Qed.

(** [gracefulShutdown], called while idle: it is under way afterwards;
    with the serial port open the one frame it writes before it suspends
    is ProgramClose; with the port closed it writes nothing but session
    frames. *)
Lemma egress_gracefulShutdown_spec (st : State) :
  egressSound st (gracefulShutdown st)
  /\ egressStarted (gracefulShutdown st)
  /\ (serialOpen st = true ->
      exists pc,
        wire (gracefulShutdown st) = wire st ++ [pc]
        /\ frameCmd pc = CMD_PROGRAM_CLOSE
        /\ phase (gracefulShutdown st) = AwaitProgramClose
        /\ exitCode (gracefulShutdown st) = exitCode st)
  /\ (serialOpen st = false -> egressWire st (gracefulShutdown st)).
Proof.
  unfold gracefulShutdown. destruct (serialOpen st) eqn:O.
  - set (st0 := setDraws st (S (draws st))).
    destruct (egress_sendPacket_cases st0 CMD_PROGRAM_CLOSE
                (JsStr (removeHyphens (randomUUID (rng st (draws st))))) []
                EmptyString 0)
      as [(st1 & f & R & W & F & C & S & _ & P & E)
         |(st1 & R & _ & _ & _ & _ & _ & _ & N)]; rewrite R.
    + split; [|split; [left; discriminate|split; [|discriminate]]].
      * intros Hp. split; [now apply (egress_portsOK_same st0)|].
        intros c Hc. left. unfold st0 in *. st_cbn. congruence.
      * intros _. exists f. unfold st0 in *. st_cbn.
        repeat split; try reflexivity; assumption.
    + exfalso. apply N. unfold CMD_PROGRAM_CLOSE, portOK, maxDataLength.
      cbn [List.length]. lia.
  - destruct (notify_spec st) as [(W & S & P) St].
    split; [exact S|split; [exact St|split; [discriminate|intros _; exact W]]].
Qed.

(** *** Steps and runs *)

Lemma sound_trans (a b c : State) :
  egressSound a b -> egressSound b c -> egressSound a c.
Proof.
  intros S1 S2 Ha. destruct (S1 Ha) as [Pb Eb]. destruct (S2 Pb) as [Pc Ec].
  split; [assumption|].
  intros x Hx. destruct (Ec x Hx) as [Hb | ->]; [now apply Eb|now right].
Qed.

(** A step either is quiet or runs [gracefulShutdown] from an idle
    state, after the quiet part of a handler that threw. *)
Lemma step_cases (st : State) (ev : Event) (st' : State) :
  step st ev = Some st' ->
  egressQuiet st st'
  \/ (phase st = Running
      /\ exists mid,
           egressQuiet st mid /\ phase mid = Running
           /\ st' = gracefulShutdown mid).
Proof.
  unfold step. destruct (exitCode st); [discriminate|].
  assert (Start : forall mid,
             egressQuiet st mid -> phase mid = phase st ->
             startShutdown mid = Some st' ->
             phase st = Running
             /\ exists mid0, egressQuiet st mid0 /\ phase mid0 = Running
                             /\ st' = gracefulShutdown mid0).
  { intros mid Q P. unfold startShutdown.
    destruct (phase mid) eqn:Pm; try discriminate.
    intros [= <-]. split; [congruence|]. exists mid. auto. }
  destruct ev as [chunk|s|s|s d|s|s| | |s| |].
  - intros H. left.
    destruct (onSerialData_quiet st chunk) as (x & X & Q & _).
    congruence.
  - destruct (nth_error (sockets st) s) as [k|] eqn:N; [|discriminate].
    destruct (_ && _); [|discriminate]. intros [= <-]. left.
    now apply onConnect_quiet.
  - destruct (nth_error (sockets st) s) as [k|] eqn:N; [|discriminate].
    destruct (_ && _); [|discriminate]. intros [= <-]. left.
    apply egress_quiet_updSocket. intros x. reflexivity.
  - destruct (nth_error (sockets st) s) as [k|] eqn:N; [|discriminate].
    destruct (_ && _); [|discriminate].
    destruct (onSocketData st k d) as [st1|st1] eqn:O; cbn [settle].
    + intros [= <-]. left. now apply (onSocketData_quiet st k d st1); left.
    + destruct (onSocketData_quiet st k d st1 (or_intror O)) as [Q P].
      intros H. right. now apply (Start st1).
  - destruct (nth_error (sockets st) s) as [k|] eqn:N; [|discriminate].
    destruct (_ && _); [|discriminate].
    destruct (onSocketClose st s k) as [st1|st1] eqn:O.
    + destruct (onSocketClose_quiet st s k st1 (or_introl O)) as [Q P].
      intros [= <-]. left.
      apply egress_quiet_trans with (b := st1); [exact Q|apply egress_resolveClose_quiet].
    + destruct (onSocketClose_quiet st s k st1 (or_intror O)) as [Q P].
      intros H. right. now apply (Start st1).
  - destruct (nth_error (sockets st) s) as [k|] eqn:N; [|discriminate].
    destruct (_ && _); [|discriminate]. intros [= <-]. left.
    apply quiet_mapDelete.
  - intros H. right. apply (Start st); [apply egress_quiet_refl|reflexivity|exact H].
  - destruct (phase st); try discriminate; intros [= <-]; left.
    + apply notify_spec.
    + apply egress_closeSockets_spec.
  - destruct (phase st) eqn:P; try discriminate.
    destruct (existsb (Nat.eqb s) pending); [|discriminate].
    destruct (nth_error (sockets st) s) as [k|]; [|discriminate].
    intros [= <-]. left. destruct (sk_destroyed k).
    + apply egress_resolveClose_quiet.
    + apply egress_quiet_trans with (b := updSocket st s skDestroy);
        [apply egress_quiet_updSocket; intros x; reflexivity|apply egress_resolveClose_quiet].
  - destruct (phase st); try discriminate. intros [= <-]. left.
    apply egress_quiet_trans with (b := setSerialOpen st false);
      [|apply egress_quiet_exit0].
    apply egress_quiet_sessions; try reflexivity. intros Hq. exact Hq.
  - destruct (phase st); try discriminate. intros [= <-]. left.
    apply egress_quiet_exit0.
Qed.

Lemma step_sound (st : State) (ev : Event) (st' : State) :
  step st ev = Some st' -> egressSound st st'.
Proof.
  intros H. destruct (step_cases st ev st' H)
    as [(_ & S & _)|(_ & mid & (_ & S & _) & _ & ->)]; [exact S|].
  apply sound_trans with (b := mid); [exact S|apply egress_gracefulShutdown_spec].
Qed.

Lemma step_started (st : State) (ev : Event) (st' : State) :
  phase st <> Running -> step st ev = Some st' ->
  egressQuiet st st' /\ phase st' <> Running.
Proof.
  intros P H. destruct (step_cases st ev st' H) as [Q|(R & _)]; [|contradiction].
  split; [exact Q|]. now apply Q.
Qed.

Lemma run_sound (trace : list Event) (st st' : State) :
  run st trace = Some st' -> egressSound st st'.
Proof.
  revert st. induction trace as [|ev rest IH]; intros st; cbn [run].
  - intros [= <-]. apply egress_quiet_refl.
  - destruct (step st ev) as [st1|] eqn:E; [|discriminate].
    intros H. apply sound_trans with (b := st1);
      [now apply (step_sound st ev)|now apply IH].
Qed.

Lemma run_started (trace : list Event) (st st' : State) :
  phase st <> Running -> run st trace = Some st' -> egressWire st st'.
Proof.
  revert st. induction trace as [|ev rest IH]; intros st P; cbn [run].
  - intros [= <-]. apply egress_quiet_refl.
  - destruct (step st ev) as [st1|] eqn:E; [|discriminate].
    destruct (step_started st ev st1 P E) as [((n1 & W1 & F1) & _) P1].
    intros H. destruct (IH st1 P1 H) as (n2 & W2 & F2).
    exists (n1 ++ n2). split; [now rewrite W2, W1, app_assoc|].
    apply Forall_app. auto.
Qed.

End EgressFacts.

(** ** Ingress: what each handler keeps *)

Module IngressFacts.
Import Js JsFacts Codec Wire CodecFacts FramerFacts StoreFacts Vocabulary.
Import Ingress.

Ltac st_cbn :=
  cbn [clientsByPort portMappings listening sockets buffer serialOpen wire
       rng draws immediates phase exitCode
       setClientsByPort setListening setSockets setBuffer setSerialOpen
       setWire setDraws setImmediates setPhase exit updSocket serialWrite]
    in *.

Lemma ingress_quiet_refl (st : State) : ingressQuiet st st.
Proof.
  split; [|split].
  - exists []. split; [now rewrite app_nil_r|constructor].
  - intros Hp. split; [assumption|]. intros c Hc. now left.
  - intros Hp. assumption.
Qed.

Lemma ingress_quiet_trans (a b c : State) :
  ingressQuiet a b -> ingressQuiet b c -> ingressQuiet a c.
Proof.
  intros ((n1 & W1 & F1) & S1 & P1) ((n2 & W2 & F2) & S2 & P2).
  split; [|split].
  - exists (n1 ++ n2). split; [now rewrite W2, W1, app_assoc|].
    apply Forall_app. auto.
  - intros Ha. destruct (S1 Ha) as [Pb Eb]. destruct (S2 Pb) as [Pc Ec].
    split; [assumption|].
    intros x Hx. destruct (Ec x Hx) as [Hb | ->]; [now apply Eb|now right].
  - intros Ha. apply P2. now apply P1.
Qed.

Lemma ingress_quiet_sessions (st st' : State) :
  wire st' = wire st -> phase st' = phase st -> exitCode st' = exitCode st ->
  (ingressPortsOK st -> ingressPortsOK st') ->
  ingressQuiet st st'.
Proof.
  intros W P E Hp. split; [|split].
  - exists []. split; [now rewrite W, app_nil_r|constructor].
  - intros Ha. split; [auto|]. intros c Hc. left. congruence.
  - intros Ha. congruence.
Qed.

Lemma ingress_portsOK_same (st st' : State) :
  portMappings st' = portMappings st -> sockets st' = sockets st ->
  clientsByPort st' = clientsByPort st ->
  ingressPortsOK st -> ingressPortsOK st'.
Proof. unfold ingressPortsOK. intros -> -> ->. auto. Qed.

Lemma ingress_portsOK_updSocket (st : State) (s : nat) (f : Socket -> Socket) :
  (forall k, sk_mapping (f k) = sk_mapping k) ->
  ingressPortsOK st -> ingressPortsOK (updSocket st s f).
Proof.
  intros Hf (Hm & Hs & Hc). split; [|split]; st_cbn; try assumption.
  apply EgressFacts.Forall_updateAt; [assumption|].
  intros k Hk. now rewrite Hf.
Qed.

Lemma ingress_quiet_updSocket (st : State) (s : nat) (f : Socket -> Socket) :
  (forall k, sk_mapping (f k) = sk_mapping k) ->
  ingressQuiet st (updSocket st s f).
Proof.
  intros Hf. apply ingress_quiet_sessions; try reflexivity.
  now apply ingress_portsOK_updSocket.
Qed.

Lemma skWrite_mapping d k : sk_mapping (skWrite d k) = sk_mapping k.
Proof.
  unfold skWrite, skDestroy.
  repeat match goal with
         | |- context [if ?b then _ else _] => destruct b
         end; reflexivity.
Qed.

Lemma Forall_mapGet {V} (Q : V -> Prop) (m : Map V) (key : JsValue) (v : V) :
  Forall (fun e => Q (snd e)) m -> mapGet m key = Some v -> Q v.
Proof.
  intros H G. apply mapGet_In in G as (k' & I & _).
  apply (proj1 (Forall_forall _ _) H) in I. exact I.
Qed.

Lemma Forall_mapDelete {V} (Q : JsValue * V -> Prop) (m : Map V) (key : JsValue) :
  Forall Q m -> Forall Q (mapDelete m key).
Proof.
  intros H. apply Forall_forall. intros e He. apply mapDelete_In in He.
  revert e He. now apply Forall_forall.
Qed.

(** Replacing the bucket of a key by the same bucket without one id. *)
Lemma portsOK_dropClient (st : State) (key id : JsValue) bucket :
  mapGet (clientsByPort st) key = Some bucket ->
  ingressPortsOK st ->
  ingressPortsOK
    (setClientsByPort st (mapSet (clientsByPort st) key (mapDelete bucket id))).
Proof.
  intros G (Hm & Hs & Hc). split; [|split]; st_cbn; try assumption.
  apply (EgressFacts.Forall_mapSet_snd
           (fun b => Forall (fun e => mappingOK (ci_mapping (snd e))) b));
    [assumption|].
  apply Forall_mapDelete.
  exact (Forall_mapGet
           (fun b => Forall (fun e => mappingOK (ci_mapping (snd e))) b)
           _ _ _ Hc G).
Qed.

Lemma ingress_sendPacket_cases st c cid d h p :
  (exists st' f,
      sendPacket st c cid d h p = Return st'
      /\ wire st' = wire st ++ [f] /\ frameCmd f = c
      /\ clientsByPort st' = clientsByPort st /\ sockets st' = sockets st
      /\ portMappings st' = portMappings st
      /\ serialOpen st' = serialOpen st /\ phase st' = phase st
      /\ exitCode st' = exitCode st)
  \/ (exists st',
      sendPacket st c cid d h p = Throw st'
      /\ wire st' = wire st
      /\ clientsByPort st' = clientsByPort st /\ sockets st' = sockets st
      /\ portMappings st' = portMappings st
      /\ serialOpen st' = serialOpen st /\ phase st' = phase st
      /\ exitCode st' = exitCode st
      /\ ~ (0 <= c <= 255 /\ portOK p
            /\ Z.of_nat (List.length d) <= maxDataLength)).
Proof.
  unfold sendPacket, createPacketS.
  destruct (createPacket c cid d h p (randomUUID (rng st (draws st))))
    as [f|] eqn:E.
  - left. apply createPacket_some in E as (_ & _ & _ & E).
    eexists; exists f. split; [reflexivity|].
    destruct (drawsUUID cid); st_cbn; repeat split; auto.
  - right. eexists. split; [reflexivity|].
    destruct (drawsUUID cid); st_cbn; repeat split; auto;
      intros (Hc & Hp & Hd);
      destruct (createPacket_ok c cid d h p
                  (randomUUID (rng st (draws st))) Hc Hp Hd); congruence.
Qed.

Lemma ingress_sendPacket_quiet st c cid d h p :
  c = CMD_DATA \/ c = CMD_DISCONNECT ->
  forall st',
    (sendPacket st c cid d h p = Return st'
     \/ sendPacket st c cid d h p = Throw st') ->
    ingressQuiet st st'.
Proof.
  intros Hc st' H.
  destruct (ingress_sendPacket_cases st c cid d h p)
    as [(st1 & f & R & W & F & C & S & M & _ & P & E)
       |(st1 & R & W & C & S & M & _ & P & E & _)];
    rewrite R in H; destruct H as [H|H]; try discriminate;
    injection H as <-.
  - split; [|split].
    + exists [f]. split; [assumption|]. constructor; [|constructor].
      unfold sessionFrame. rewrite F. assumption.
    + intros Ha. split; [now apply (ingress_portsOK_same st)|].
      intros x Hx. left. congruence.
    + intros Ha. congruence.
  - apply ingress_quiet_sessions; try assumption. now apply ingress_portsOK_same.
Qed.

Lemma closedCount_updSocket (st : State) (s : nat) (f : Socket -> Socket) :
  (forall k, sk_closed (f k) = sk_closed k) ->
  closedCount (updSocket st s f) = closedCount st.
Proof.
  intros Hf. unfold closedCount. st_cbn.
  generalize (sockets st) as l. intros l. revert s.
  induction l as [|x r IH]; intros [|s]; cbn; try reflexivity.
  - rewrite Hf. now destruct (sk_closed x).
  - destruct (sk_closed x); cbn; now rewrite IH.
Qed.

Lemma skWrite_closed d k : sk_closed (skWrite d k) = sk_closed k.
Proof.
  unfold skWrite, skDestroy.
  repeat match goal with
         | |- context [if ?b then _ else _] => destruct b
         end; reflexivity.
Qed.

(** The loop of the Disconnect case only ends sockets. *)
Lemma endClient_spec (byPort : Map (Map ClientInfo)) (id : JsValue) (st : State) :
  ingressQuiet st (endClient st byPort id)
  /\ wire (endClient st byPort id) = wire st
  /\ serialOpen (endClient st byPort id) = serialOpen st
  /\ phase (endClient st byPort id) = phase st
  /\ exitCode (endClient st byPort id) = exitCode st
  /\ clientsByPort (endClient st byPort id) = clientsByPort st
  /\ closedCount (endClient st byPort id) = closedCount st.
Proof.
  revert st. induction byPort as [|[port clients] rest IH]; intros st.
  - cbn. split; [apply ingress_quiet_refl|repeat split].
  - cbn [endClient]. destruct (mapGet clients id) as [client|]; [|apply IH].
    set (st1 := if negb (socketDestroyed st (ci_socket client))
                then updSocket st (ci_socket client) skEnd else st).
    assert (Q1 : ingressQuiet st st1
                 /\ wire st1 = wire st /\ serialOpen st1 = serialOpen st
                 /\ phase st1 = phase st /\ exitCode st1 = exitCode st
                 /\ clientsByPort st1 = clientsByPort st
                 /\ closedCount st1 = closedCount st).
    { unfold st1. destruct (negb _).
      - split; [apply ingress_quiet_updSocket; intros k; reflexivity|].
        repeat split. apply closedCount_updSocket. intros k. reflexivity.
      - split; [apply ingress_quiet_refl|repeat split]. }
    destruct Q1 as (Q & A & B & C & D & E & F).
    destruct (IH st1) as (Q' & A' & B' & C' & D' & E' & F').
    split; [apply ingress_quiet_trans with (b := st1); assumption|].
    repeat split; congruence.
Qed.

Lemma handleResponsePacket_spec (st : State) (p : Packet) :
  ingressQuiet st (handleResponsePacket st p)
  /\ wire (handleResponsePacket st p) = wire st
  /\ serialOpen (handleResponsePacket st p) = serialOpen st
  /\ phase (handleResponsePacket st p) = phase st
  /\ exitCode (handleResponsePacket st p) = exitCode st
  /\ closedCount (handleResponsePacket st p) = closedCount st.
Proof.
  unfold handleResponsePacket.
  destruct (cmd p =? CMD_DATA).
  { destruct (findClient _ _) as [c|];
      [|split; [apply ingress_quiet_refl|repeat split]].
    destruct (negb _); [|split; [apply ingress_quiet_refl|repeat split]].
    split; [apply ingress_quiet_updSocket; intros k; apply skWrite_mapping|].
    repeat split. apply closedCount_updSocket. intros k. apply skWrite_closed. }
  destruct (cmd p =? CMD_DISCONNECT).
  { destruct (endClient_spec (clientsByPort st) (JsStr (clientId p)) st)
      as (Q & A & B & C & D & E & F).
    set (st1 := endClient st (clientsByPort st) (JsStr (clientId p))) in *.
    destruct (mapGet (clientsByPort st1) (JsStr (clientId p))) as [bucket|] eqn:G.
    - split; [|repeat split; assumption].
      apply ingress_quiet_trans with (b := st1); [exact Q|].
      apply ingress_quiet_sessions; try reflexivity.
      now apply portsOK_dropClient.
    - split; [exact Q|repeat split; assumption]. }
  destruct (cmd p =? CMD_PROGRAM_CLOSE).
  - split; [|repeat split].
    apply ingress_quiet_sessions; try reflexivity. intros Hq. exact Hq.
  - split; [apply ingress_quiet_refl|repeat split].
Qed.

Lemma handleResponsePackets_spec (ps : list Packet) (st : State) :
  ingressQuiet st (fold_left handleResponsePacket ps st)
  /\ wire (fold_left handleResponsePacket ps st) = wire st
  /\ serialOpen (fold_left handleResponsePacket ps st) = serialOpen st
  /\ phase (fold_left handleResponsePacket ps st) = phase st
  /\ exitCode (fold_left handleResponsePacket ps st) = exitCode st
  /\ closedCount (fold_left handleResponsePacket ps st) = closedCount st.
Proof.
  revert st. induction ps as [|p ps IH]; intros st.
  - split; [apply ingress_quiet_refl|repeat split].
  - cbn [fold_left].
    destruct (handleResponsePacket_spec st p) as (Q & A & B & C & D & E).
    destruct (IH (handleResponsePacket st p)) as (Q' & A' & B' & C' & D' & E').
    split; [apply ingress_quiet_trans with (b := handleResponsePacket st p); assumption|].
    repeat split; congruence.
Qed.

(** Bytes from the serial port never stop the process: the handler
    returns, and it writes nothing to the serial port. *)
Lemma onSerialData_spec (st : State) (chunk : list byte) :
  exists st', onSerialData st chunk = Some st'
              /\ ingressQuiet st st' /\ wire st' = wire st
              /\ phase st' = phase st /\ exitCode st' = exitCode st
              /\ closedCount st' = closedCount st.
Proof.
  unfold onSerialData.
  destruct (_transform_total (buffer st) chunk) as (ps & final & T & _).
  rewrite T. eexists. split; [reflexivity|].
  destruct (handleResponsePackets_spec ps (setBuffer st final))
    as (Q & A & B & C & D & E).
  split; [|repeat split; assumption].
  apply ingress_quiet_trans with (b := setBuffer st final); [|exact Q].
  apply ingress_quiet_sessions; try reflexivity. intros Hq. exact Hq.
Qed.

Lemma closedCount_append (st : State) (k : Socket) :
  sk_closed k = false ->
  closedCount (setSockets st (sockets st ++ [k])) = closedCount st.
Proof.
  intros H. unfold closedCount. st_cbn.
  rewrite filter_app, length_app. cbn. rewrite H. cbn. lia.
Qed.

Lemma closedCount_setClosed (st : State) (s : nat) (k : Socket) :
  nth_error (sockets st) s = Some k -> sk_closed k = false ->
  closedCount (updSocket st s skSetClosed) = S (closedCount st).
Proof.
  unfold closedCount. st_cbn.
  generalize (sockets st) as l. intros l. revert s.
  induction l as [|x r IH]; intros [|s]; cbn; try discriminate.
  - intros [= ->] H. now rewrite H.
  - intros N H. destruct (sk_closed x); cbn; now rewrite (IH s N H).
Qed.

Lemma countCmd_app (c : Z) (w : list (list byte)) (f : list byte) :
  countCmd c (w ++ [f])
  = (countCmd c w + (if (frameCmd f =? c)%Z then 1 else 0))%nat.
Proof.
  unfold countCmd. rewrite filter_app, length_app. cbn.
  now destruct (frameCmd f =? c).
Qed.

Lemma onConnection_spec (st : State) (mapping : Mapping) :
  In mapping (portMappings st) ->
  ingressQuiet st (onConnection st mapping)
  /\ wire (onConnection st mapping) = wire st
  /\ phase (onConnection st mapping) = phase st
  /\ exitCode (onConnection st mapping) = exitCode st
  /\ closedCount (onConnection st mapping) = closedCount st.
Proof.
  intros I. split; [|repeat split].
  - apply ingress_quiet_sessions; try reflexivity.
    intros (Hm & Hs & Hc).
    assert (Mok : mappingOK mapping)
      by (revert mapping I; now apply Forall_forall).
    unfold onConnection. split; [|split]; st_cbn; try assumption.
    + apply Forall_app. split; [assumption|]. constructor; [exact Mok|constructor].
    + set (Q := fun b : Map ClientInfo =>
                  Forall (fun e => mappingOK (ci_mapping (snd e))) b).
      set (port := JsNum (localPort mapping)).
      set (byPort := if mapHas (clientsByPort st) port then clientsByPort st
                     else mapSet (clientsByPort st) port []).
      assert (B : Forall (fun e => Q (snd e)) byPort).
      { unfold byPort. destruct (mapHas _ _); [assumption|].
        apply (EgressFacts.Forall_mapSet_snd Q); [assumption|constructor]. }
      apply (EgressFacts.Forall_mapSet_snd Q); [exact B|].
      apply (EgressFacts.Forall_mapSet_snd
               (fun c => mappingOK (ci_mapping c))); [|exact Mok].
      destruct (mapGet byPort port) as [b|] eqn:G; [|constructor].
      exact (Forall_mapGet Q _ _ _ B G).
  - unfold onConnection. st_cbn. unfold closedCount. st_cbn.
    rewrite filter_app, length_app. cbn. lia.
Qed.

Lemma onSocketData_spec (st : State) (k : Socket) (d : list byte) st' :
  onSocketData st k d = Return st' \/ onSocketData st k d = Throw st' ->
  ingressQuiet st st' /\ phase st' = phase st /\ exitCode st' = exitCode st
  /\ sockets st' = sockets st
  /\ countCmd CMD_DISCONNECT (wire st') = countCmd CMD_DISCONNECT (wire st).
Proof.
  unfold onSocketData. destruct (serialOpen st).
  - intros H. split; [eapply ingress_sendPacket_quiet; [left; reflexivity|exact H]|].
    destruct (ingress_sendPacket_cases st CMD_DATA (JsStr (sk_clientId k)) d
                (remoteHost (sk_mapping k)) (remotePort (sk_mapping k)))
      as [(st1 & f & R & W & F & C & S & M & _ & P & E)
         |(st1 & R & W & C & S & M & _ & P & E & _)];
      rewrite R in H; destruct H as [H|H]; try discriminate;
      injection H as <-; repeat split; try assumption.
    + rewrite W, countCmd_app, F. cbn. lia.
    + now rewrite W.
  - intros [H|H]; [|discriminate]. injection H as <-.
    split; [apply ingress_quiet_refl|repeat split].
Qed.

Lemma onSocketClose_spec (st : State) (s : nat) (k : Socket) st' :
  onSocketClose st s k = Return st' \/ onSocketClose st s k = Throw st' ->
  ingressQuiet st st' /\ phase st' = phase st /\ exitCode st' = exitCode st
  /\ sockets st' = sockets (updSocket st s skSetClosed)
  /\ (countCmd CMD_DISCONNECT (wire st')
      <= S (countCmd CMD_DISCONNECT (wire st)))%nat.
Proof.
  unfold onSocketClose.
  set (st0 := updSocket st s skSetClosed).
  set (st1 := match mapGet (clientsByPort st0) (JsNum (localPort (sk_mapping k))) with
              | Some bucket =>
                  setClientsByPort st0
                    (mapSet (clientsByPort st0) (JsNum (localPort (sk_mapping k)))
                       (mapDelete bucket (JsStr (sk_clientId k))))
              | None => st0
              end).
  assert (Q0 : ingressQuiet st st0)
    by (apply ingress_quiet_updSocket; intros x; reflexivity).
  assert (Q1 : ingressQuiet st0 st1
               /\ wire st1 = wire st /\ phase st1 = phase st
               /\ exitCode st1 = exitCode st /\ sockets st1 = sockets st0).
  { unfold st1. destruct (mapGet _ _) as [bucket|] eqn:G.
    - split; [|repeat split].
      apply ingress_quiet_sessions; try reflexivity. now apply portsOK_dropClient.
    - split; [apply ingress_quiet_refl|repeat split]. }
  destruct Q1 as (Q1 & W1 & P1 & E1 & S1).
  assert (Q : ingressQuiet st st1)
    by (apply ingress_quiet_trans with (b := st0); assumption).
  destruct (serialOpen st1).
  - intros H. split.
    + apply ingress_quiet_trans with (b := st1); [exact Q|].
      eapply ingress_sendPacket_quiet; [right; reflexivity|exact H].
    + destruct (ingress_sendPacket_cases st1 CMD_DISCONNECT (JsStr (sk_clientId k)) []
                  (remoteHost (sk_mapping k)) (remotePort (sk_mapping k)))
        as [(st2 & f & R & W & F & C & S & M & _ & P & E)
           |(st2 & R & W & C & S & M & _ & P & E & _)];
        rewrite R in H; destruct H as [H|H]; try discriminate;
        injection H as <-; repeat split; try congruence.
      * rewrite W, countCmd_app, W1. destruct (frameCmd f =? CMD_DISCONNECT); lia.
      * rewrite W, W1. lia.
  - intros [H|H]; [|discriminate].
    assert (X : st' = st1) by congruence. rewrite X.
    split; [exact Q|]. repeat split; try assumption. rewrite W1. lia.
Qed.

(** *** The steps of [gracefulShutdown] *)

Lemma ingress_quiet_setPhase (st : State) (ph : Phase) :
  ph <> Running -> ingressQuiet st (setPhase st ph).
Proof.
  intros H. split; [|split].
  - exists []. split; [now rewrite app_nil_r|constructor].
  - intros Hp. split; [exact Hp|]. intros c Hc. now left.
  - intros _. exact H.
Qed.

Lemma ingress_quiet_exit0 (st : State) : ingressQuiet st (exit st 0).
Proof.
  split; [|split].
  - exists []. split; [now rewrite app_nil_r|constructor].
  - intros Hp. split; [exact Hp|]. intros c Hc. right. st_cbn. congruence.
  - intros H. exact H.
Qed.

Lemma ingress_closeSerial_spec (st : State) :
  ingressQuiet st (closeSerial st) /\ ingressStarted (closeSerial st).
Proof.
  unfold closeSerial, ingressStarted. destruct (serialOpen st).
  - split; [apply ingress_quiet_setPhase|left]; discriminate.
  - split; [apply ingress_quiet_exit0|right; discriminate].
Qed.

Lemma closeServers_spec (st : State) :
  ingressQuiet st (closeServers st) /\ ingressStarted (closeServers st).
Proof.
  unfold closeServers.
  assert (Q0 : ingressQuiet st (setListening st false))
    by (apply ingress_quiet_sessions; try reflexivity; intros Hq; exact Hq).
  destruct (portMappings (setListening st false)).
  - destruct (ingress_closeSerial_spec (setListening st false)) as [Q S].
    split; [apply ingress_quiet_trans with (b := setListening st false); assumption
           |exact S].
  - split; [|left; discriminate].
    apply ingress_quiet_trans with (b := setListening st false);
      [exact Q0|apply ingress_quiet_setPhase; discriminate].
Qed.

Lemma ingress_afterSockets_spec (st : State) :
  ingressQuiet st (afterSockets st) /\ ingressStarted (afterSockets st).
Proof.
  unfold afterSockets.
  destruct (closeServers_spec (setClientsByPort st [])) as [Q S].
  split; [|exact S].
  apply ingress_quiet_trans with (b := setClientsByPort st []); [|exact Q].
  apply ingress_quiet_sessions; try reflexivity.
  intros (Hm & Hs & Hc). split; [exact Hm|split; [exact Hs|constructor]].
Qed.

Lemma ingress_endAll_quiet (targets : list nat) (st : State) :
  ingressQuiet st (fold_left (fun st s => updSocket st s skEnd) targets st).
Proof.
  revert st. induction targets as [|s r IH]; intros st; [apply ingress_quiet_refl|].
  cbn [fold_left]. apply ingress_quiet_trans with (b := updSocket st s skEnd);
    [apply ingress_quiet_updSocket; intros k; reflexivity|apply IH].
Qed.

Lemma ingress_closeSockets_spec (st : State) :
  ingressQuiet st (closeSockets st) /\ ingressStarted (closeSockets st).
Proof.
  unfold closeSockets.
  set (targets := socketsToClose st (clientsByPort st)).
  set (st1 := fold_left (fun st s => updSocket st s skEnd) targets st).
  assert (Q1 : ingressQuiet st st1) by apply ingress_endAll_quiet.
  destruct targets as [|t r].
  - destruct (ingress_afterSockets_spec st1) as [Q S].
    split; [apply ingress_quiet_trans with (b := st1); [exact Q1|exact Q]|exact S].
  - split; [|left; discriminate].
    apply ingress_quiet_trans with (b := st1);
      [exact Q1|apply ingress_quiet_setPhase; discriminate].
Qed.

Lemma ingress_resolveClose_quiet (st : State) (s : nat) :
  ingressQuiet st (resolveClose st s).
Proof.
  unfold resolveClose. destruct (phase st) eqn:P; try apply ingress_quiet_refl.
  destruct (existsb (Nat.eqb s) pending); [|apply ingress_quiet_refl].
  destruct (filter _ pending).
  - apply ingress_afterSockets_spec.
  - apply ingress_quiet_setPhase. discriminate.
Qed.

(** While [gracefulShutdown] has not started, a resolved close changes
    nothing. *)
Lemma resolveClose_running (st : State) (s : nat) :
  phase st = Running -> resolveClose st s = st.
Proof. unfold resolveClose. now intros ->. Qed.

(** The inner loop of step 1: Disconnect frames only; a promise is
    rejected only for a mapping whose port does not fit its field. *)
Lemma disconnectBucket_spec (entries : Map ClientInfo) (st : State)
    (rejected : bool) :
  ingressQuiet st (fst (disconnectBucket st entries rejected))
  /\ phase (fst (disconnectBucket st entries rejected)) = phase st
  /\ exitCode (fst (disconnectBucket st entries rejected)) = exitCode st
  /\ (Forall (fun e => mappingOK (ci_mapping (snd e))) entries ->
      snd (disconnectBucket st entries rejected) = rejected).
Proof.
  revert st rejected.
  induction entries as [|[clientId clientInfo] rest IH]; intros st rejected.
  - cbn. split; [apply ingress_quiet_refl|repeat split].
  - cbn [disconnectBucket].
    destruct (ingress_sendPacket_cases st CMD_DISCONNECT clientId []
                (remoteHost (ci_mapping clientInfo))
                (remotePort (ci_mapping clientInfo)))
      as [(st1 & f & R & W & F & C & S & M & _ & P & E)
         |(st1 & R & W & C & S & M & _ & P & E & N)]; rewrite R.
    + destruct (IH st1 rejected) as (Q & P' & E' & J).
      split; [|repeat split; try congruence].
      * apply ingress_quiet_trans with (b := st1); [|exact Q].
        eapply ingress_sendPacket_quiet; [right; reflexivity|left; exact R].
      * intros H. inversion H; subst. auto.
    + destruct (IH st1 true) as (Q & P' & E' & J).
      split; [|repeat split; try congruence].
      * apply ingress_quiet_trans with (b := st1); [|exact Q].
        eapply ingress_sendPacket_quiet; [right; reflexivity|right; exact R].
      * intros H. inversion H as [|? ? Hm Hr]; subst. exfalso. apply N.
        unfold CMD_DISCONNECT, maxDataLength. cbn [List.length snd] in *.
        repeat split; try apply Hm; lia.
Qed.

Lemma disconnectAll_spec (byPort : Map (Map ClientInfo)) (st : State)
    (rejected : bool) :
  ingressQuiet st (fst (disconnectAll st byPort rejected))
  /\ phase (fst (disconnectAll st byPort rejected)) = phase st
  /\ exitCode (fst (disconnectAll st byPort rejected)) = exitCode st
  /\ (Forall (fun b => Forall (fun e => mappingOK (ci_mapping (snd e))) (snd b))
        byPort ->
      snd (disconnectAll st byPort rejected) = rejected).
Proof.
  revert st rejected.
  induction byPort as [|[port clients] rest IH]; intros st rejected.
  - cbn. split; [apply ingress_quiet_refl|repeat split].
  - cbn [disconnectAll].
    destruct (disconnectBucket_spec clients st rejected) as (Q & P & E & J).
    destruct (disconnectBucket st clients rejected) as [st1 r1].
    cbn [fst snd] in *.
    destruct (IH st1 r1) as (Q' & P' & E' & J').
    split; [apply ingress_quiet_trans with (b := st1); assumption|].
    repeat split; try congruence.
    intros H. inversion H; subst. rewrite J' by assumption. auto.
Qed.

(** [gracefulShutdown] writes session frames only, and is under way or
    over when it returns. *)
Lemma ingress_gracefulShutdown_spec (st : State) :
  ingressQuiet st (gracefulShutdown st)
  /\ ingressStarted (gracefulShutdown st).
Proof.
  unfold gracefulShutdown. destruct (serialOpen st); [|apply ingress_closeSockets_spec].
  destruct (disconnectAll_spec (clientsByPort st) st false) as (Q & P & E & J).
  destruct (disconnectAll st (clientsByPort st) false) as [st1 rejected].
  cbn [fst snd] in *.
  destruct (anyClient (clientsByPort st)).
  - destruct rejected.
    + split; [|right; discriminate].
      destruct Q as (W & S & Ph). split; [|split].
      * exact W.
      * intros Hp. specialize (J (proj2 (proj2 Hp))). discriminate J.
      * exact Ph.
    + split; [|left; discriminate].
      apply ingress_quiet_trans with (b := st1);
        [exact Q|apply ingress_quiet_setPhase; discriminate].
  - destruct (ingress_closeSockets_spec st1) as [Q2 S2].
    split; [apply ingress_quiet_trans with (b := st1); assumption|exact S2].
Qed.

(** *** Steps and runs *)

Lemma startShutdown_spec (mid st' : State) :
  startShutdown mid = Some st' ->
  ingressQuiet mid st' /\ ingressStarted st'.
Proof.
  unfold startShutdown. destruct (phase mid); try discriminate.
  intros [= <-]. apply ingress_gracefulShutdown_spec.
Qed.

(** Every step of the ingress is quiet: whatever happens, the frames it
    writes are Data and Disconnect frames. *)
Lemma step_quiet (st : State) (ev : Event) (st' : State) :
  step st ev = Some st' -> ingressQuiet st st'.
Proof.
  unfold step. destruct (exitCode st); [discriminate|].
  destruct ev as [chunk|i|s d|s|s| | | |s| | |].
  - intros H. destruct (onSerialData_spec st chunk) as (x & X & Q & _).
    congruence.
  - destruct (nth_error (portMappings st) i) as [m|] eqn:N; [|discriminate].
    destruct (listening st); [|discriminate]. intros [= <-].
    apply onConnection_spec. now apply nth_error_In in N.
  - destruct (nth_error (sockets st) s) as [k|] eqn:N; [|discriminate].
    destruct (negb _); [|discriminate].
    destruct (onSocketData st k d) as [st1|st1] eqn:O; cbn [settle].
    + intros [= <-]. now apply (onSocketData_spec st k d st1); left.
    + destruct (onSocketData_spec st k d st1 (or_intror O)) as (Q & _).
      intros H. apply ingress_quiet_trans with (b := st1); [exact Q|].
      now apply startShutdown_spec.
  - destruct (nth_error (sockets st) s) as [k|] eqn:N; [|discriminate].
    destruct (negb _); [|discriminate].
    destruct (onSocketClose st s k) as [st1|st1] eqn:O.
    + destruct (onSocketClose_spec st s k st1 (or_introl O)) as (Q & _).
      intros [= <-].
      apply ingress_quiet_trans with (b := st1); [exact Q|apply ingress_resolveClose_quiet].
    + destruct (onSocketClose_spec st s k st1 (or_intror O)) as (Q & _).
      intros H. apply ingress_quiet_trans with (b := st1); [exact Q|].
      now apply startShutdown_spec.
  - destruct (nth_error (sockets st) s) as [k|] eqn:N; [|discriminate].
    destruct (negb _); [|discriminate]. intros [= <-]. apply ingress_quiet_refl.
  - destruct (immediates st) as [|n]; [discriminate|]. intros H.
    apply ingress_quiet_trans with (b := setImmediates st n);
      [|now apply startShutdown_spec].
    apply ingress_quiet_sessions; try reflexivity. intros Hq. exact Hq.
  - intros H. now apply startShutdown_spec.
  - destruct (phase st); try discriminate. intros [= <-].
    apply ingress_closeSockets_spec.
  - destruct (phase st) eqn:P; try discriminate.
    destruct (existsb (Nat.eqb s) pending); [|discriminate].
    intros [= <-]. destruct (socketDestroyed st s).
    + apply ingress_resolveClose_quiet.
    + apply ingress_quiet_trans with (b := updSocket st s skDestroy);
        [apply ingress_quiet_updSocket; intros x; reflexivity|apply ingress_resolveClose_quiet].
  - destruct (phase st); try discriminate. intros [= <-].
    apply ingress_closeSerial_spec.
  - destruct (phase st); try discriminate. intros [= <-].
    apply ingress_quiet_trans with (b := setSerialOpen st false);
      [|apply ingress_quiet_exit0].
    apply ingress_quiet_sessions; try reflexivity. intros Hq. exact Hq.
  - destruct (phase st); try discriminate. intros [= <-].
    apply ingress_quiet_exit0.
Qed.

Lemma run_quiet (trace : list Event) (st st' : State) :
  run st trace = Some st' -> ingressQuiet st st'.
Proof.
  revert st. induction trace as [|ev rest IH]; intros st; cbn [run].
  - intros [= <-]. apply ingress_quiet_refl.
  - destruct (step st ev) as [st1|] eqn:E; [|discriminate].
    intros H. apply ingress_quiet_trans with (b := st1);
      [now apply (step_quiet st ev)|now apply IH].
Qed.

Lemma tally_same (st st' : State) :
  wire st' = wire st -> closedCount st' = closedCount st ->
  ingressTally st st'.
Proof. unfold ingressTally. intros -> ->. lia. Qed.

(** While [gracefulShutdown] has not been called, a step writes a
    Disconnect frame only when a socket emits ['close']. *)
Lemma step_tally (st : State) (ev : Event) (st' : State) :
  step st ev = Some st' -> ingressLive st' ->
  ingressLive st /\ ingressTally st st'.
Proof.
  intros H [PL EL].
  pose proof (step_quiet st ev st' H) as (_ & _ & Ph).
  assert (PR : phase st = Running).
  { destruct (phase st) eqn:P; try reflexivity; exfalso;
      (apply Ph; [rewrite P; discriminate|assumption]). }
  assert (NoStart : forall mid, startShutdown mid = Some st' -> False).
  { intros mid S. apply startShutdown_spec in S as [_ [S|S]]; auto. }
  unfold step in H. destruct (exitCode st) eqn:EX; [discriminate|].
  split; [split; assumption|].
  destruct ev as [chunk|i|s d|s|s| | | |s| | |]; rewrite ?PR in H;
    try discriminate.
  - destruct (onSerialData_spec st chunk) as (x & X & _ & W & _ & _ & C).
    rewrite X in H. injection H as <-. now apply tally_same.
  - destruct (nth_error (portMappings st) i) as [m|] eqn:N; [|discriminate].
    destruct (listening st); [|discriminate]. injection H as <-.
    apply nth_error_In in N.
    destruct (onConnection_spec st m N) as (_ & W & _ & _ & C).
    now apply tally_same.
  - destruct (nth_error (sockets st) s) as [k|] eqn:N; [|discriminate].
    destruct (negb _); [|discriminate].
    destruct (onSocketData st k d) as [st1|st1] eqn:O; cbn [settle] in H.
    + injection H as <-.
      destruct (onSocketData_spec st k d st1 (or_introl O))
        as (_ & _ & _ & S & C).
      unfold ingressTally, closedCount. rewrite S, C. lia.
    + exfalso. now apply (NoStart st1).
  - destruct (nth_error (sockets st) s) as [k|] eqn:N; [|discriminate].
    destruct (sk_closed k) eqn:K; [discriminate|]. cbn [negb] in H.
    destruct (onSocketClose st s k) as [st1|st1] eqn:O.
    + destruct (onSocketClose_spec st s k st1 (or_introl O))
        as (_ & P & _ & S & C).
      rewrite resolveClose_running in H by congruence. injection H as <-.
      pose proof (closedCount_setClosed st s k N K) as CC.
      unfold ingressTally, closedCount in *. rewrite S, CC. lia.
    + exfalso. now apply (NoStart st1).
  - destruct (nth_error (sockets st) s) as [k|] eqn:N; [|discriminate].
    destruct (negb _); [|discriminate]. injection H as <-.
    now apply tally_same.
  - destruct (immediates st); [discriminate|]. exfalso.
    now apply (NoStart _ H).
  - exfalso. now apply (NoStart _ H).
Qed.

Lemma run_tally (trace : list Event) (st st' : State) :
  run st trace = Some st' -> ingressLive st' ->
  ingressLive st /\ ingressTally st st'.
Proof.
  revert st. induction trace as [|ev rest IH]; intros st; cbn [run].
  - intros [= <-] L. split; [exact L|]. unfold ingressTally. lia.
  - destruct (step st ev) as [st1|] eqn:E; [|discriminate].
    intros H L. destruct (IH st1 H L) as [L1 T1].
    destruct (step_tally st ev st1 E L1) as [L0 T0].
    split; [exact L0|]. unfold ingressTally in *. lia.
Qed.

End IngressFacts.

(** ** The framer has no ceiling *)

Module Ceiling.
Import Js JsFacts Codec Wire CodecFacts FramerFacts StoreFacts Vocabulary Samples.

(** C4, the statement as first written. A header that announces more
    than the recommended ceiling does not stop either side: the process
    does not exit, no session is touched, and the bytes are kept while
    the framer waits for the payload. *)
Lemma oversize_frame_counterexample :
  recommendedCeiling < readUInt32BE oversizeHeader 23
  /\ (exists st',
        Ingress.step (Ingress.init [echoMapping] rngConst)
          (Ingress.SerialData oversizeHeader) = Some st'
        /\ Ingress.exitCode st' = None
        /\ Ingress.phase st' = Ingress.Running
        /\ Ingress.buffer st' = oversizeHeader)
  /\ (exists st',
        Egress.step (Egress.init rngConst)
          (Egress.SerialData oversizeHeader) = Some st'
        /\ Egress.exitCode st' = None
        /\ Egress.phase st' = Egress.Running
        /\ Egress.buffer st' = oversizeHeader).
Proof.
  split; [reflexivity|].
  split; eexists; (split; [vm_compute; reflexivity|]); repeat split.
Qed.

Lemma extract_short (all : list byte) :
  (27 <= List.length all)%nat ->
  Z.of_nat (List.length all) < 27 + readUInt32BE all 23 ->
  extract all = None.
Proof.
  intros L Short. unfold extract.
  replace (27 <=? List.length all)%nat with true
    by (symmetry; now apply Nat.leb_le).
  replace (27 + readUInt32BE all 23 <=? Z.of_nat (List.length all))
    with false by (symmetry; apply Z.leb_gt; lia).
  reflexivity.
Qed.

(** While no whole frame is at its head, everything is kept. *)
Lemma feed_waits (chunks : list (list byte)) :
  forall buffer,
    extract (buffer ++ List.concat chunks) = None ->
    feed buffer chunks = Some ([], buffer ++ List.concat chunks).
Proof.
  induction chunks as [|c cs IH]; intros buffer N.
  - cbn. now rewrite app_nil_r.
  - cbn [feed List.concat] in *. rewrite app_assoc in N.
    unfold _transform.
    rewrite (transformLoop_none _ _ (extract_prefix_none _ _ N)).
    rewrite (IH _ N). now rewrite <- app_assoc.
Qed.

Lemma ingress_run_waits (chunks : list (list byte)) :
  forall st,
    Ingress.exitCode st = None ->
    extract (Ingress.buffer st ++ List.concat chunks) = None ->
    Ingress.run st (map Ingress.SerialData chunks)
    = Some (Ingress.setBuffer st (Ingress.buffer st ++ List.concat chunks)).
Proof.
  induction chunks as [|c cs IH]; intros st X N.
  - cbn. rewrite app_nil_r. now destruct st.
  - cbn [map Ingress.run List.concat] in *. rewrite app_assoc in N.
    unfold Ingress.step, Ingress.onSerialData, _transform. rewrite X.
    rewrite (transformLoop_none _ _ (extract_prefix_none _ _ N)).
    cbn [fold_left].
    rewrite (IH (Ingress.setBuffer st (Ingress.buffer st ++ c)) X N).
    cbn [Ingress.buffer Ingress.setBuffer]. now rewrite <- app_assoc.
Qed.

Lemma egress_run_waits (chunks : list (list byte)) :
  forall st,
    Egress.exitCode st = None ->
    extract (Egress.buffer st ++ List.concat chunks) = None ->
    Egress.run st (map Egress.SerialData chunks)
    = Some (Egress.setBuffer st (Egress.buffer st ++ List.concat chunks)).
Proof.
  induction chunks as [|c cs IH]; intros st X N.
  - cbn. rewrite app_nil_r. now destruct st.
  - cbn [map Egress.run List.concat] in *. rewrite app_assoc in N.
    unfold Egress.step, Egress.onSerialData, _transform. rewrite X.
    rewrite (transformLoop_none _ _ (extract_prefix_none _ _ N)).
    cbn [fold_left].
    rewrite (IH (Egress.setBuffer st (Egress.buffer st ++ c)) X N).
    cbn [Egress.buffer Egress.setBuffer]. now rewrite <- app_assoc.
Qed.

(** C4, as amended. The framer applies no ceiling to [data_len].  With a
    whole header received, and for as long as the payload that the
    header announces is not complete, whatever its length and however
    the bytes are cut into chunks: the framer keeps every byte and emits
    nothing, and on either side the whole effect of the bytes is that
    they are appended to the buffer; the process does not exit, no
    shutdown is started or scheduled, nothing is written.  Once the
    announced bytes are there, the framer delivers a frame with the cmd
    of the header and a payload of the announced length. *)
Theorem no_data_len_ceiling (buffer : list byte) (chunks : list (list byte)) :
  let all := buffer ++ List.concat chunks in
  (27 <= List.length all)%nat ->
  (Z.of_nat (List.length all) < 27 + readUInt32BE all 23 ->
   feed buffer chunks = Some ([], all)
   /\ (forall st,
         Ingress.buffer st = buffer -> Ingress.exitCode st = None ->
         Ingress.run st (map Ingress.SerialData chunks)
         = Some (Ingress.setBuffer st all))
   /\ (forall st,
         Egress.buffer st = buffer -> Egress.exitCode st = None ->
         Egress.run st (map Egress.SerialData chunks)
         = Some (Egress.setBuffer st all)))
  /\ (27 + readUInt32BE all 23 <= Z.of_nat (List.length all) ->
      exists p ps final,
        _transform buffer (List.concat chunks) = Some (p :: ps, final)
        /\ cmd p = readUInt8 all 0
        /\ Z.of_nat (List.length (data p)) = readUInt32BE all 23
        /\ data p = subarray all 27 (27 + Z.to_nat (readUInt32BE all 23))).
Proof.
  intros all L. split.
  - intros Short. pose proof (extract_short all L Short) as N.
    split; [now apply feed_waits|]. split.
    + intros st <- X. now apply ingress_run_waits.
    + intros st <- X. now apply egress_run_waits.
  - intros Long.
    assert (E : exists rest,
               extract all
               = Some (mkPacket (readUInt8 all 0) (toHex (subarray all 1 17))
                         (joinDots (map byteToString (subarray all 17 21)))
                         (readUInt16BE all 21)
                         (subarray all 27
                            (27 + Z.to_nat (readUInt32BE all 23))),
                       rest)).
    { unfold extract.
      replace (27 <=? List.length all)%nat with true
        by (symmetry; now apply Nat.leb_le).
      replace (27 + readUInt32BE all 23 <=? Z.of_nat (List.length all))
        with true by (symmetry; apply Z.leb_le; lia).
      eexists; reflexivity. }
    destruct E as (rest & E).
    pose proof (extract_length _ _ _ E) as EL.
    destruct (extract_ranges _ _ _ E) as (_ & _ & D & _).
    unfold _transform. fold all.
    destruct (List.length all) as [|fuel] eqn:LA; [lia|].
    destruct (transformLoop_total fuel rest ltac:(lia)) as (ps & final & T & _).
    exists (mkPacket (readUInt8 all 0) (toHex (subarray all 1 17))
              (joinDots (map byteToString (subarray all 17 21)))
              (readUInt16BE all 21)
              (subarray all 27 (27 + Z.to_nat (readUInt32BE all 23)))),
      ps, final.
    split; [|split; [reflexivity|split; [exact D|reflexivity]]].
    cbn [transformLoop]. now rewrite E, T.
Qed.

(** A header that announces 16 MiB + 1 bytes, in three chunks with the
    first byte of its payload: both sides keep the 28 bytes and do
    nothing else.  The header with its last byte set to zero and the
    three bytes it then announces is delivered. *)
Lemma no_data_len_ceiling_witness :
  Ingress.run (Ingress.init [echoMapping] rngConst)
    (map Ingress.SerialData
       [firstn 10 oversizeHeader; skipn 10 oversizeHeader; [x61]])
  = Some (Ingress.setBuffer (Ingress.init [echoMapping] rngConst)
            (oversizeHeader ++ [x61]))
  /\ exists p ps final,
       _transform (firstn 23 oversizeHeader)
         [x00; x00; x00; x03; x61; x62; x63] = Some (p :: ps, final)
       /\ data p = [x61; x62; x63].
Proof.
  split.
  - destruct (no_data_len_ceiling []
                [firstn 10 oversizeHeader; skipn 10 oversizeHeader; [x61]]
                ltac:(cbn; lia)) as [S _].
    destruct S as (_ & I & _); [vm_compute; reflexivity|].
    exact (I (Ingress.init [echoMapping] rngConst) eq_refl eq_refl).
  - destruct (no_data_len_ceiling (firstn 23 oversizeHeader)
                [[x00; x00; x00; x03; x61; x62; x63]] ltac:(cbn; lia))
      as [_ D].
    destruct D as (p & ps & final & T & _ & _ & Dp);
      [vm_compute; discriminate|].
    exists p, ps, final. split; [exact T|]. rewrite Dp. reflexivity.
Defined.

End Ceiling.

(** ** Shutdown: ProgramClose and the exit status *)

Module Shutdown.
Import Js JsFacts Codec Wire CodecFacts FramerFacts StoreFacts Vocabulary Samples.

(** C5, the statement as first written. The egress that receives a
    ProgramClose frame does nothing: [handlePacket] has no case for it,
    [gracefulShutdown] is not called and the state is the initial one. *)
Lemma program_close_ignored_by_egress_counterexample :
  Egress.step (Egress.init rngConst)
    (Egress.SerialData (bytesOf frameProgramClose))
  = Some (Egress.init rngConst)
  /\ Egress.phase (Egress.init rngConst) = Egress.Running
  /\ Egress.exitCode (Egress.init rngConst) = None.
Proof. repeat split. Qed.

(** C5, as amended. A ProgramClose frame makes the ingress schedule
    [gracefulShutdown], and the scheduled call is the very call that a
    signal makes; the egress ignores the frame. *)
Theorem program_close_reception (p : Packet) :
  cmd p = CMD_PROGRAM_CLOSE ->
  (forall st,
      Ingress.handleResponsePacket st p
      = Ingress.setImmediates st (S (Ingress.immediates st)))
  /\ (forall st,
        Ingress.step (Ingress.handleResponsePacket st p) Ingress.Immediate
        = Ingress.step st Ingress.Signal)
  /\ (forall st, Egress.handlePacket st p = st).
Proof.
  intros H.
  assert (A : forall st,
             Ingress.handleResponsePacket st p
             = Ingress.setImmediates st (S (Ingress.immediates st))).
  { intros st. unfold Ingress.handleResponsePacket. now rewrite H. }
  split; [exact A|split].
  - intros st. rewrite A. unfold Ingress.step.
    destruct st as [c m l so b se w r d i ph ex]. cbn. reflexivity.
  - intros st. unfold Egress.handlePacket. now rewrite H.
Qed.

Lemma program_close_reception_witness :
  Ingress.handleResponsePacket (Ingress.init [echoMapping] rngConst)
    frameProgramClose
  = Ingress.setImmediates (Ingress.init [echoMapping] rngConst) 1
  /\ Egress.handlePacket (Egress.init rngConst) frameProgramClose
     = Egress.init rngConst.
Proof.
  destruct (program_close_reception frameProgramClose eq_refl) as (A & _ & C).
  split; [apply A|apply C].
Defined.

(** C6, the statement as first written. The ingress that shuts down
    with one session open writes one Disconnect and no ProgramClose. *)
Lemma ingress_sends_no_program_close_counterexample :
  exists st',
    Ingress.run (Ingress.init [echoMapping] rngConst)
      [Ingress.Connection 0; Ingress.Signal] = Some st'
    /\ map frameCmd (Ingress.wire st') = [CMD_DISCONNECT].
Proof. eexists. split; [vm_compute; reflexivity|reflexivity]. Qed.

(** C6, as amended. On the egress a shutdown that starts with the serial
    port open writes one ProgramClose frame, first: whatever happens
    afterwards, every other frame written since the shutdown began is a
    Data or a Disconnect frame and comes after it.  The ingress never
    writes a ProgramClose frame, in a shutdown or otherwise. *)
Theorem program_close_first
    (st : Egress.State) (trace : list Egress.Event) (st' : Egress.State) :
  Egress.phase st = Egress.Running ->
  Egress.serialOpen st = true ->
  Egress.run st (Egress.Signal :: trace) = Some st' ->
  (exists pc rest,
      Egress.wire st' = Egress.wire st ++ pc :: rest
      /\ frameCmd pc = CMD_PROGRAM_CLOSE
      /\ Forall sessionFrame rest)
  /\ (forall ist itrace ist',
        Ingress.run ist itrace = Some ist' ->
        exists new,
          Ingress.wire ist' = Ingress.wire ist ++ new
          /\ Forall sessionFrame new).
Proof.
  intros P O R. split.
  - cbn [Egress.run] in R. unfold Egress.step in R.
    destruct (Egress.exitCode st); [discriminate|].
    unfold Egress.startShutdown in R. rewrite P in R.
    destruct (EgressFacts.egress_gracefulShutdown_spec st) as (_ & _ & G & _).
    destruct (G O) as (pc & W & F & P1 & _).
    assert (N : Egress.phase (Egress.gracefulShutdown st) <> Egress.Running)
      by (rewrite P1; discriminate).
    destruct (EgressFacts.run_started _ _ _ N R) as (rest & W2 & F2).
    exists pc, rest. split; [|split; assumption].
    now rewrite W2, W, <- app_assoc.
  - intros ist itrace ist' IR. apply IngressFacts.run_quiet in IR.
    exact (proj1 IR).
Qed.

(** The egress with one session open shuts down: ProgramClose, then the
    Disconnect of the session. *)
Lemma program_close_first_witness :
  exists st0 st',
    Egress.run (Egress.init rngConst)
      [Egress.SerialData (bytesOf frameData); Egress.Connect 0] = Some st0
    /\ Egress.run st0 [Egress.Signal; Egress.Resume] = Some st'
    /\ exists pc rest,
         Egress.wire st' = Egress.wire st0 ++ pc :: rest
         /\ frameCmd pc = CMD_PROGRAM_CLOSE
         /\ Forall sessionFrame rest.
Proof.
  eexists. eexists. split; [vm_compute; reflexivity|].
  split; [vm_compute; reflexivity|].
  eapply program_close_first with (trace := [Egress.Resume]);
    [reflexivity|reflexivity|vm_compute; reflexivity].
Defined.


(** C8, the statement as first written. The shutdown of an egress whose
    socket does not close in time (the 3 s timer destroys it) and whose
    serial port does not close in time either ends with status 0. *)
Lemma expired_waits_exit_zero_counterexample :
  exists st',
    Egress.run (Egress.init rngConst)
      [Egress.SerialData (bytesOf frameData); Egress.Connect 0;
       Egress.Signal; Egress.Resume; Egress.Resume;
       Egress.CloseTimeout 0; Egress.SerialTimeout] = Some st'
    /\ Egress.exitCode st' = Some 0
    /\ map Egress.sk_closed (Egress.sockets st') = [false]
    /\ Egress.serialOpen st' = true.
Proof. eexists. split; [vm_compute; reflexivity|repeat split]. Qed.

(** C8, as amended. Whatever the events, and whether the bounded waits
    complete or expire, a side that has exited has exited with status
    0: an expired wait only forces the close and the sequence goes on.
    (Status 1 is left to an exception inside the sequence, which needs a
    target port outside 0..65535; the egress never holds one, the
    ingress only if a mapping has one.) *)
Theorem shutdown_exit_status
    (mappings : list Ingress.Mapping) (rng : nat -> list byte) :
  Forall mappingOK mappings ->
  (forall trace st c,
      Ingress.run (Ingress.init mappings rng) trace = Some st ->
      Ingress.exitCode st = Some c -> c = 0)
  /\ (forall trace st c,
        Egress.run (Egress.init rng) trace = Some st ->
        Egress.exitCode st = Some c -> c = 0).
Proof.
  intros M. split.
  - intros trace st c R E.
    destruct (IngressFacts.run_quiet _ _ _ R) as (_ & S & _).
    destruct S as [_ X].
    + split; [exact M|split; constructor].
    + destruct (X c E) as [H|H]; [discriminate H|exact H].
  - intros trace st c R E.
    destruct (EgressFacts.run_sound _ _ _ R) as [_ X].
    + split; constructor.
    + destruct (X c E) as [H|H]; [discriminate H|exact H].
Qed.

Lemma shutdown_exit_status_witness :
  Forall mappingOK [echoMapping]
  /\ exists st,
       Egress.run (Egress.init rngConst)
         [Egress.SerialData (bytesOf frameData); Egress.Connect 0;
          Egress.Signal; Egress.Resume; Egress.Resume;
          Egress.CloseTimeout 0; Egress.SerialTimeout] = Some st
       /\ forall c, Egress.exitCode st = Some c -> c = 0.
Proof.
  assert (M : Forall mappingOK [echoMapping])
    by (constructor; [vm_compute; split; discriminate|constructor]).
  split; [exact M|].
  eexists. split; [vm_compute; reflexivity|].
  intros c. apply (proj2 (shutdown_exit_status [echoMapping] rngConst M)
                     [Egress.SerialData (bytesOf frameData); Egress.Connect 0;
                      Egress.Signal; Egress.Resume; Egress.Resume;
                      Egress.CloseTimeout 0; Egress.SerialTimeout]).
  vm_compute. reflexivity.
Defined.

End Shutdown.

(** ** Egress: dials *)

Module Dial.
Import Js JsFacts Codec Wire CodecFacts FramerFacts StoreFacts Vocabulary Samples.
Import Egress.

(** C7. A Data frame for an unknown id whose dial fails: the payload is
    written nowhere, and the egress writes no frame on the serial
    port, so no Disconnect reaches the ingress. *)
Theorem dial_failure_emits_nothing :
  exists st',
    run (init rngConst)
      [SerialData (bytesOf frameData); ConnectError 0] = Some st'
    /\ wire st' = []
    /\ clients st' = []
    /\ map sk_written (sockets st') = [[]]
    /\ map sk_destroyed (sockets st') = [true].
Proof. eexists. split; [vm_compute; reflexivity|repeat split]. Qed.



Lemma consistent_sockets (st st' : State) :
  clients st' = clients st ->
  (forall i k, nth_error (sockets st) i = Some k ->
               exists k', nth_error (sockets st') i = Some k'
                          /\ sk_clientId k' = sk_clientId k) ->
  egressConsistent st -> egressConsistent st'.
Proof.
  intros C S H key client I. rewrite C in I.
  destruct (H key client I) as (k & N & K & Cn).
  destruct (S _ _ N) as (k' & N' & E).
  exists k'. repeat split; [exact N'|now rewrite E|exact Cn].
Qed.

Lemma consistent_updSocket (st : State) (s : nat) (f : Socket -> Socket) :
  (forall k, sk_clientId (f k) = sk_clientId k) ->
  egressConsistent st -> egressConsistent (updSocket st s f).
Proof.
  intros Hf. apply consistent_sockets; [reflexivity|].
  intros i k N. cbn [updSocket sockets setSockets].
  destruct (Nat.eq_dec s i) as [->|Ne].
  - rewrite nth_error_updateAt_same, N. exists (f k). auto.
  - rewrite nth_error_updateAt_other by assumption. exists k. auto.
Qed.

Lemma consistent_mapDelete (st : State) (key : JsValue) :
  egressConsistent st ->
  egressConsistent (setClients st (mapDelete (clients st) key)).
Proof.
  intros H k c I. cbn [clients setClients] in I.
  apply mapDelete_In in I. exact (H k c I).
Qed.

Lemma skWrite_clientId d k : sk_clientId (skWrite d k) = sk_clientId k.
Proof.
  unfold skWrite, skDestroy.
  repeat match goal with
         | |- context [if ?b then _ else _] => destruct b
         end; reflexivity.
Qed.

Lemma handlePacket_consistent (st : State) (p : Packet) :
  egressConsistent st -> egressConsistent (handlePacket st p).
Proof.
  intros H. unfold handlePacket.
  destruct (cmd p =? CMD_DATA).
  - destruct (mapGet _ _) as [client|].
    + destruct (ci_connected client); [|exact H].
      apply consistent_updSocket; [apply skWrite_clientId|exact H].
    + revert H. apply consistent_sockets; [reflexivity|].
      intros i k N. exists k. split; [|reflexivity].
      cbn [createTargetConnection sockets setSockets].
      rewrite nth_error_app1; [exact N|].
      apply nth_error_Some. congruence.
  - destruct (cmd p =? CMD_DISCONNECT); [|exact H].
    destruct (mapGet _ _) as [client|]; [|exact H].
    apply (consistent_mapDelete (updSocket st (ci_socket client) skEnd)).
    apply consistent_updSocket; [reflexivity|exact H].
Qed.

(** A registered session: the id is in the table, its socket is open
    for writing. *)
Lemma registered_socket (st : State) (id : string) client :
  egressConsistent st ->
  mapGet (clients st) (JsStr id) = Some client ->
  exists k,
    nth_error (sockets st) (ci_socket client) = Some k
    /\ sk_clientId k = id /\ ci_connected client = true.
Proof.
  intros H G. apply mapGet_In in G as (key & I & S).
  apply sameValueZero_str in S. subst key.
  destruct (H _ _ I) as (k & N & K & C).
  exists k. repeat split; [exact N|congruence|exact C].
Qed.

(** One packet, seen from a registered session: unless it is the
    Disconnect of the session, the session stays registered with the
    same socket, and the socket receives the payload if the packet is
    a Data frame of the session and nothing otherwise. *)
Lemma handlePacket_delivers (st : State) (id : string) client k (p : Packet) :
  egressConsistent st ->
  mapGet (clients st) (JsStr id) = Some client ->
  nth_error (sockets st) (ci_socket client) = Some k ->
  sk_connected k = true -> sk_destroyed k = false -> sk_ended k = false ->
  ~ (cmd p = CMD_DISCONNECT /\ clientId p = id) ->
  mapGet (clients (handlePacket st p)) (JsStr id) = Some client
  /\ exists k',
       nth_error (sockets (handlePacket st p)) (ci_socket client) = Some k'
       /\ sk_connected k' = true /\ sk_destroyed k' = false
       /\ sk_ended k' = false
       /\ sk_written k' = sk_written k ++ payloadsFor id [p].
Proof.
  intros H G N Cn D E ND.
  destruct (registered_socket st id client H G) as (k0 & N0 & Kid & Cc).
  rewrite N in N0. injection N0 as <-.
  assert (Other : forall other,
             clientId p <> id ->
             mapGet (clients st) (JsStr (clientId p)) = Some other ->
             ci_socket other <> ci_socket client).
  { intros other Ne Go.
    destruct (registered_socket st _ other H Go) as (ko & No & Ko & _).
    intros Eq. rewrite Eq, N in No. congruence. }
  unfold handlePacket, payloadsFor. cbn [filter map].
  destruct (cmd p =? CMD_DATA) eqn:Cd; cbn [andb].
  - destruct (String.eqb (clientId p) id) eqn:Ei.
    + apply String.eqb_eq in Ei. rewrite Ei, G, Cc.
      split; [exact G|]. exists (skWrite (data p) k).
      cbn [updSocket sockets setSockets].
      rewrite nth_error_updateAt_same, N.
      split; [reflexivity|].
      unfold skWrite. rewrite Cn, D, E. cbn. repeat split; assumption.
    + apply String.eqb_neq in Ei. cbn [map]. rewrite app_nil_r.
      destruct (mapGet (clients st) (JsStr (clientId p))) as [other|] eqn:Go.
      * destruct (ci_connected other).
        -- split; [exact G|]. exists k.
           cbn [updSocket sockets setSockets].
           rewrite nth_error_updateAt_other by now apply Other.
           repeat split; assumption.
        -- split; [exact G|]. exists k. repeat split; assumption.
      * split; [exact G|]. exists k.
        cbn [createTargetConnection sockets setSockets].
        rewrite nth_error_app1 by (apply nth_error_Some; congruence).
        repeat split; assumption.
  - cbn [map]. rewrite app_nil_r.
    destruct (cmd p =? CMD_DISCONNECT) eqn:Cx.
    + assert (Ne : clientId p <> id)
        by (intros Eq; apply ND; split; [now apply Z.eqb_eq|exact Eq]).
      destruct (mapGet (clients st) (JsStr (clientId p))) as [other|] eqn:Go.
      * cbn [clients setClients updSocket sockets setSockets].
        rewrite mapGet_mapDelete_other by congruence.
        split; [exact G|]. exists k.
        rewrite nth_error_updateAt_other by now apply Other.
        repeat split; assumption.
      * split; [exact G|]. exists k. repeat split; assumption.
    + split; [exact G|]. exists k. repeat split; assumption.
Qed.

Lemma payloadsFor_cons (id : string) (p : Packet) (ps : list Packet) :
  payloadsFor id (p :: ps) = payloadsFor id [p] ++ payloadsFor id ps.
Proof.
  unfold payloadsFor. cbn [filter].
  destruct (_ && _); reflexivity.
Qed.

(** Every Data frame for a registered session reaches the socket of the
    session, in the order of arrival. *)
Lemma handlePackets_deliver (ps : list Packet) :
  forall (st : State) (id : string) client k,
    egressConsistent st ->
    mapGet (clients st) (JsStr id) = Some client ->
    nth_error (sockets st) (ci_socket client) = Some k ->
    sk_connected k = true -> sk_destroyed k = false -> sk_ended k = false ->
    noDisconnectFor id ps ->
    mapGet (clients (fold_left handlePacket ps st)) (JsStr id) = Some client
    /\ exists k',
         nth_error (sockets (fold_left handlePacket ps st)) (ci_socket client)
         = Some k'
         /\ sk_written k' = sk_written k ++ payloadsFor id ps.
Proof.
  induction ps as [|p ps IH]; intros st id client k H G N Cn D E ND.
  - split; [exact G|]. exists k. split; [exact N|].
    now rewrite app_nil_r.
  - inversion ND as [|? ? NDp NDr]; subst. cbn [fold_left].
    destruct (handlePacket_delivers st id client k p H G N Cn D E NDp)
      as (G1 & k1 & N1 & Cn1 & D1 & E1 & W1).
    destruct (IH (handlePacket st p) id client k1
                (handlePacket_consistent st p H) G1 N1 Cn1 D1 E1 NDr)
      as (G2 & k2 & N2 & W2).
    split; [exact G2|]. exists k2. split; [exact N2|].
    rewrite W2, W1, (payloadsFor_cons id p ps). now rewrite app_assoc.
Qed.

Lemma onConnect_consistent (st : State) (s : nat) (k : Socket) :
  egressConsistent st ->
  nth_error (sockets st) s = Some k ->
  egressConsistent (onConnect st s k).
Proof.
  intros H N key client I.
  unfold onConnect in *. cbn [clients sockets setClients updSocket setSockets] in *.
  assert (Keep : forall i k0,
             nth_error (sockets st) i = Some k0 ->
             exists k',
               nth_error (updateAt (updateAt (sockets st) s skSetConnected) s
                            (skWrite (sk_data k))) i = Some k'
               /\ sk_clientId k' = sk_clientId k0).
  { intros i k0 N0. destruct (Nat.eq_dec s i) as [->|Ne].
    - rewrite !nth_error_updateAt_same, N0. cbn [option_map].
      eexists. split; [reflexivity|]. now rewrite skWrite_clientId.
    - rewrite !nth_error_updateAt_other by assumption. exists k0. auto. }
  destruct (Keep s k N) as (ks & Ns & Ks).
  apply mapSet_In in I. destruct I as [I|[[Es Sv]|Eq]].
  - destruct (H key client I) as (k0 & N0 & K0 & C0).
    destruct (Keep _ _ N0) as (k' & N' & K').
    exists k'. repeat split; [exact N'|congruence|exact C0].
  - cbn [fst snd] in *. apply sameValueZero_str in Sv. subst.
    exists ks. cbn [ci_socket ci_connected]. repeat split; [exact Ns|congruence].
  - injection Eq as -> ->.
    exists ks. cbn [ci_socket ci_connected]. repeat split; [exact Ns|congruence].
Qed.

End Dial.

(** ** Ingress: Disconnect frames *)

Module Disconnects.
Import Js JsFacts Codec Wire CodecFacts FramerFacts StoreFacts Vocabulary Samples.
Import Ingress.



End Disconnects.

(** ** More on the codec and the framer *)

Module CodecMore.
Import Js JsFacts SplitFacts Codec Wire CodecFacts FramerFacts StoreFacts
  FieldFacts Samples.

Lemma transformLoop_fuel (f1 : nat) :
  forall (buf : list byte) (f2 : nat),
    (List.length buf <= f1)%nat -> (List.length buf <= f2)%nat ->
    transformLoop f1 buf = transformLoop f2 buf.
Proof.
  induction f1 as [|f1 IH]; intros buf f2 L1 L2.
  - destruct buf; [|cbn in L1; lia]. now destruct f2.
  - destruct (extract buf) as [[p rest]|] eqn:E.
    + pose proof (extract_length _ _ _ E) as EL.
      destruct f2 as [|f2]; [lia|].
      cbn [transformLoop]. rewrite E.
      now rewrite (IH rest f2) by lia.
    + now rewrite !transformLoop_none.
Qed.

(** What the loop has emitted from a buffer it emits again, followed by
    what the rest of the stream holds, when more bytes are appended. *)
Lemma transformLoop_app (f : nat) :
  forall (buf : list byte) ps r (more : list byte) (f' : nat),
    transformLoop f buf = Some (ps, r) ->
    (List.length (buf ++ more) <= f')%nat ->
    exists qs r',
      transformLoop (List.length (r ++ more)) (r ++ more) = Some (qs, r')
      /\ transformLoop f' (buf ++ more) = Some (ps ++ qs, r').
Proof.
  induction f as [|f IH]; intros buf ps r more f' T L.
  - cbn in T. destruct (extract buf) as [[p rest]|] eqn:E; [discriminate|].
    injection T as <- <-.
    destruct (transformLoop_total _ (buf ++ more) (Nat.le_refl _))
      as (qs & r' & T' & _).
    exists qs, r'. split; [exact T'|].
    now rewrite (transformLoop_fuel f' _ (List.length (buf ++ more))) by lia.
  - cbn in T. destruct (extract buf) as [[p rest]|] eqn:E.
    + destruct (transformLoop f rest) as [[ps0 r0]|] eqn:T0; [|discriminate].
      injection T as <- <-.
      pose proof (extract_length _ _ _ E) as EL.
      pose proof (extract_app buf more p rest E) as EA.
      rewrite length_app in L.
      destruct f' as [|f']; [lia|].
      destruct (IH rest ps0 r0 more f' T0) as (qs & r' & T1 & T2);
        [rewrite length_app; lia|].
      exists qs, r'. split; [exact T1|].
      cbn [transformLoop]. now rewrite EA, T2.
    + injection T as <- <-.
      destruct (transformLoop_total _ (buf ++ more) (Nat.le_refl _))
        as (qs & r' & T' & _).
      exists qs, r'. split; [exact T'|].
      now rewrite (transformLoop_fuel f' _ (List.length (buf ++ more))) by lia.
Qed.

(** X1. For any bytes at all, well-formed frames or not, the way the
    serial port cuts them into chunks does not matter: a [PacketStream]
    fed the chunks one by one emits the same packets and keeps the same
    buffer as one fed their concatenation at once.  The buffer it starts
    from is one that [_transform] can have left: no complete frame is at
    its head (the empty buffer of a fresh stream, for one). *)
Theorem chunking_is_irrelevant (chunks : list (list byte)) :
  forall buffer,
    extract buffer = None ->
    feed buffer chunks = _transform buffer (List.concat chunks).
Proof.
  induction chunks as [|c cs IH]; intros buffer N.
  - cbn. unfold _transform. rewrite app_nil_r.
    now rewrite transformLoop_none.
  - cbn [feed List.concat].
    destruct (_transform_total buffer c) as (ps & r & T & Nr).
    rewrite T, (IH r Nr).
    unfold _transform in *.
    destruct (transformLoop_app _ _ ps r (List.concat cs)
                (List.length (buffer ++ c ++ List.concat cs)) T)
      as (qs & r' & T1 & T2);
      [rewrite <- app_assoc; lia|].
    rewrite T1. rewrite <- app_assoc in T2. now rewrite T2.
Qed.

Lemma chunking_is_irrelevant_witness :
  feed [] [firstn 5 (bytesOf frameData);
           skipn 5 (bytesOf frameData) ++ firstn 30 (bytesOf frameData2);
           skipn 30 (bytesOf frameData2)]
  = Some ([frameData; frameData2], []).
Proof.
  rewrite (chunking_is_irrelevant
             [firstn 5 (bytesOf frameData);
              skipn 5 (bytesOf frameData) ++ firstn 30 (bytesOf frameData2);
              skipn 30 (bytesOf frameData2)] [] eq_refl).
  vm_compute. reflexivity.
Defined.

Lemma z2b_mod (z : Z) : z2b (z mod 256) = z2b z.
Proof. unfold z2b. now rewrite Z.mod_mod by lia. Qed.

Lemma z2b_low (hi : Z) (b : byte) : z2b (hi * 256 + b2z b) = b.
Proof.
  rewrite <- z2b_mod, Z.add_comm, Z.mod_add, z2b_mod by lia.
  apply z2b_b2z.
Qed.

Lemma u16be_read (a b : byte) : u16be (b2z a * 256 + b2z b) = [a; b].
Proof.
  unfold u16be. pose proof (b2z_range a). pose proof (b2z_range b).
  replace ((b2z a * 256 + b2z b) / 256) with (b2z a)
    by (apply Z.div_unique with (r := b2z b); lia).
  now rewrite z2b_b2z, z2b_low.
Qed.

Lemma u32be_read (a b c d : byte) :
  u32be (b2z a * 16777216 + b2z b * 65536 + b2z c * 256 + b2z d)
  = [a; b; c; d].
Proof.
  unfold u32be.
  pose proof (b2z_range a). pose proof (b2z_range b).
  pose proof (b2z_range c). pose proof (b2z_range d).
  set (v := b2z a * 16777216 + b2z b * 65536 + b2z c * 256 + b2z d).
  replace (v / 16777216) with (b2z a)
    by (apply Z.div_unique
          with (r := b2z b * 65536 + b2z c * 256 + b2z d); unfold v; lia).
  replace (v / 65536) with (b2z a * 256 + b2z b)
    by (apply Z.div_unique with (r := b2z c * 256 + b2z d);
        unfold v; lia).
  replace (v / 256) with ((b2z a * 256 + b2z b) * 256 + b2z c)
    by (apply Z.div_unique with (r := b2z d); unfold v; lia).
  replace v with ((b2z a * 65536 + b2z b * 256 + b2z c) * 256 + b2z d)
    by (unfold v; lia).
  now rewrite z2b_b2z, !z2b_low.
Qed.

(** Decoding then encoding: a packet that the framer emits is
    well formed, and [createPacket] on its fields gives back the very
    bytes that the framer consumed for it. *)
Lemma extract_reencode (buf : list byte) p rest :
  extract buf = Some (p, rest) ->
  wellFormed maxDataLength p
  /\ forall uuid, exists e, encode p uuid = Some e /\ buf = e ++ rest.
Proof.
  intros E. pose proof (extract_length _ _ _ E) as EL.
  do 27 (destruct buf as [|? buf]; [cbn in EL; lia|]).
  unfold extract in E. cbn [List.length Nat.leb] in E.
  unfold readUInt8, readUInt16BE, readUInt32BE, subarray in E.
  cbn [nth Nat.add Nat.sub skipn firstn] in E.
  set (V := b2z b22 * 16777216 + b2z b23 * 65536 + b2z b24 * 256 + b2z b25) in *.
  assert (RV : 0 <= V <= maxDataLength).
  { unfold V, maxDataLength.
    pose proof (b2z_range b22). pose proof (b2z_range b23).
    pose proof (b2z_range b24). pose proof (b2z_range b25). lia. }
  match type of E with
  | (if ?c then _ else _) = _ => destruct c eqn:EC; [|discriminate E]
  end.
  apply Z.leb_le in EC.
  assert (Ln : (Z.to_nat V <= List.length buf)%nat) by lia.
  rewrite Nat.sub_0_r in E. injection E as Ep Er.
  set (id := [b0; b1; b2; b3; b4; b5; b6; b7; b8; b9; b10; b11; b12; b13;
              b14; b15]).
  set (ip := [b16; b17; b18; b19]).
  change (mkPacket (b2z b) (toHex id) (joinDots (map byteToString ip))
            (b2z b20 * 256 + b2z b21) (firstn (Z.to_nat V) buf) = p) in Ep.
  subst p rest.
  assert (Ld : Z.of_nat (List.length (firstn (Z.to_nat V) buf)) = V)
    by (rewrite length_firstn; lia).
  pose proof (b2z_range b). pose proof (b2z_range b20). pose proof (b2z_range b21).
  split.
  - unfold wellFormed. cbn [cmd clientId targetHost targetPort data].
    split; [lia|].
    split; [exists id; split; reflexivity|].
    split; [exists ip; split; reflexivity|].
    split; [lia|]. rewrite Ld. apply RV.
  - intros uuid. unfold encode.
    cbn [cmd clientId targetHost targetPort data].
    rewrite createPacket_layout;
      [|lia|lia|rewrite Ld; apply RV
       |rewrite clientIdBuffer_hex by reflexivity; cbn; lia].
    rewrite clientIdBuffer_hex, ipBuffer_dotted by reflexivity.
    eexists. split; [reflexivity|].
    unfold frameBytes. rewrite !pad_full by reflexivity.
    rewrite Ld. unfold V. rewrite u16be_read, u32be_read, z2b_b2z.
    cbn [app id ip]. rewrite firstn_skipn. reflexivity.
Qed.

Lemma transformLoop_reencode (fuel : nat) :
  forall (buf : list byte) ps final,
    transformLoop fuel buf = Some (ps, final) ->
    Forall (wellFormed maxDataLength) ps
    /\ exists es, encoded ps es /\ buf = List.concat es ++ final.
Proof.
  induction fuel as [|fuel IH]; intros buf ps final T; cbn in T.
  - destruct (extract buf) as [[p rest]|]; [discriminate|].
    injection T as <- <-. split; [constructor|].
    exists []. split; [constructor|reflexivity].
  - destruct (extract buf) as [[p rest]|] eqn:E.
    + destruct (transformLoop fuel rest) as [[qs f]|] eqn:T0; [|discriminate].
      injection T as <- <-.
      destruct (IH rest qs f T0) as (W & es & En & C).
      destruct (extract_reencode buf p rest E) as (Wp & R).
      destruct (R EmptyString) as (e & Ee & B).
      split; [now constructor|].
      exists (e :: es). split.
      * constructor; [now exists EmptyString|exact En].
      * cbn [List.concat]. now rewrite <- app_assoc, <- C.
    + injection T as <- <-. split; [constructor|].
      exists []. split; [constructor|reflexivity].
Qed.

(** X2. [_transform] always returns, and it partitions its input: the
    packets it emits are well formed, their encodings by [createPacket]
    followed by the buffer that remains are exactly the bytes it was
    given, old buffer and new chunk, and the buffer that remains holds
    no complete frame (fewer than 27 bytes, or fewer than the header
    announces). *)
Theorem framer_partitions_input (buffer chunk : list byte) :
  exists ps final es,
    _transform buffer chunk = Some (ps, final)
    /\ Forall (wellFormed maxDataLength) ps
    /\ encoded ps es
    /\ buffer ++ chunk = List.concat es ++ final
    /\ ((List.length final < 27)%nat
        \/ Z.of_nat (List.length final) < 27 + readUInt32BE final 23).
Proof.
  destruct (_transform_total buffer chunk) as (ps & final & T & N).
  destruct (transformLoop_reencode _ _ _ _ T) as (W & es & E & C).
  exists ps, final, es. repeat split; try assumption.
  unfold extract in N.
  destruct (27 <=? List.length final)%nat eqn:L27.
  - right.
    destruct (27 + readUInt32BE final 23 <=? Z.of_nat (List.length final))
      eqn:LL; [discriminate|]. now apply Z.leb_gt in LL.
  - left. now apply Nat.leb_gt in L27.
Qed.

Ltac copy_len :=
  first [ lia
        | rewrite length_alloc; lia
        | rewrite length_copy; [copy_len|copy_len] ].

Lemma createPacket_length cmd cid data host port uuid packet :
  createPacket cmd cid data host port uuid = Some packet ->
  List.length packet = (27 + List.length data)%nat.
Proof.
  unfold createPacket, writeUInt8, writeUInt16BE, writeUInt32BE.
  destruct ((0 <=? cmd) && (cmd <=? 255)); [|discriminate].
  cbn [andb].
  match goal with |- context [if ?b then _ else _] => destruct b; [|discriminate] end.
  cbn [bind].
  destruct ((0 <=? port) && (port <=? 65535)); [|discriminate].
  cbn [andb].
  match goal with |- context [if ?b then _ else _] => destruct b; [|discriminate] end.
  cbn [bind].
  destruct ((0 <=? Z.of_nat (List.length data))
            && (Z.of_nat (List.length data) <=? 4294967295)); [|discriminate].
  cbn [andb].
  match goal with |- context [if ?b then _ else _] => destruct b; [|discriminate] end.
  cbn [bind]. intros [= <-]. copy_len.
Qed.

(** X3. [createPacket] throws exactly when the cmd, the port or the
    length of the payload does not fit its field, whatever the session
    id and the host are; when it returns, the packet has 27 bytes more
    than the payload and starts with the cmd. *)
Theorem createPacket_throws_exactly cmd cid data host port uuid :
  (createPacket cmd cid data host port uuid = None <->
   ~ (0 <= cmd <= 255 /\ 0 <= port <= 65535
      /\ Z.of_nat (List.length data) <= maxDataLength))
  /\ forall packet,
       createPacket cmd cid data host port uuid = Some packet ->
       List.length packet = (27 + List.length data)%nat
       /\ frameCmd packet = cmd.
Proof.
  split.
  - split.
    + intros N (Hc & Hp & Hd).
      destruct (createPacket_ok cmd cid data host port uuid Hc Hp Hd).
      congruence.
    + intros N.
      destruct (createPacket cmd cid data host port uuid) as [packet|] eqn:E;
        [|reflexivity].
      exfalso. apply N.
      apply createPacket_some in E as (Hc & Hp & Hd & _). auto.
  - intros packet E. split; [now apply createPacket_length in E|].
    now apply createPacket_some in E.
Qed.

Lemma createPacket_throws_exactly_witness :
  createPacket CMD_DATA (JsStr (toHex id0)) [x68; x69] "127.0.0.1" 70000
    EmptyString = None
  /\ exists packet,
       createPacket CMD_DATA JsUndefined [x68; x69] "example.org" 443
         (randomUUID id1) = Some packet
       /\ List.length packet = 29%nat.
Proof.
  split.
  - apply (proj1 (createPacket_throws_exactly CMD_DATA (JsStr (toHex id0))
                    [x68; x69] "127.0.0.1" 70000 EmptyString)).
    intros (_ & [_ H] & _). apply H. reflexivity.
  - eexists. split; [reflexivity|].
    apply (proj2 (createPacket_throws_exactly CMD_DATA JsUndefined
                    [x68; x69] "example.org" 443 (randomUUID id1))).
    reflexivity.
Defined.

Lemma includesHyphen_app (a b : string) :
  includesHyphen (a ++ b) = includesHyphen a || includesHyphen b.
Proof.
  induction a as [|c a IH]; [reflexivity|].
  cbn [String.append includesHyphen]. now rewrite IH, orb_assoc.
Qed.

Lemma length_string_app (a b : string) :
  String.length (a ++ b) = (String.length a + String.length b)%nat.
Proof.
  induction a as [|c a IH]; [reflexivity|].
  cbn [String.append String.length]. now rewrite IH.
Qed.

(** X4. A session id in the standard 8-4-4-4-12 form names the same
    session as its 32 hexadecimal digits: [createPacket] removes the
    hyphens and writes the same sixteen bytes. *)
Theorem uuid_form_is_accepted
    cmd (rnd : list byte) data host port uuid :
  List.length rnd = 16%nat ->
  clientIdBuffer (JsStr (randomUUID rnd)) uuid = rnd
  /\ createPacket cmd (JsStr (randomUUID rnd)) data host port uuid
     = createPacket cmd (JsStr (toHex rnd)) data host port uuid.
Proof.
  intros L.
  assert (A : clientIdBuffer (JsStr (randomUUID rnd)) uuid = rnd).
  { unfold clientIdBuffer.
    assert (Len : String.length (randomUUID rnd) = 36%nat).
    { unfold randomUUID. cbv beta.
      repeat (rewrite length_string_app; cbn [String.length]).
      rewrite !length_toHex. unfold subarray.
      rewrite !length_firstn, !length_skipn, L. reflexivity. }
    assert (Hy : includesHyphen (randomUUID rnd) = true).
    { unfold randomUUID. cbv beta. rewrite includesHyphen_app.
      cbn [includesHyphen]. change (isHyphen (chr 45)) with true.
      cbn [orb]. apply orb_true_r. }
    rewrite Len, Hy. cbn [Nat.eqb].
    now rewrite removeHyphens_randomUUID, fromHex_toHex. }
  split; [exact A|].
  unfold createPacket. rewrite A.
  now rewrite clientIdBuffer_hex.
Qed.

Lemma uuid_form_is_accepted_witness :
  createPacket CMD_DATA (JsStr (randomUUID id0)) [x68; x69] "127.0.0.1" 9000
    EmptyString
  = Wire.encode frameData EmptyString.
Proof.
  unfold Wire.encode.
  exact (proj2 (uuid_form_is_accepted CMD_DATA id0 [x68; x69] "127.0.0.1"
                  9000 EmptyString eq_refl)).
Defined.

(** X5. A part of the host that [parseInt] reads as a number is stored
    modulo 256 in its octet, for each of the first four parts: no part
    is rejected for being out of range. *)
Theorem numeric_octets_wrap
    cmd cid data host port uuid packet (i : nat) (part : string) (v : Z) :
  (List.length (clientIdBuffer cid uuid) <= 16)%nat ->
  createPacket cmd cid data host port uuid = Some packet ->
  (i < 4)%nat ->
  nth_error (splitDots host) i = Some part ->
  parseInt part = Some v ->
  nth (17 + i) packet x00 = z2b v
  /\ b2z (nth (17 + i) packet x00) = v mod 256.
Proof.
  intros Lid C Hi Np Pv.
  destruct (createPacket_some _ _ _ _ _ _ _ C) as (Hc & Hp & Hd & _).
  rewrite createPacket_layout in C by assumption. injection C as <-.
  pose proof (length_ipBuffer host) as Lip.
  rewrite frameBytes_ip_nth by assumption.
  assert (N : nth i (pad 4 (ipBuffer host)) x00 = z2b v).
  { unfold pad, ipBuffer. destruct host as [|c r].
    - cbn in Np. destruct i; [|destruct i; discriminate].
      injection Np as <-. discriminate Pv.
    - set (parts := splitDots (String c r)) in *.
      assert (Li : (i < List.length parts)%nat)
        by (apply nth_error_Some; congruence).
      rewrite app_nth1
        by (rewrite length_map, length_firstn, length_map; lia).
      change x00 with (z2b 0). rewrite map_nth, nth_firstn.
      replace (i <? 4)%nat with true by (symmetry; apply Nat.ltb_lt; lia).
      change 0 with (orZero (parseInt EmptyString)) at 1.
      rewrite (map_nth (fun part => orZero (parseInt part))).
      now rewrite (nth_error_nth _ _ _ Np), Pv. }
  split; [exact N|]. rewrite N. apply b2z_z2b.
Qed.

Lemma numeric_octets_wrap_witness :
  exists packet,
    createPacket CMD_DATA (JsStr (toHex id0)) [] "300.-1.7.1.99" 80
      EmptyString = Some packet
    /\ b2z (nth (17 + 0) packet x00) = 300 mod 256.
Proof.
  eexists. split; [reflexivity|].
  apply (numeric_octets_wrap CMD_DATA (JsStr (toHex id0)) []
           "300.-1.7.1.99" 80 EmptyString _ 0 "300" 300).
  - vm_compute. lia.
  - reflexivity.
  - lia.
  - reflexivity.
  - reflexivity.
Defined.

End CodecMore.

(** ** The egress: the table of sessions *)

Module EgressMore.
Import Js JsFacts Codec Wire Samples Vocabulary StoreFacts Egress EgressFacts.

Lemma consistent_same (st st' : State) :
  clients st' = clients st -> sockets st' = sockets st ->
  egressConsistent st -> egressConsistent st'.
Proof.
  unfold egressConsistent. intros Hc Hs H key client Hin.
  rewrite Hc in Hin. rewrite Hs. exact (H key client Hin).
Qed.

Lemma consistent_sendPacket st c cid d h p st' :
  sendPacket st c cid d h p = Return st'
  \/ sendPacket st c cid d h p = Throw st' ->
  egressConsistent st -> egressConsistent st'.
Proof.
  intros E H.
  destruct (egress_sendPacket_cases st c cid d h p)
    as [(s1 & f & E1 & _ & _ & Hc & Hs & _) | (s1 & E1 & _ & Hc & Hs & _)];
    destruct E as [E|E]; rewrite E1 in E; try discriminate;
    injection E as <-; now apply consistent_same with st.
Qed.

Lemma consistent_closeSerial (st : State) :
  egressConsistent st -> egressConsistent (closeSerial st).
Proof.
  unfold closeSerial. destruct (serialOpen st);
    now apply consistent_same.
Qed.

Lemma consistent_afterSockets (st : State) : egressConsistent (afterSockets st).
Proof.
  unfold afterSockets. apply consistent_closeSerial.
  intros key client Hin. destruct Hin.
Qed.

Lemma consistent_endAll (targets : list nat) (st : State) :
  egressConsistent st ->
  egressConsistent (fold_left (fun st s => updSocket st s skEnd) targets st).
Proof.
  revert st. induction targets as [|s r IH]; intros st H; [exact H|].
  cbn [fold_left]. apply IH. apply Dial.consistent_updSocket; auto.
Qed.

Lemma consistent_closeSockets (st : State) :
  egressConsistent st -> egressConsistent (closeSockets st).
Proof.
  intros H. unfold closeSockets.
  destruct (socketsToClose st (clients st)) as [|s r] eqn:T.
  - apply consistent_afterSockets.
  - rewrite <- T.
    apply consistent_same
      with (fold_left (fun st s => updSocket st s skEnd)
              (socketsToClose st (clients st)) st);
      [reflexivity|reflexivity|now apply consistent_endAll].
Qed.

Lemma consistent_notifyClients (entries : Map ClientInfo) (st st' : State) :
  notifyClients st entries = Return st'
  \/ notifyClients st entries = Throw st' ->
  egressConsistent st -> egressConsistent st'.
Proof.
  revert st. induction entries as [|[uuid client] rest IH]; intros st E H.
  - cbn in E. destruct E as [E|E]; [injection E as <-; exact H|discriminate].
  - cbn [notifyClients] in E. destruct (serialOpen st); [|now apply IH with st].
    destruct (sendPacket st CMD_DISCONNECT uuid [] (ci_targetHost client)
                (ci_targetPort client)) as [s1|s1] eqn:S.
    + apply IH with s1; [exact E|].
      eapply consistent_sendPacket; [left; exact S|exact H].
    + destruct E as [E|E]; [discriminate|]. injection E as <-.
      eapply consistent_sendPacket; [right; exact S|exact H].
Qed.

Lemma consistent_notify (st : State) :
  egressConsistent st -> egressConsistent (notify st).
Proof.
  intros H. unfold notify.
  destruct (notifyClients st (clients st)) as [s1|s1] eqn:E.
  - assert (H1 : egressConsistent s1)
      by (eapply consistent_notifyClients; [left; exact E|exact H]).
    destruct (clients st); [now apply consistent_closeSockets|].
    destruct (serialOpen st); [now apply consistent_same with s1|].
    now apply consistent_closeSockets.
  - apply consistent_same with s1; [reflexivity|reflexivity|].
    eapply consistent_notifyClients; [right; exact E|exact H].
Qed.

Lemma consistent_gracefulShutdown (st : State) :
  egressConsistent st -> egressConsistent (gracefulShutdown st).
Proof.
  intros H. unfold gracefulShutdown.
  destruct (serialOpen st); [|now apply consistent_notify].
  cbv zeta.
  match goal with
  | |- context [sendPacket ?a ?b ?c ?d ?e ?f] =>
      destruct (sendPacket a b c d e f) as [s1|s1] eqn:E
  end.
  - apply consistent_same with s1; [reflexivity|reflexivity|].
    eapply consistent_sendPacket; [left; exact E|].
    now apply consistent_same with st.
  - apply consistent_same with s1; [reflexivity|reflexivity|].
    eapply consistent_sendPacket; [right; exact E|].
    now apply consistent_same with st.
Qed.

Lemma consistent_resolveClose (st : State) (s : nat) :
  egressConsistent st -> egressConsistent (resolveClose st s).
Proof.
  intros H. unfold resolveClose.
  destruct (phase st); auto.
  destruct (existsb (Nat.eqb s) pending); auto.
  destruct (filter (fun x => negb (Nat.eqb s x)) pending);
    [apply consistent_afterSockets|now apply consistent_same with st].
Qed.

Lemma egress_consistent_startShutdown (st st' : State) :
  startShutdown st = Some st' ->
  egressConsistent st -> egressConsistent st'.
Proof.
  unfold startShutdown. destruct (phase st); try discriminate.
  intros [= <-]. apply consistent_gracefulShutdown.
Qed.

Lemma consistent_handlePackets (ps : list Packet) (st : State) :
  egressConsistent st -> egressConsistent (fold_left handlePacket ps st).
Proof.
  revert st. induction ps as [|p r IH]; intros st H; [exact H|].
  cbn [fold_left]. apply IH. now apply Dial.handlePacket_consistent.
Qed.

Lemma egress_step_consistent (st : State) (ev : Event) (st' : State) :
  egressConsistent st -> step st ev = Some st' -> egressConsistent st'.
Proof.
  intros H. unfold step. destruct (exitCode st); [discriminate|].
  destruct ev as [chunk|s|s|s d|s|s| | |s| |].
  - unfold onSerialData.
    destruct (_transform (buffer st) chunk) as [[ps b]|]; [|discriminate].
    intros [= <-]. apply consistent_handlePackets.
    now apply consistent_same with st.
  - destruct (nth_error (sockets st) s) as [k|] eqn:N; [|discriminate].
    destruct (negb (sk_connected k) && negb (sk_destroyed k)); [|discriminate].
    intros [= <-]. now apply Dial.onConnect_consistent.
  - destruct (nth_error (sockets st) s) as [k|] eqn:N; [|discriminate].
    destruct (negb (sk_connected k) && negb (sk_destroyed k)); [|discriminate].
    intros [= <-]. unfold onConnectError.
    apply Dial.consistent_updSocket; auto.
  - destruct (nth_error (sockets st) s) as [k|] eqn:N; [|discriminate].
    destruct (sk_connected k && negb (sk_destroyed k)); [|discriminate].
    unfold onSocketData. destruct (serialOpen st).
    + match goal with
      | |- context [sendPacket ?a ?b ?c ?d ?e ?f] =>
          destruct (sendPacket a b c d e f) as [s1|s1] eqn:E
      end; cbn [settle].
      * intros [= <-]. eapply consistent_sendPacket; [left; exact E|exact H].
      * intros S. apply (egress_consistent_startShutdown _ _ S).
        eapply consistent_sendPacket; [right; exact E|exact H].
    + cbn [settle]. now intros [= <-].
  - destruct (nth_error (sockets st) s) as [k|] eqn:N; [|discriminate].
    destruct (sk_connected k && negb (sk_closed k)); [|discriminate].
    assert (H1 : egressConsistent
                   (setClients (updSocket st s skSetClosed)
                      (mapDelete (clients (updSocket st s skSetClosed))
                         (JsStr (sk_clientId k))))).
    { apply Dial.consistent_mapDelete. apply Dial.consistent_updSocket; auto. }
    unfold onSocketClose. cbv zeta.
    match goal with
    | |- context [if ?b then _ else _] => destruct b
    end.
    + match goal with
      | |- context [sendPacket ?a ?b ?c ?d ?e ?f] =>
          destruct (sendPacket a b c d e f) as [s1|s1] eqn:E
      end.
      * intros [= <-]. apply consistent_resolveClose.
        eapply consistent_sendPacket; [left; exact E|exact H1].
      * intros S. apply (egress_consistent_startShutdown _ _ S).
        eapply consistent_sendPacket; [right; exact E|exact H1].
    + intros [= <-]. now apply consistent_resolveClose.
  - destruct (nth_error (sockets st) s) as [k|] eqn:N; [|discriminate].
    destruct (sk_connected k && negb (sk_closed k)); [|discriminate].
    intros [= <-]. now apply Dial.consistent_mapDelete.
  - intros S. exact (egress_consistent_startShutdown _ _ S H).
  - destruct (phase st); try discriminate; intros [= <-].
    + now apply consistent_notify.
    + now apply consistent_closeSockets.
  - destruct (phase st); try discriminate.
    destruct (existsb (Nat.eqb s) pending); [|discriminate].
    destruct (nth_error (sockets st) s) as [k|]; [|discriminate].
    intros [= <-]. apply consistent_resolveClose.
    destruct (sk_destroyed k); [exact H|].
    apply Dial.consistent_updSocket; auto.
  - destruct (phase st); try discriminate. intros [= <-].
    now apply consistent_same with st.
  - destruct (phase st); try discriminate. intros [= <-].
    now apply consistent_same with st.
Qed.

Lemma egress_run_consistent (trace : list Event) (st st' : State) :
  egressConsistent st -> run st trace = Some st' -> egressConsistent st'.
Proof.
  revert st. induction trace as [|ev rest IH]; intros st H R.
  - cbn in R. now injection R as <-.
  - cbn [run] in R. destruct (step st ev) as [s1|] eqn:E; [|discriminate].
    apply IH with s1; [|exact R]. exact (egress_step_consistent _ _ _ H E).
Qed.

(** A write that changes the socket: the socket was connected and not
    destroyed; it accepts the payload, or, when [end()] has been called
    on it, the write fails and destroys it. *)
Lemma skWrite_effect (d : list byte) (k k' : Socket) :
  k' = skWrite d k -> k' <> k ->
  sk_destroyed k = false
  /\ (if sk_ended k then k' = skDestroy k
      else k' = mkSocket (sk_clientId k) (sk_targetHost k) (sk_targetPort k)
                  (sk_data k) (sk_connected k) false (sk_closed k) false
                  (sk_written k ++ [d])).
Proof.
  intros -> D. unfold skWrite in *.
  destruct (sk_connected k); cbn [andb] in *; [|congruence].
  destruct (sk_destroyed k) eqn:Ds; cbn [negb] in *; [congruence|].
  split; [reflexivity|]. destruct (sk_ended k) eqn:En; reflexivity.
Qed.

(** What [handlePacket] does to a socket that it changes. *)
Lemma handlePacket_touches (st : State) (p : Packet) (i : nat) (k k' : Socket) :
  egressConsistent st ->
  nth_error (sockets st) i = Some k ->
  nth_error (sockets (handlePacket st p)) i = Some k' ->
  k' <> k ->
  sk_clientId k = clientId p
  /\ ((cmd p = CMD_DATA
       /\ sk_destroyed k = false
       /\ (if sk_ended k then k' = skDestroy k
           else k' = mkSocket (sk_clientId k) (sk_targetHost k)
                       (sk_targetPort k) (sk_data k) (sk_connected k) false
                       (sk_closed k) false (sk_written k ++ [data p])))
      \/ (cmd p = CMD_DISCONNECT /\ k' = skEnd k)).
Proof.
  intros H N N' D. unfold handlePacket in N'.
  destruct (cmd p =? CMD_DATA) eqn:Cd.
  - apply Z.eqb_eq in Cd.
    destruct (mapGet (clients st) (JsStr (clientId p))) as [client|] eqn:G.
    + destruct (Dial.registered_socket st _ client H G) as (k0 & N0 & Hid & _).
      destruct (ci_connected client); [|congruence].
      st_cbn. destruct (Nat.eq_dec (ci_socket client) i) as [Eq|Ne].
      * rewrite Eq in N', N0.
        rewrite nth_error_updateAt_same, N in N'. cbn in N'.
        injection N' as E. symmetry in E.
        split; [congruence|]. left. split; [exact Cd|].
        exact (skWrite_effect _ _ _ E D).
      * rewrite nth_error_updateAt_other in N' by exact Ne. congruence.
    + st_cbn. rewrite nth_error_app1 in N'
        by (apply nth_error_Some; congruence).
      congruence.
  - destruct (cmd p =? CMD_DISCONNECT) eqn:Cx; [|congruence].
    apply Z.eqb_eq in Cx.
    destruct (mapGet (clients st) (JsStr (clientId p))) as [client|] eqn:G;
      [|congruence].
    destruct (Dial.registered_socket st _ client H G) as (k0 & N0 & Hid & _).
    st_cbn. destruct (Nat.eq_dec (ci_socket client) i) as [Eq|Ne].
    + rewrite Eq in N', N0.
      rewrite nth_error_updateAt_same, N in N'. cbn in N'.
      injection N' as <-. split; [congruence|now right].
    + rewrite nth_error_updateAt_other in N' by exact Ne. congruence.
Qed.

(** X6. In every state that the egress reaches, each entry of [clients]
    is stored under the id of its own socket, and a packet from the
    serial port changes no socket but one dialled for the id of the
    packet: a Data frame makes the socket accept the payload, or, when
    [end()] has been called on it, destroys it, the write failing with
    [ERR_STREAM_WRITE_AFTER_END]; a Disconnect frame ends it. *)
Theorem egress_sessions_isolated
    (rng : nat -> list byte) (trace : list Event) (st : State) :
  run (init rng) trace = Some st ->
  egressConsistent st
  /\ forall p i k k',
       nth_error (sockets st) i = Some k ->
       nth_error (sockets (handlePacket st p)) i = Some k' ->
       k' <> k ->
       sk_clientId k = clientId p
       /\ ((cmd p = CMD_DATA
            /\ sk_destroyed k = false
            /\ (if sk_ended k then k' = skDestroy k
                else k' = mkSocket (sk_clientId k) (sk_targetHost k)
                            (sk_targetPort k) (sk_data k) (sk_connected k)
                            false (sk_closed k) false
                            (sk_written k ++ [data p])))
           \/ (cmd p = CMD_DISCONNECT /\ k' = skEnd k)).
Proof.
  intros R.
  assert (H : egressConsistent st).
  { apply (egress_run_consistent trace (init rng)); [|exact R].
    intros key client Hin. destruct Hin. }
  split; [exact H|]. intros p i k k'. now apply handlePacket_touches.
Qed.

(** A session is dialled and connected; the next Data frame for its id
    changes its socket, which accepts the payload. *)
Lemma egress_sessions_isolated_witness :
  exists st k k',
    run (init rngConst) [SerialData (bytesOf frameData); Connect 0] = Some st
    /\ egressConsistent st
    /\ nth_error (sockets st) 0 = Some k
    /\ nth_error (sockets (handlePacket st frameData2)) 0 = Some k'
    /\ sk_clientId k = clientId frameData2
    /\ sk_written k' = sk_written k ++ [data frameData2].
Proof.
  eexists. eexists. eexists.
  match goal with
  | |- run _ ?tr = Some ?s /\ _ =>
      assert (R : run (init rngConst) tr = Some s) by (vm_compute; reflexivity)
  end.
  destruct (egress_sessions_isolated rngConst _ _ R) as (H & T).
  split; [exact R|]. split; [exact H|].
  split; [reflexivity|]. split; [reflexivity|].
  match goal with
  | |- sk_clientId ?k = _ /\ sk_written ?k' = _ =>
      destruct (T frameData2 0%nat k k' eq_refl eq_refl)
        as (I & [(_ & _ & W)|(C & _)])
  end.
  - discriminate.
  - split; [exact I|]. cbn [sk_ended] in W. now rewrite W.
  - discriminate C.
Defined.

(** X7. A Disconnect from the serial port makes the egress forget the
    session: the entry is gone, its socket has been ended, a second
    Disconnect changes nothing, and the next Data frame for the id dials
    a new connection instead of using the old socket. *)
Theorem egress_disconnect_forgets (st : State) (p : Packet) :
  cmd p = CMD_DISCONNECT ->
  mapGet (clients (handlePacket st p)) (JsStr (clientId p)) = None
  /\ handlePacket (handlePacket st p) p = handlePacket st p
  /\ (forall client,
        mapGet (clients st) (JsStr (clientId p)) = Some client ->
        sockets (handlePacket st p)
        = updateAt (sockets st) (ci_socket client) skEnd)
  /\ (forall q,
        cmd q = CMD_DATA -> clientId q = clientId p ->
        sockets (handlePacket (handlePacket st p) q)
        = sockets (handlePacket st p)
          ++ [mkSocket (clientId q) (targetHost q) (targetPort q) (data q)
                false false false false []]).
Proof.
  intros C.
  assert (G : mapGet (clients (handlePacket st p)) (JsStr (clientId p)) = None).
  { unfold handlePacket. rewrite C. cbn [Z.eqb CMD_DISCONNECT CMD_DATA Pos.eqb].
    destruct (mapGet (clients st) (JsStr (clientId p))) as [client|] eqn:G;
      [|exact G].
    st_cbn. apply mapGet_mapDelete_same. }
  split; [exact G|]. split; [|split].
  - unfold handlePacket at 1. rewrite C.
    cbn [Z.eqb CMD_DISCONNECT CMD_DATA Pos.eqb]. now rewrite G.
  - intros client Gc. unfold handlePacket. rewrite C.
    cbn [Z.eqb CMD_DISCONNECT CMD_DATA Pos.eqb]. now rewrite Gc.
  - intros q Cq Iq. unfold handlePacket at 1. rewrite Cq, Iq.
    cbn [Z.eqb CMD_DATA Pos.eqb]. now rewrite G.
Qed.

Lemma egress_disconnect_forgets_witness :
  exists st,
    run (init rngConst) [SerialData (bytesOf frameData); Connect 0] = Some st
    /\ mapGet (clients st) (JsStr (clientId frameDisconnect)) <> None
    /\ mapGet (clients (handlePacket st frameDisconnect))
         (JsStr (clientId frameDisconnect)) = None.
Proof.
  eexists. split; [vm_compute; reflexivity|].
  split; [vm_compute; discriminate|].
  apply (egress_disconnect_forgets _ frameDisconnect). reflexivity.
Defined.

End EgressMore.

(** ** The ingress: the table of sessions and the shutdown *)

Module IngressMore.
Import Js JsFacts Codec Wire Samples Vocabulary CodecFacts StoreFacts Ingress
  IngressFacts.

Lemma mapGet_str_numkeys {V} (m : Map V) (s : string) :
  Forall (fun b => exists n, fst b = JsNum n) m -> mapGet m (JsStr s) = None.
Proof.
  induction m as [|[k v] r IH]; intros H; [reflexivity|].
  inversion H as [|? ? [n Hn] Hr]; subst. cbn in Hn. subst k.
  cbn [mapGet sameValueZero]. now apply IH.
Qed.

Lemma numkeys_mapSet {V} (m : Map V) (n : Z) (v : V) :
  Forall (fun b => exists n, fst b = JsNum n) m ->
  Forall (fun b => exists n, fst b = JsNum n) (mapSet m (JsNum n) v).
Proof.
  induction m as [|[k w] r IH]; intros H.
  - constructor; [now exists n|constructor].
  - inversion H as [|? ? Hk Hr]; subst. cbn [mapSet].
    destruct (sameValueZero k (JsNum n)); constructor; auto.
Qed.

Lemma keys_same (st st' : State) :
  clientsByPort st' = clientsByPort st \/ clientsByPort st' = [] ->
  keysAreNumbers st -> keysAreNumbers st'.
Proof.
  unfold keysAreNumbers. intros [-> | ->] H; [exact H|constructor].
Qed.

Lemma handleResponsePacket_table (st : State) (p : Packet) :
  keysAreNumbers st ->
  clientsByPort (handleResponsePacket st p) = clientsByPort st.
Proof.
  intros K. unfold handleResponsePacket.
  destruct (cmd p =? CMD_DATA).
  { destruct (findClient _ _); [|reflexivity].
    destruct (negb _); reflexivity. }
  destruct (cmd p =? CMD_DISCONNECT).
  { cbv zeta.
    destruct (endClient_spec (clientsByPort st) (JsStr (clientId p)) st)
      as (_ & _ & _ & _ & _ & T & _).
    rewrite T, (mapGet_str_numkeys _ _ K). exact T. }
  destruct (cmd p =? CMD_PROGRAM_CLOSE); reflexivity.
Qed.

Lemma handleResponsePackets_table (ps : list Packet) (st : State) :
  keysAreNumbers st ->
  clientsByPort (fold_left handleResponsePacket ps st) = clientsByPort st.
Proof.
  revert st. induction ps as [|p r IH]; intros st K; [reflexivity|].
  cbn [fold_left].
  pose proof (handleResponsePacket_table st p K) as T.
  rewrite IH; [exact T|]. apply keys_same with st; auto.
Qed.

(** What the steps of [gracefulShutdown] leave alone. *)
Lemma ingress_endAll_keeps (targets : list nat) (st : State) :
  clientsByPort (fold_left (fun st s => updSocket st s skEnd) targets st)
  = clientsByPort st
  /\ wire (fold_left (fun st s => updSocket st s skEnd) targets st) = wire st
  /\ serialOpen (fold_left (fun st s => updSocket st s skEnd) targets st)
     = serialOpen st.
Proof.
  revert st. induction targets as [|s r IH]; intros st; [now repeat split|].
  cbn [fold_left]. destruct (IH (updSocket st s skEnd)) as (A & B & C).
  rewrite A, B, C. now repeat split.
Qed.

Lemma ingress_closeSerial_keeps (st : State) :
  clientsByPort (closeSerial st) = clientsByPort st
  /\ wire (closeSerial st) = wire st
  /\ serialOpen (closeSerial st) = serialOpen st.
Proof. unfold closeSerial. destruct (serialOpen st) eqn:O; now repeat split. Qed.

Lemma closeServers_keeps (st : State) :
  clientsByPort (closeServers st) = clientsByPort st
  /\ wire (closeServers st) = wire st
  /\ serialOpen (closeServers st) = serialOpen st.
Proof.
  unfold closeServers. cbv zeta.
  destruct (portMappings (setListening st false)); [|now repeat split].
  apply (ingress_closeSerial_keeps (setListening st false)).
Qed.

Lemma ingress_afterSockets_keeps (st : State) :
  clientsByPort (afterSockets st) = []
  /\ wire (afterSockets st) = wire st
  /\ serialOpen (afterSockets st) = serialOpen st.
Proof.
  unfold afterSockets. apply (closeServers_keeps (setClientsByPort st [])).
Qed.

Lemma ingress_closeSockets_keeps (st : State) :
  (clientsByPort (closeSockets st) = clientsByPort st
   \/ clientsByPort (closeSockets st) = [])
  /\ wire (closeSockets st) = wire st
  /\ serialOpen (closeSockets st) = serialOpen st.
Proof.
  unfold closeSockets.
  destruct (ingress_endAll_keeps (socketsToClose st (clientsByPort st)) st)
    as (A & B & C).
  destruct (socketsToClose st (clientsByPort st)) as [|s r].
  - cbn [fold_left]. destruct (ingress_afterSockets_keeps st) as (X & Y & Z).
    auto.
  - st_cbn. auto.
Qed.

Lemma ingress_resolveClose_keeps (st : State) (s : nat) :
  (clientsByPort (resolveClose st s) = clientsByPort st
   \/ clientsByPort (resolveClose st s) = [])
  /\ wire (resolveClose st s) = wire st
  /\ serialOpen (resolveClose st s) = serialOpen st.
Proof.
  unfold resolveClose. destruct (phase st); auto.
  destruct (existsb (Nat.eqb s) pending); auto.
  destruct (filter (fun x => negb (Nat.eqb s x)) pending); [|st_cbn; auto].
  destruct (ingress_afterSockets_keeps st) as (X & Y & Z). auto.
Qed.

Lemma sendPacket_returns_iff st c cid d h p :
  (exists st', sendPacket st c cid d h p = Return st')
  <-> (0 <= c <= 255 /\ portOK p
       /\ Z.of_nat (List.length d) <= maxDataLength).
Proof.
  unfold sendPacket, createPacketS. split.
  - intros (st' & E).
    destruct (createPacket c cid d h p (randomUUID (rng st (draws st))))
      as [f|] eqn:C; [|discriminate].
    apply createPacket_some in C as (Hc & Hp & Hd & _). auto.
  - intros (Hc & Hp & Hd).
    destruct (createPacket_ok c cid d h p (randomUUID (rng st (draws st)))
                Hc Hp Hd) as (f & ->).
    eexists. reflexivity.
Qed.

(** The Disconnect frames of step 1, bucket by bucket. *)
Lemma disconnectBucket_frames (entries : Map ClientInfo) (st : State)
    (rejected : bool) :
  clientsByPort (fst (disconnectBucket st entries rejected)) = clientsByPort st
  /\ serialOpen (fst (disconnectBucket st entries rejected)) = serialOpen st
  /\ (Forall (fun e => mappingOK (ci_mapping (snd e))) entries ->
      exists new,
        wire (fst (disconnectBucket st entries rejected)) = wire st ++ new
        /\ map frameCmd new = repeat CMD_DISCONNECT (List.length entries)).
Proof.
  revert st rejected.
  induction entries as [|[clientId clientInfo] rest IH]; intros st rejected.
  - cbn. repeat split. intros _. exists []. now rewrite app_nil_r.
  - cbn [disconnectBucket].
    destruct (ingress_sendPacket_cases st CMD_DISCONNECT clientId []
                (remoteHost (ci_mapping clientInfo))
                (remotePort (ci_mapping clientInfo)))
      as [(st1 & f & R & W & F & C & S & M & O & P & E)
         |(st1 & R & W & C & S & M & O & P & E & N)]; rewrite R.
    + destruct (IH st1 rejected) as (C' & O' & J).
      split; [congruence|]. split; [congruence|].
      intros H. inversion H as [|? ? Hm Hr]; subst.
      destruct (J Hr) as (new & Wn & Fn).
      exists (f :: new). split.
      * rewrite Wn, W, <- app_assoc. reflexivity.
      * cbn [map List.length repeat]. now rewrite F, Fn.
    + destruct (IH st1 true) as (C' & O' & J).
      split; [congruence|]. split; [congruence|].
      intros H. inversion H as [|? ? Hm Hr]; subst. exfalso. apply N.
      unfold CMD_DISCONNECT, maxDataLength. cbn [List.length snd] in *.
      repeat split; try apply Hm; lia.
Qed.

Lemma disconnectAll_frames (byPort : Map (Map ClientInfo)) (st : State)
    (rejected : bool) :
  clientsByPort (fst (disconnectAll st byPort rejected)) = clientsByPort st
  /\ serialOpen (fst (disconnectAll st byPort rejected)) = serialOpen st
  /\ (Forall (fun b => Forall (fun e => mappingOK (ci_mapping (snd e))) (snd b))
        byPort ->
      exists new,
        wire (fst (disconnectAll st byPort rejected)) = wire st ++ new
        /\ map frameCmd new
           = repeat CMD_DISCONNECT
               (List.length (List.concat (map snd byPort)))).
Proof.
  revert st rejected.
  induction byPort as [|[port clients] rest IH]; intros st rejected.
  - cbn. repeat split. intros _. exists []. now rewrite app_nil_r.
  - cbn [disconnectAll].
    destruct (disconnectBucket_frames clients st rejected) as (C & O & J).
    destruct (disconnectBucket st clients rejected) as [st1 r1].
    cbn [fst] in *.
    destruct (IH st1 r1) as (C' & O' & J').
    split; [congruence|]. split; [congruence|].
    intros H. inversion H as [|? ? Hb Hr]; subst. cbn [snd] in Hb.
    destruct (J Hb) as (n1 & W1 & F1). destruct (J' Hr) as (n2 & W2 & F2).
    exists (n1 ++ n2). split.
    + rewrite W2, W1, <- app_assoc. reflexivity.
    + cbn [map List.concat snd]. rewrite map_app, length_app, repeat_app.
      now rewrite F1, F2.
Qed.

Lemma ingress_gracefulShutdown_keeps (st : State) :
  (clientsByPort (gracefulShutdown st) = clientsByPort st
   \/ clientsByPort (gracefulShutdown st) = [])
  /\ serialOpen (gracefulShutdown st) = serialOpen st
  /\ (serialOpen st = false -> wire (gracefulShutdown st) = wire st).
Proof.
  unfold gracefulShutdown. destruct (serialOpen st) eqn:O.
  - destruct (disconnectAll_frames (clientsByPort st) st false) as (C & S & _).
    destruct (disconnectAll st (clientsByPort st) false) as [st1 rejected].
    cbn [fst] in *.
    destruct (anyClient (clientsByPort st)).
    + destruct rejected; st_cbn; repeat split; auto; try congruence;
        discriminate.
    + destruct (ingress_closeSockets_keeps st1) as (X & Y & Z).
      split; [|split; [congruence|discriminate]].
      destruct X as [X|X]; [left; congruence|now right].
  - destruct (ingress_closeSockets_keeps st) as (X & Y & Z).
    split; [exact X|]. split; [congruence|]. intros _. exact Y.
Qed.

Lemma startShutdown_keeps (st st' : State) :
  startShutdown st = Some st' ->
  (clientsByPort st' = clientsByPort st \/ clientsByPort st' = [])
  /\ serialOpen st' = serialOpen st
  /\ (serialOpen st = false -> wire st' = wire st).
Proof.
  unfold startShutdown. destruct (phase st); try discriminate.
  intros [= <-]. apply ingress_gracefulShutdown_keeps.
Qed.

Lemma onConnection_keys (st : State) (mapping : Mapping) :
  keysAreNumbers st -> keysAreNumbers (onConnection st mapping).
Proof.
  unfold keysAreNumbers, onConnection. intros K. st_cbn.
  apply numkeys_mapSet.
  destruct (mapHas _ _); [exact K|now apply numkeys_mapSet].
Qed.

Lemma onSocketClose_keeps (st : State) (s : nat) (k : Socket) (st' : State) :
  onSocketClose st s k = Return st' \/ onSocketClose st s k = Throw st' ->
  (keysAreNumbers st -> keysAreNumbers st')
  /\ serialOpen st' = serialOpen st
  /\ (serialOpen st = false -> wire st' = wire st).
Proof.
  unfold onSocketClose. cbv zeta.
  set (st1 := updSocket st s skSetClosed).
  set (st2 := match mapGet (clientsByPort st1) (JsNum (localPort (sk_mapping k)))
              with
              | Some bucket =>
                  setClientsByPort st1
                    (mapSet (clientsByPort st1)
                       (JsNum (localPort (sk_mapping k)))
                       (mapDelete bucket (JsStr (sk_clientId k))))
              | None => st1
              end).
  assert (K2 : keysAreNumbers st -> keysAreNumbers st2).
  { intros K. unfold st2.
    destruct (mapGet (clientsByPort st1) _); [|exact K].
    unfold keysAreNumbers. st_cbn. now apply numkeys_mapSet. }
  assert (O2 : serialOpen st2 = serialOpen st)
    by (unfold st2; destruct (mapGet (clientsByPort st1) _); reflexivity).
  assert (W2 : wire st2 = wire st)
    by (unfold st2; destruct (mapGet (clientsByPort st1) _); reflexivity).
  rewrite O2. destruct (serialOpen st) eqn:O.
  - destruct (ingress_sendPacket_cases st2 CMD_DISCONNECT
                (JsStr (sk_clientId k)) [] (remoteHost (sk_mapping k))
                (remotePort (sk_mapping k)))
      as [(x & f & R & W & F & C & S & M & Op & _)
         |(x & R & W & C & S & M & Op & _)];
      rewrite R; intros [E|E]; try discriminate; injection E as <-;
      (split; [intros K; apply keys_same with st2; auto
              |split; [congruence|discriminate]]).
  - intros [E|E]; [|discriminate]. injection E as <-.
    split; [exact K2|]. split; [exact O2|]. intros _. exact W2.
Qed.

Lemma onSocketData_keeps (st : State) (k : Socket) (d : list byte) (st' : State) :
  onSocketData st k d = Return st' \/ onSocketData st k d = Throw st' ->
  clientsByPort st' = clientsByPort st
  /\ serialOpen st' = serialOpen st
  /\ (serialOpen st = false -> wire st' = wire st).
Proof.
  unfold onSocketData. destruct (serialOpen st) eqn:O.
  - destruct (ingress_sendPacket_cases st CMD_DATA (JsStr (sk_clientId k)) d
                (remoteHost (sk_mapping k)) (remotePort (sk_mapping k)))
      as [(x & f & R & W & F & C & S & M & Op & _)
         |(x & R & W & C & S & M & Op & _)];
      rewrite R; intros [E|E]; try discriminate; injection E as <-;
      (split; [exact C|split; [congruence|discriminate]]).
  - intros [E|E]; [|discriminate]. injection E as <-. auto.
Qed.

(** One step: the keys stay port numbers, the serial port does not
    reopen, and nothing is written while it is not open. *)
Lemma step_keeps (st : State) (ev : Event) (st' : State) :
  step st ev = Some st' ->
  (keysAreNumbers st -> keysAreNumbers st')
  /\ (serialOpen st = false ->
      serialOpen st' = false /\ wire st' = wire st).
Proof.
  unfold step. destruct (exitCode st); [discriminate|].
  destruct ev as [chunk|i|s d|s|s| | | |s| | |].
  - unfold onSerialData.
    destruct (_transform (buffer st) chunk) as [[ps b]|]; [|discriminate].
    intros [= <-].
    destruct (handleResponsePackets_spec ps (setBuffer st b))
      as (_ & W & O & _).
    split.
    + intros K. apply keys_same with (setBuffer st b); [|exact K].
      left. now apply handleResponsePackets_table.
    + intros C. rewrite W, O. auto.
  - destruct (nth_error (portMappings st) i) as [m|]; [|discriminate].
    destruct (listening st); [|discriminate]. intros [= <-].
    split; [apply onConnection_keys|]. intros C. split; [exact C|reflexivity].
  - destruct (nth_error (sockets st) s) as [k|]; [|discriminate].
    destruct (negb _); [|discriminate].
    destruct (onSocketData st k d) as [st1|st1] eqn:E; cbn [settle].
    + intros [= <-].
      destruct (onSocketData_keeps st k d st1 (or_introl E)) as (T & O & W).
      split; [intros K; apply keys_same with st; auto|].
      intros C. split; [congruence|auto].
    + intros S.
      destruct (onSocketData_keeps st k d st1 (or_intror E)) as (T & O & W).
      destruct (startShutdown_keeps _ _ S) as (T' & O' & W').
      split.
      * intros K. apply keys_same with st1; [exact T'|].
        apply keys_same with st; auto.
      * intros C. split; [congruence|].
        rewrite W' by congruence. auto.
  - destruct (nth_error (sockets st) s) as [k|]; [|discriminate].
    destruct (negb _); [|discriminate].
    destruct (onSocketClose st s k) as [st1|st1] eqn:E.
    + intros [= <-].
      destruct (onSocketClose_keeps st s k st1 (or_introl E)) as (K1 & O & W).
      destruct (ingress_resolveClose_keeps st1 s) as (T' & W' & O').
      split.
      * intros K. apply keys_same with st1; auto.
      * intros C. split; [congruence|]. rewrite W'. auto.
    + intros S.
      destruct (onSocketClose_keeps st s k st1 (or_intror E)) as (K1 & O & W).
      destruct (startShutdown_keeps _ _ S) as (T' & O' & W').
      split.
      * intros K. apply keys_same with st1; auto.
      * intros C. split; [congruence|].
        rewrite W' by congruence. auto.
  - destruct (nth_error (sockets st) s) as [k|]; [|discriminate].
    destruct (negb _); [|discriminate]. intros [= <-]. auto.
  - destruct (immediates st) as [|n]; [discriminate|]. intros S.
    destruct (startShutdown_keeps _ _ S) as (T' & O' & W').
    split.
    + intros K. apply keys_same with (setImmediates st n); auto.
    + intros C. split; [rewrite O'; exact C|]. now rewrite W'.
  - intros S. destruct (startShutdown_keeps _ _ S) as (T' & O' & W').
    split.
    + intros K. apply keys_same with st; auto.
    + intros C. split; [congruence|auto].
  - destruct (phase st); try discriminate. intros [= <-].
    destruct (ingress_closeSockets_keeps st) as (T & W & O).
    split; [intros K; apply keys_same with st; auto|].
    intros C. split; [congruence|exact W].
  - destruct (phase st); try discriminate.
    destruct (existsb (Nat.eqb s) pending); [|discriminate].
    intros [= <-].
    set (st1 := if socketDestroyed st s then st else updSocket st s skDestroy).
    assert (A : clientsByPort st1 = clientsByPort st
                /\ wire st1 = wire st /\ serialOpen st1 = serialOpen st)
      by (unfold st1; destruct (socketDestroyed st s); now repeat split).
    destruct A as (A1 & A2 & A3).
    destruct (ingress_resolveClose_keeps st1 s) as (T & W & O).
    split.
    + intros K. apply keys_same with st1; [exact T|].
      apply keys_same with st; auto.
    + intros C. split; congruence.
  - destruct (phase st); try discriminate. intros [= <-].
    destruct (ingress_closeSerial_keeps st) as (T & W & O).
    split; [intros K; apply keys_same with st; auto|].
    intros C. split; [congruence|exact W].
  - destruct (phase st); try discriminate. intros [= <-].
    split; [intros K; exact K|]. intros _. split; reflexivity.
  - destruct (phase st); try discriminate. intros [= <-].
    split; [intros K; exact K|]. intros C. split; [exact C|reflexivity].
Qed.

Lemma run_keeps (trace : list Event) (st st' : State) :
  run st trace = Some st' ->
  (keysAreNumbers st -> keysAreNumbers st')
  /\ (serialOpen st = false ->
      serialOpen st' = false /\ wire st' = wire st).
Proof.
  revert st. induction trace as [|ev rest IH]; intros st R.
  - cbn in R. injection R as <-. auto.
  - cbn [run] in R. destruct (step st ev) as [s1|] eqn:E; [|discriminate].
    destruct (step_keeps _ _ _ E) as (K1 & C1).
    destruct (IH _ R) as (K2 & C2).
    split; [auto|]. intros C. destruct (C1 C) as (O1 & W1).
    destruct (C2 O1) as (O2 & W2). split; congruence.
Qed.

(** X8. In every state that the ingress reaches, the keys of
    [clientsByPort] are port numbers, so that no packet from the serial
    port changes the table: a Disconnect ends the socket of the session
    and leaves its entry where it is, until the socket closes. *)
Theorem serial_packets_keep_table
    (mappings : list Mapping) (rng : nat -> list byte)
    (trace : list Event) (st : State) :
  run (init mappings rng) trace = Some st ->
  keysAreNumbers st
  /\ (forall p, clientsByPort (handleResponsePacket st p) = clientsByPort st)
  /\ (forall chunk st',
        step st (SerialData chunk) = Some st' ->
        clientsByPort st' = clientsByPort st).
Proof.
  intros R.
  assert (K : keysAreNumbers st)
    by (apply (proj1 (run_keeps _ _ _ R)); constructor).
  split; [exact K|]. split.
  - intros p. now apply handleResponsePacket_table.
  - intros chunk st'. unfold step. destruct (exitCode st); [discriminate|].
    unfold onSerialData.
    destruct (_transform (buffer st) chunk) as [[ps b]|]; [|discriminate].
    intros [= <-]. now apply (handleResponsePackets_table ps (setBuffer st b)).
Qed.

Lemma serial_packets_keep_table_witness :
  exists st,
    run (init [echoMapping] rngConst) [Connection 0] = Some st
    /\ clientsByPort (handleResponsePacket st frameDisconnect1)
       = clientsByPort st
    /\ clientsByPort st <> [].
Proof.
  eexists. split; [vm_compute; reflexivity|]. split.
  - apply (serial_packets_keep_table [echoMapping] rngConst [Connection 0]).
    vm_compute. reflexivity.
  - vm_compute. discriminate.
Defined.

Lemma disconnectBucket_sticky (entries : Map ClientInfo) (st : State) :
  snd (disconnectBucket st entries true) = true.
Proof.
  revert st. induction entries as [|[clientId clientInfo] rest IH]; intros st;
    [reflexivity|].
  cbn [disconnectBucket]. destruct (sendPacket _ _ _ _ _ _); apply IH.
Qed.

Lemma disconnectBucket_rejects (entries : Map ClientInfo) (st : State)
    (rejected : bool) key client :
  In (key, client) entries ->
  ~ mappingOK (ci_mapping client) ->
  snd (disconnectBucket st entries rejected) = true.
Proof.
  revert st rejected.
  induction entries as [|[clientId clientInfo] rest IH]; intros st rejected I B;
    [destruct I|].
  cbn [disconnectBucket].
  destruct (sendPacket st CMD_DISCONNECT clientId []
              (remoteHost (ci_mapping clientInfo))
              (remotePort (ci_mapping clientInfo))) as [s1|s1] eqn:E.
  - destruct I as [I|I]; [|now apply IH].
    injection I as -> ->. exfalso. apply B.
    apply (proj1 (sendPacket_returns_iff st CMD_DISCONNECT key []
                    (remoteHost (ci_mapping client))
                    (remotePort (ci_mapping client)))).
    now exists s1.
  - apply disconnectBucket_sticky.
Qed.

Lemma disconnectAll_sticky (byPort : Map (Map ClientInfo)) (st : State) :
  snd (disconnectAll st byPort true) = true.
Proof.
  revert st. induction byPort as [|[port clients] rest IH]; intros st;
    [reflexivity|].
  cbn [disconnectAll].
  pose proof (disconnectBucket_sticky clients st) as S.
  destruct (disconnectBucket st clients true) as [s1 r1]. cbn in S. subst r1.
  apply IH.
Qed.

Lemma disconnectAll_rejects (byPort : Map (Map ClientInfo)) (st : State)
    (rejected : bool) port bucket key client :
  In (port, bucket) byPort ->
  In (key, client) bucket ->
  ~ mappingOK (ci_mapping client) ->
  snd (disconnectAll st byPort rejected) = true.
Proof.
  revert st rejected.
  induction byPort as [|[port' clients] rest IH]; intros st rejected I J B;
    [destruct I|].
  cbn [disconnectAll].
  destruct I as [I|I].
  - injection I as -> ->.
    pose proof (disconnectBucket_rejects bucket st rejected key client J B) as S.
    destruct (disconnectBucket st bucket rejected) as [s1 r1]. cbn in S.
    subst r1. apply disconnectAll_sticky.
  - destruct (disconnectBucket st clients rejected) as [s1 r1].
    now apply IH.
Qed.

Lemma disconnectBucket_sockets (entries : Map ClientInfo) (st : State)
    (rejected : bool) :
  sockets (fst (disconnectBucket st entries rejected)) = sockets st.
Proof.
  revert st rejected.
  induction entries as [|[k0 c0] rest IH]; intros st rejected; [reflexivity|].
  cbn [disconnectBucket].
  destruct (ingress_sendPacket_cases st CMD_DISCONNECT k0 []
              (remoteHost (ci_mapping c0)) (remotePort (ci_mapping c0)))
    as [(x & f & R & _ & _ & _ & Sx & _)|(x & R & _ & _ & Sx & _)];
    rewrite R, IH; exact Sx.
Qed.

Lemma disconnectAll_sockets (byPort : Map (Map ClientInfo)) (st : State)
    (rejected : bool) :
  sockets (fst (disconnectAll st byPort rejected)) = sockets st.
Proof.
  revert st rejected.
  induction byPort as [|[p0 b0] rest IH]; intros st rejected; [reflexivity|].
  cbn [disconnectAll].
  pose proof (disconnectBucket_sockets b0 st rejected) as Sb.
  destruct (disconnectBucket st b0 rejected) as [s1 r1]. cbn [fst] in Sb.
  rewrite IH. exact Sb.
Qed.

(** X10. A session whose mapping has a target port outside 0..65535 makes
    the shutdown of the ingress end with status 1: its Disconnect cannot
    be built, the promise of step 1 is rejected, and the [catch] of
    [gracefulShutdown] exits before any socket is ended. *)
Theorem unencodable_session_exits_1 (st : State) port bucket key client :
  serialOpen st = true ->
  In (port, bucket) (clientsByPort st) ->
  In (key, client) bucket ->
  ~ mappingOK (ci_mapping client) ->
  exitCode (gracefulShutdown st) = Some 1
  /\ sockets (gracefulShutdown st) = sockets st.
Proof.
  intros O I J B. unfold gracefulShutdown. rewrite O.
  pose proof (disconnectAll_rejects (clientsByPort st) st false
                port bucket key client I J B) as Rj.
  pose proof (disconnectAll_sockets (clientsByPort st) st false) as S.
  destruct (disconnectAll st (clientsByPort st) false) as [st1 rejected].
  cbn [fst snd] in *. subst rejected.
  assert (A : anyClient (clientsByPort st) = true).
  { unfold anyClient. apply existsb_exists. exists (port, bucket).
    split; [exact I|]. cbn [snd]. destruct bucket; [destruct J|reflexivity]. }
  rewrite A. split; [reflexivity|exact S].
Qed.

Lemma unencodable_session_exits_1_witness :
  exists st,
    run (init [badMapping] rngConst) [Connection 0] = Some st
    /\ exitCode (gracefulShutdown st) = Some 1.
Proof.
  eexists. split; [vm_compute; reflexivity|].
  eapply unencodable_session_exits_1.
  - reflexivity.
  - left. reflexivity.
  - left. reflexivity.
  - unfold mappingOK, portOK. cbn. lia.
Defined.

End IngressMore.

(** ** The two processes, back to back *)

Module Bridge.
Import Js JsFacts Codec Wire Samples Vocabulary CodecFacts FramerFacts
  FieldFacts StoreFacts.

Lemma transform_single (frame : list byte) (p : Packet) :
  extract frame = Some (p, []) -> _transform [] frame = Some ([p], []).
Proof.
  intros E. unfold _transform. cbn [app].
  pose proof (extract_length _ _ _ E) as L.
  destruct (List.length frame) as [|n] eqn:Ln; [cbn in L; lia|].
  cbn [transformLoop]. rewrite E.
  now rewrite (transformLoop_none n []).
Qed.

(** What the framer of the peer makes of a packet built for the id of
    sixteen bytes [id]. *)
Lemma createPacket_decodes c (id payload : list byte) host port uuid :
  0 <= c <= 255 ->
  List.length id = 16%nat ->
  portOK port ->
  Z.of_nat (List.length payload) <= maxDataLength ->
  exists frame,
    createPacket c (JsStr (toHex id)) payload host port uuid = Some frame
    /\ extract frame
       = Some (mkPacket c (toHex id)
                 (joinDots (map byteToString (pad 4 (ipBuffer host))))
                 port payload, []).
Proof.
  intros Hc Lid Hp Hd.
  exists (frameBytes c id (ipBuffer host) port payload). split.
  - rewrite createPacket_layout; auto;
      rewrite clientIdBuffer_hex by exact Lid; [reflexivity|lia].
  - pose proof (length_ipBuffer host) as Lip.
    rewrite frameBytes_pad by lia.
    rewrite (pad_full 16 id) by exact Lid.
    rewrite <- (app_nil_r (frameBytes _ _ _ _ _)).
    apply extract_frameBytes; auto. now apply pad_length.
Qed.

Lemma drawsUUID_hex (id : list byte) :
  List.length id = 16%nat -> drawsUUID (JsStr (toHex id)) = false.
Proof.
  intros L. unfold drawsUUID. now rewrite length_toHex, L.
Qed.

(** X11. From the client to the target.  The ingress frames the bytes
    that a client socket receives; when the egress reads that frame and
    has no session for the id, it dials the port of the mapping at the
    dotted form of the four octets that [createPacket] made of the host,
    and keeps the bytes for the connect callback. *)
Theorem ingress_data_dials_at_egress
    (ist : Ingress.State) (k : Ingress.Socket) (payload id : list byte)
    (est : Egress.State) :
  Ingress.serialOpen ist = true ->
  mappingOK (Ingress.sk_mapping k) ->
  Z.of_nat (List.length payload) <= maxDataLength ->
  List.length id = 16%nat ->
  Ingress.sk_clientId k = toHex id ->
  Egress.exitCode est = None ->
  Egress.buffer est = [] ->
  mapGet (Egress.clients est) (JsStr (toHex id)) = None ->
  exists ist' frame est',
    Ingress.onSocketData ist k payload = Ingress.Return ist'
    /\ Ingress.wire ist' = Ingress.wire ist ++ [frame]
    /\ Egress.step est (Egress.SerialData frame) = Some est'
    /\ Egress.sockets est'
       = Egress.sockets est
         ++ [Egress.mkSocket (toHex id)
               (joinDots
                  (map byteToString
                     (pad 4 (ipBuffer (Ingress.remoteHost (Ingress.sk_mapping k))))))
               (Ingress.remotePort (Ingress.sk_mapping k))
               payload false false false false []]
    /\ Egress.clients est' = Egress.clients est
    /\ Egress.buffer est' = [].
Proof.
  intros O M Hd Lid Hid Ex Bf G.
  destruct (createPacket_decodes CMD_DATA id payload
              (Ingress.remoteHost (Ingress.sk_mapping k))
              (Ingress.remotePort (Ingress.sk_mapping k))
              (randomUUID (Ingress.rng ist (Ingress.draws ist))))
    as (frame & C & E); [unfold CMD_DATA; lia|exact Lid|exact M|exact Hd|].
  exists (Ingress.serialWrite ist frame), frame.
  eexists. split; [|split; [reflexivity|]].
  - unfold Ingress.onSocketData, Ingress.sendPacket, Ingress.createPacketS.
    now rewrite O, Hid, C, (drawsUUID_hex id Lid).
  - unfold Egress.step, Egress.onSerialData.
    rewrite Ex, Bf, (transform_single _ _ E). cbn [fold_left].
    unfold Egress.handlePacket. cbn [cmd clientId targetHost targetPort data].
    change (CMD_DATA =? CMD_DATA) with true. cbv iota.
    change (Egress.clients (Egress.setBuffer est [])) with (Egress.clients est).
    rewrite G. split; [reflexivity|]. now repeat split.
Qed.

Lemma ingress_data_dials_at_egress_witness :
  exists ist ist' frame est',
    Ingress.run (Ingress.init [echoMapping] rngConst) [Ingress.Connection 0]
    = Some ist
    /\ Ingress.step ist (Ingress.SocketData 0 [x68; x69]) = Some ist'
    /\ Ingress.wire ist' = [frame]
    /\ Egress.step (Egress.init rngConst) (Egress.SerialData frame) = Some est'
    /\ map Egress.sk_targetHost (Egress.sockets est') = ["127.0.0.1"%string]
    /\ map Egress.sk_data (Egress.sockets est') = [[x68; x69]].
Proof.
  eexists. eexists. eexists. eexists.
  split; [vm_compute; reflexivity|].
  match goal with
  | |- Ingress.step ?s _ = _ /\ _ =>
      destruct (ingress_data_dials_at_egress s
                  (Ingress.mkSocket (toHex id1) echoMapping false false false [])
                  [x68; x69] id1 (Egress.init rngConst))
        as (i' & f & e' & A & B & C & D & _)
  end; try reflexivity.
  - unfold mappingOK, portOK. cbn. lia.
  - cbn. unfold maxDataLength. lia.
  - split; [vm_compute; reflexivity|].
    split; [vm_compute; reflexivity|].
    split; [vm_compute; reflexivity|]. split; vm_compute; reflexivity.
Defined.

(** X12. From the target back to the client.  The egress frames the
    bytes that a target socket receives; when the ingress reads that
    frame, it calls [write] on the socket of the first bucket that holds
    the id, if that socket is not destroyed, writes nothing to the serial
    port and leaves the table alone.  When the socket has not been ended
    the bytes go out on it, unchanged; when it has been ended, as after a
    Disconnect from the peer, whose entry stays in the table until the
    socket closes, the bytes are lost and the write destroys the
    socket. *)
Theorem egress_data_reaches_client
    (est : Egress.State) (k : Egress.Socket) (payload id : list byte)
    (ist : Ingress.State) (client : Ingress.ClientInfo)
    (ks : Ingress.Socket) :
  Egress.serialOpen est = true ->
  portOK (Egress.sk_targetPort k) ->
  Z.of_nat (List.length payload) <= maxDataLength ->
  List.length id = 16%nat ->
  Egress.sk_clientId k = toHex id ->
  Ingress.exitCode ist = None ->
  Ingress.buffer ist = [] ->
  Ingress.findClient (Ingress.clientsByPort ist) (JsStr (toHex id))
  = Some client ->
  nth_error (Ingress.sockets ist) (Ingress.ci_socket client) = Some ks ->
  Ingress.sk_destroyed ks = false ->
  exists est' frame ist',
    Egress.onSocketData est k payload = Egress.Return est'
    /\ Egress.wire est' = Egress.wire est ++ [frame]
    /\ Ingress.step ist (Ingress.SerialData frame) = Some ist'
    /\ Ingress.wire ist' = Ingress.wire ist
    /\ Ingress.clientsByPort ist' = Ingress.clientsByPort ist
    /\ (forall s, s <> Ingress.ci_socket client ->
                  nth_error (Ingress.sockets ist') s
                  = nth_error (Ingress.sockets ist) s)
    /\ (Ingress.sk_ended ks = false ->
        nth_error (Ingress.sockets ist') (Ingress.ci_socket client)
        = Some (Ingress.mkSocket (Ingress.sk_clientId ks)
                  (Ingress.sk_mapping ks) false (Ingress.sk_closed ks) false
                  (Ingress.sk_written ks ++ [payload])))
    /\ (Ingress.sk_ended ks = true ->
        nth_error (Ingress.sockets ist') (Ingress.ci_socket client)
        = Some (Ingress.skDestroy ks)).
Proof.
  intros O M Hd Lid Hid Ex Bf G N D.
  destruct (createPacket_decodes CMD_DATA id payload
              (Egress.sk_targetHost k) (Egress.sk_targetPort k)
              (randomUUID (Egress.rng est (Egress.draws est))))
    as (frame & C & E); [unfold CMD_DATA; lia|exact Lid|exact M|exact Hd|].
  exists (Egress.serialWrite est frame), frame.
  exists (Ingress.updSocket (Ingress.setBuffer ist [])
            (Ingress.ci_socket client) (Ingress.skWrite payload)).
  split; [|split; [reflexivity|split]].
  - unfold Egress.onSocketData, Egress.sendPacket, Egress.createPacketS.
    now rewrite O, Hid, C, (drawsUUID_hex id Lid).
  - unfold Ingress.step, Ingress.onSerialData.
    rewrite Ex, Bf, (transform_single _ _ E). cbn [fold_left].
    unfold Ingress.handleResponsePacket.
    cbn [cmd clientId targetHost targetPort data].
    change (CMD_DATA =? CMD_DATA) with true. cbv iota.
    change (Ingress.clientsByPort (Ingress.setBuffer ist []))
      with (Ingress.clientsByPort ist).
    rewrite G.
    change (Ingress.socketDestroyed (Ingress.setBuffer ist [])
              (Ingress.ci_socket client))
      with (Ingress.socketDestroyed ist (Ingress.ci_socket client)).
    unfold Ingress.socketDestroyed. now rewrite N, D.
  - cbn [Ingress.wire Ingress.clientsByPort Ingress.sockets Ingress.updSocket
           Ingress.setSockets Ingress.setBuffer].
    split; [reflexivity|]. split; [reflexivity|]. split; [|split].
    + intros s Ns. now apply nth_error_updateAt_other.
    + intros En. rewrite nth_error_updateAt_same, N. cbn [option_map].
      unfold Ingress.skWrite. now rewrite D, En.
    + intros En. rewrite nth_error_updateAt_same, N. cbn [option_map].
      unfold Ingress.skWrite. now rewrite D, En.
Qed.

(** Bytes from the target come back to the client of the session; after
    a Disconnect from the peer, with the socket ended and not yet
    closed, the same frame destroys the socket and nothing is written. *)
Lemma egress_data_reaches_client_witness :
  exists ist est k est' frame ist1 ist2 ist3,
    Ingress.run (Ingress.init [echoMapping] rngConst) [Ingress.Connection 0]
    = Some ist
    /\ Egress.run (Egress.init rngConst)
         [Egress.SerialData
            (bytesOf (mkPacket CMD_DATA (toHex id1) "127.0.0.1" 9000 [x68]));
          Egress.Connect 0] = Some est
    /\ nth_error (Egress.sockets est) 0 = Some k
    /\ Egress.onSocketData est k [x6f; x6b] = Egress.Return est'
    /\ Egress.wire est' = Egress.wire est ++ [frame]
    /\ Ingress.step ist (Ingress.SerialData frame) = Some ist1
    /\ nth_error (Ingress.sockets ist1) 0
       = Some (Ingress.mkSocket (toHex id1) echoMapping false false false
                 [[x6f; x6b]])
    /\ Ingress.step ist (Ingress.SerialData (bytesOf frameDisconnect1))
       = Some ist2
    /\ Ingress.step ist2 (Ingress.SerialData frame) = Some ist3
    /\ nth_error (Ingress.sockets ist3) 0
       = Some (Ingress.mkSocket (toHex id1) echoMapping true false true []).
Proof.
  eexists. eexists. eexists.
  match goal with
  | |- exists est' frame ist1 ist2 ist3,
         Ingress.run _ ?ti = Some ?i /\ Egress.run _ ?te = Some ?e
         /\ nth_error _ _ = Some ?k /\ _ =>
      assert (Ri : Ingress.run (Ingress.init [echoMapping] rngConst) ti = Some i)
        by (vm_compute; reflexivity);
      assert (Re : Egress.run (Egress.init rngConst) te = Some e)
        by (vm_compute; reflexivity);
      assert (Nk : nth_error (Egress.sockets e) 0 = Some k) by reflexivity
  end.
  match type of Ri with
  | _ = Some ?i =>
      match type of Nk with
      | nth_error (Egress.sockets ?e) _ = Some ?k =>
          destruct (egress_data_reaches_client e k [x6f; x6b] id1 i
                      (Ingress.mkClientInfo (toHex id1) 0 8080 echoMapping)
                      (Ingress.mkSocket (toHex id1) echoMapping
                         false false false [])
                      eq_refl ltac:(unfold portOK; cbn; lia)
                      ltac:(cbn; unfold maxDataLength; lia)
                      eq_refl eq_refl eq_refl eq_refl eq_refl eq_refl eq_refl)
            as (e' & f & i1 & A & B & C & _ & _ & _ & D & _);
          assert (R2 : exists i2,
                     Ingress.step i
                       (Ingress.SerialData (bytesOf frameDisconnect1))
                     = Some i2)
            by (eexists; vm_compute; reflexivity);
          destruct R2 as (i2 & R2)
      end
  end.
  pose proof R2 as R2'. vm_compute in R2'. injection R2' as E2.
  match type of Nk with
  | nth_error (Egress.sockets ?e) _ = Some ?k =>
      destruct (egress_data_reaches_client e k [x6f; x6b] id1 i2
                  (Ingress.mkClientInfo (toHex id1) 0 8080 echoMapping)
                  (Ingress.mkSocket (toHex id1) echoMapping
                     false false true [])
                  eq_refl ltac:(unfold portOK; cbn; lia)
                  ltac:(cbn; unfold maxDataLength; lia)
                  eq_refl eq_refl
                  ltac:(now rewrite <- E2) ltac:(now rewrite <- E2)
                  ltac:(now rewrite <- E2) ltac:(now rewrite <- E2) eq_refl)
        as (e'' & f' & i3 & A' & B' & C' & _ & _ & _ & _ & D')
  end.
  assert (Ef : f' = f).
  { rewrite A in A'. injection A' as <-. rewrite B in B'.
    apply app_inv_head in B'. now injection B' as <-. }
  subst f'.
  exists e', f, i1, i2, i3.
  split; [exact Ri|]. split; [exact Re|]. split; [exact Nk|].
  split; [exact A|]. split; [exact B|]. split; [exact C|].
  split; [exact (D eq_refl)|]. split; [exact R2|]. split; [exact C'|].
  exact (D' eq_refl).
Defined.

End Bridge.

(** ** The logger *)

Module LoggerFacts.
Import Js Logger.
Local Open Scope string_scope.

(** The line that [outputToConsole] prints for a message. *)
Lemma console_line (lg : Logger) (level : Level) (message : string)
    (out : Output) :
  console (outputToConsole lg level message out)
  = app (console out) [if opt_colorize (options lg)
         then LEVEL_COLORS level ++ message ++ RESET_COLOR
         else message].
Proof. reflexivity. Qed.

Lemma outputToFile_console (lg : Logger) (message : string)
    (io : option string) (out : Output) :
  console (outputToFile lg message io out) = console out.
Proof.
  unfold outputToFile. destruct (opt_logToFile (options lg)); [|reflexivity].
  now destruct io.
Qed.

(** X14. With [logToFile] set, every call of [log] appends the formatted
    message, without colour codes, to the log file, whatever the level
    and its switch: switching a level off silences the console and
    leaves the file copy. *)
Theorem file_copy_ignores_switches
    (lg : Logger) (now : string) (level : Level) (message : string)
    (data : option string) (out : Output) :
  opt_logToFile (options lg) = true ->
  appended (log lg now level message data None out)
  = app (appended out) [(opt_logFile (options lg),
          formatMessage lg now level message data ++ String (chr 10) "")]
  /\ (shown (options lg) level = false ->
      console (log lg now level message data None out) = console out).
Proof.
  intros F. unfold log. cbv zeta. split.
  - unfold outputToFile. rewrite F. cbv zeta.
    now destruct (shown (options lg) level).
  - intros S. rewrite S. apply outputToFile_console.
Qed.

Lemma file_copy_ignores_switches_witness :
  log (new "bridge"
         (mkGiven None (Some false) None None None (Some false) None
            (Some true) None))
    "12:00" INFO "listening" None None noOutput
  = mkOutput [] []
      [("tcp-bridge.log", "[bridge] [INFO] listening" ++ String (chr 10) "")].
Proof.
  pose proof (file_copy_ignores_switches
                (new "bridge"
                   (mkGiven None (Some false) None None None (Some false) None
                      (Some true) None))
                "12:00" INFO "listening" None noOutput eq_refl) as [_ H].
  specialize (H eq_refl). reflexivity.
Defined.

(** X15. [verbose] produces nothing at all, in the file either, unless
    [options.verbose] is set; when it is set, [verbose] is [debug], and
    debug messages are printed even with [options.debug] off. *)
Theorem verbose_needs_its_switch
    (lg : Logger) (now message : string) (data io : option string)
    (out : Output) :
  (opt_verbose (options lg) = false ->
   verbose lg now message data io out = out)
  /\ (opt_verbose (options lg) = true ->
      verbose lg now message data io out = debug lg now message data io out
      /\ console (debug lg now message data io out)
         = app (console out) [if opt_colorize (options lg)
                then LEVEL_COLORS DEBUG
                     ++ formatMessage lg now DEBUG message data ++ RESET_COLOR
                else formatMessage lg now DEBUG message data]).
Proof.
  unfold verbose, debug. split; intros V; rewrite V; [reflexivity|].
  split; [reflexivity|]. unfold log. cbv zeta. cbn [shown]. rewrite V.
  rewrite orb_true_r, outputToFile_console. apply console_line.
Qed.

Lemma verbose_needs_its_switch_witness :
  verbose (new "" (mkGiven (Some true) None None None None None None
                     (Some true) None))
    "12:00" "chunk" None None noOutput = noOutput
  /\ console (debug (new "" (mkGiven None None None None (Some true)
                               (Some false) (Some false) None None))
                "12:00" "chunk" (Some "5") None noOutput)
     = ["[DEBUG] chunk 5"].
Proof.
  split.
  - apply (proj1 (verbose_needs_its_switch
                    (new "" (mkGiven (Some true) None None None None None None
                               (Some true) None))
                    "12:00" "chunk" None None noOutput)).
    reflexivity.
  - apply (proj2 (verbose_needs_its_switch
                    (new "" (mkGiven None None None None (Some true)
                               (Some false) (Some false) None None))
                    "12:00" "chunk" (Some "5") None noOutput)).
    reflexivity.
Defined.





Ltac by_key :=
  unfold assign;
  repeat match goal with
         | |- context [String.eqb ?a ?b] => destruct (String.eqb a b)
         end.



(** X17. A child of a logger that the constructor made has, for every
    switch, the value given to [child] if there is one and the value of
    its parent otherwise; for [logFile] the same, except that an empty
    name given to [child] brings back the default file name, not the
    file of the parent.  So a child made without options has the options
    of its parent.  Its prefix is the prefix of the parent, a colon and
    its own name; its own name alone when the parent has no prefix. *)
Theorem child_inherits_options
    (prefix0 : string) (given0 : Given) (name : string) (given : Given) :
  let parent := new prefix0 given0 in
  options (child parent name given)
  = mkOptions
      (orElse (g_debug given) (opt_debug (options parent)))
      (orElse (g_info given) (opt_info (options parent)))
      (orElse (g_warn given) (opt_warn (options parent)))
      (orElse (g_error given) (opt_error (options parent)))
      (orElse (g_verbose given) (opt_verbose (options parent)))
      (orElse (g_timestamp given) (opt_timestamp (options parent)))
      (orElse (g_colorize given) (opt_colorize (options parent)))
      (orElse (g_logToFile given) (opt_logToFile (options parent)))
      (match g_logFile given with
       | Some (String c r) => String c r
       | Some EmptyString => "tcp-bridge.log"
       | None => opt_logFile (options parent)
       end)
  /\ options (child parent name noOptions) = options parent
  /\ prefix (child parent name given)
     = (if nonEmpty prefix0 then prefix0 ++ ":" ++ name else name).
Proof.
  intros parent. unfold parent, child, new.
  cbn [options prefix merge asGiven orFalse notFalse g_debug g_info g_warn
         g_error g_verbose g_timestamp g_colorize g_logToFile g_logFile
         opt_debug opt_info opt_warn opt_error opt_verbose opt_timestamp
         opt_colorize opt_logToFile opt_logFile noOptions orElse].
  split; [|split; [|reflexivity]].
  - f_equal.
    destruct (g_logFile given) as [[|c r]|]; cbn [orElse orDefault];
      try reflexivity.
    now destruct (g_logFile given0) as [[|c r]|].
  - f_equal. now destruct (g_logFile given0) as [[|c r]|].
Qed.

(** X18. The logger of the two programs, whatever the environment:
    nothing is written to a log file; warnings and errors are always
    printed; [QUIET=true] removes the info lines and nothing else;
    [VERBOSE=true] prints the verbose lines and the debug lines as well,
    and without it a verbose line leaves no trace. *)
Theorem program_logger_switches
    (env : string -> option string) (name now message : string)
    (data io : option string) (out : Output) (level : Level) :
  let lg := programLogger env name in
  let line := fun l => LEVEL_COLORS l ++ formatMessage lg now l message data
                       ++ RESET_COLOR in
  appended (log lg now level message data io out) = appended out
  /\ errors (log lg now level message data io out) = errors out
  /\ console (warn lg now message data io out) = app (console out) [line WARN]
  /\ console (error lg now message data io out) = app (console out) [line ERROR]
  /\ (isTrue (env "QUIET") = true -> info lg now message data io out = out)
  /\ (isTrue (env "QUIET") = false ->
      console (info lg now message data io out) = app (console out) [line INFO])
  /\ (isTrue (env "VERBOSE") = true ->
      console (verbose lg now message data io out)
      = app (console out) [line DEBUG]
      /\ console (debug lg now message data io out)
         = app (console out) [line DEBUG])
  /\ (isTrue (env "VERBOSE") = false ->
      verbose lg now message data io out = out).
Proof.
  intros lg line.
  assert (F : forall m x, outputToFile lg m io x = x) by reflexivity.
  assert (Sh : forall l,
             shown (options lg) l
             = match l with
               | DEBUG => isTrue (env "DEBUG") || isTrue (env "VERBOSE")
               | INFO => negb (isTrue (env "QUIET"))
               | _ => true
               end) by (intros []; reflexivity).
  assert (Ve : opt_verbose (options lg) = isTrue (env "VERBOSE")) by reflexivity.
  unfold warn, error, info, verbose, debug, log. cbv zeta.
  rewrite !F, Ve, !Sh.
  split; [now destruct level, (isTrue (env "DEBUG")), (isTrue (env "VERBOSE")),
              (isTrue (env "QUIET"))|].
  split; [now destruct level, (isTrue (env "DEBUG")), (isTrue (env "VERBOSE")),
              (isTrue (env "QUIET"))|].
  split; [reflexivity|]. split; [reflexivity|].
  split; [intros Q; now rewrite Q|].
  split; [intros Q; now rewrite Q|].
  split.
  - intros V. rewrite V, orb_true_r. now split.
  - intros V. now rewrite V.
Qed.

Lemma program_logger_switches_witness :
  info (programLogger envQuietVerbose "TCP-SERVER") "12:00" "started" None None
    noOutput = noOutput
  /\ console (verbose (programLogger envQuietVerbose "TCP-SERVER") "12:00"
                "chunk" None None noOutput)
     = [LEVEL_COLORS DEBUG ++ "[12:00] [TCP-SERVER] [DEBUG] chunk" ++ RESET_COLOR].
Proof.
  split.
  - apply (program_logger_switches envQuietVerbose "TCP-SERVER" "12:00"
             "started" None None noOutput INFO).
    reflexivity.
  - apply (program_logger_switches envQuietVerbose "TCP-SERVER" "12:00"
             "chunk" None None noOutput INFO).
    reflexivity.
Defined.

End LoggerFacts.

(** ** The end of the shutdown *)

Module Liveness.
Import Js Codec Wire Samples Vocabulary StoreFacts.

Section IngressSide.
Import Ingress IngressFacts.

Lemma ingress_done (st : State) : exitCode st = Some 0 -> ingressFinishes st.
Proof. intros E. exists [], st. split; [constructor|]. now split. Qed.

Lemma ingress_after (st : State) (ev : Event) (s1 : State) :
  ingressTimer ev = true -> step st ev = Some s1 ->
  ingressFinishes s1 -> ingressFinishes st.
Proof.
  intros T S (trace & st' & F & R & E). exists (ev :: trace), st'.
  split; [now constructor|]. split; [|exact E]. cbn [run]. now rewrite S.
Qed.

Lemma ingress_closeSerial_finishes (st : State) :
  exitCode st = None -> ingressFinishes (closeSerial st).
Proof.
  intros E. unfold closeSerial. destruct (serialOpen st).
  - apply ingress_after
      with (ev := SerialTimeout) (s1 := exit (setPhase st AwaitSerialClose) 0);
      [reflexivity| |now apply ingress_done].
    unfold step. st_cbn. now rewrite E.
  - now apply ingress_done.
Qed.

Lemma closeServers_finishes (st : State) :
  exitCode st = None -> ingressFinishes (closeServers st).
Proof.
  intros E. unfold closeServers. cbv zeta.
  destruct (portMappings (setListening st false)) eqn:M.
  - now apply ingress_closeSerial_finishes.
  - apply ingress_after
      with (ev := ServersClosed)
           (s1 := closeSerial (setPhase (setListening st false) AwaitServers));
      [reflexivity| |now apply ingress_closeSerial_finishes].
    unfold step. st_cbn. now rewrite E.
Qed.

Lemma ingress_pending_finishes (n : nat) :
  forall (pending : list nat) (st : State),
    (List.length pending <= n)%nat -> pending <> [] ->
    exitCode st = None -> phase st = AwaitSockets pending ->
    ingressFinishes st.
Proof.
  induction n as [|n IH]; intros pending st L N E P.
  - destruct pending; [congruence|cbn in L; lia].
  - destruct pending as [|s r]; [congruence|].
    set (st1 := if socketDestroyed st s then st else updSocket st s skDestroy).
    assert (P1 : phase st1 = AwaitSockets (s :: r))
      by (unfold st1; destruct (socketDestroyed st s); exact P).
    assert (E1 : exitCode st1 = None)
      by (unfold st1; destruct (socketDestroyed st s); exact E).
    apply ingress_after with (ev := CloseTimeout s) (s1 := resolveClose st1 s);
      [reflexivity| |].
    + unfold step. rewrite E, P. cbn [existsb]. now rewrite Nat.eqb_refl.
    + unfold resolveClose. rewrite P1. cbn [existsb filter].
      rewrite Nat.eqb_refl. cbn [orb negb].
      destruct (filter (fun x => negb (Nat.eqb s x)) r) as [|a l] eqn:F.
      * unfold afterSockets. now apply closeServers_finishes.
      * apply (IH (a :: l)); [|discriminate|exact E1|reflexivity].
        rewrite <- F. pose proof (filter_length_le (fun x => negb (Nat.eqb s x)) r).
        cbn in L. lia.
Qed.

Lemma ingress_waiting_finishes (st : State) :
  ingressWaiting st -> ingressFinishes st.
Proof.
  intros (E & W). destruct (phase st) as [| |pending| |] eqn:P;
    try contradiction.
  - now apply (ingress_pending_finishes (List.length pending) pending).
  - apply ingress_after with (ev := ServersClosed) (s1 := closeSerial st);
      [reflexivity| |now apply ingress_closeSerial_finishes].
    unfold step. now rewrite E, P.
  - apply ingress_after with (ev := SerialTimeout) (s1 := exit st 0);
      [reflexivity| |now apply ingress_done].
    unfold step. now rewrite E, P.
Qed.

End IngressSide.

Section EgressSide.
Import Egress EgressFacts.

Lemma egress_done (st : State) : exitCode st = Some 0 -> egressFinishes st.
Proof. intros E. exists [], st. split; [constructor|]. now split. Qed.

Lemma egress_after (st : State) (ev : Event) (s1 : State) :
  egressTimer ev = true -> step st ev = Some s1 ->
  egressFinishes s1 -> egressFinishes st.
Proof.
  intros T S (trace & st' & F & R & E). exists (ev :: trace), st'.
  split; [now constructor|]. split; [|exact E]. cbn [run]. now rewrite S.
Qed.

Lemma egress_closeSerial_finishes (st : State) :
  exitCode st = None -> egressFinishes (closeSerial st).
Proof.
  intros E. unfold closeSerial. destruct (serialOpen st).
  - apply egress_after
      with (ev := SerialTimeout) (s1 := exit (setPhase st AwaitSerialClose) 0);
      [reflexivity| |now apply egress_done].
    unfold step. st_cbn. now rewrite E.
  - now apply egress_done.
Qed.

Lemma egress_pending_finishes (n : nat) :
  forall (pending : list nat) (st : State),
    (List.length pending <= n)%nat -> pending <> [] ->
    Forall (fun s => (s < List.length (sockets st))%nat) pending ->
    exitCode st = None -> phase st = AwaitSockets pending ->
    egressFinishes st.
Proof.
  induction n as [|n IH]; intros pending st L N V E P.
  - destruct pending; [congruence|cbn in L; lia].
  - destruct pending as [|s r]; [congruence|].
    inversion V as [|? ? Vs Vr]; subst.
    destruct (nth_error (sockets st) s) as [k|] eqn:K;
      [|apply nth_error_None in K; lia].
    set (st1 := if sk_destroyed k then st else updSocket st s skDestroy).
    assert (P1 : phase st1 = AwaitSockets (s :: r))
      by (unfold st1; destruct (sk_destroyed k); exact P).
    assert (E1 : exitCode st1 = None)
      by (unfold st1; destruct (sk_destroyed k); exact E).
    assert (L1 : List.length (sockets st1) = List.length (sockets st)).
    { unfold st1. destruct (sk_destroyed k); [reflexivity|].
      st_cbn. apply length_updateAt. }
    apply egress_after with (ev := CloseTimeout s) (s1 := resolveClose st1 s);
      [reflexivity| |].
    + unfold step. rewrite E, P. cbn [existsb]. rewrite Nat.eqb_refl.
      cbn [orb]. now rewrite K.
    + unfold resolveClose. rewrite P1. cbn [existsb filter].
      rewrite Nat.eqb_refl. cbn [orb negb].
      destruct (filter (fun x => negb (Nat.eqb s x)) r) as [|a l] eqn:F.
      * unfold afterSockets. now apply egress_closeSerial_finishes.
      * apply (IH (a :: l)); [|discriminate| |exact E1|reflexivity].
        -- rewrite <- F.
           pose proof (filter_length_le (fun x => negb (Nat.eqb s x)) r).
           cbn in L. lia.
        -- rewrite <- F. st_cbn. rewrite L1.
           apply Forall_forall. intros x Hx. apply filter_In in Hx as [Hx _].
           revert x Hx. now apply Forall_forall.
Qed.

Lemma egress_waiting_finishes (st : State) :
  egressWaiting st -> egressFinishes st.
Proof.
  intros (E & W). destruct (phase st) as [| | |pending|] eqn:P;
    try contradiction.
  - destruct W as [N V].
    now apply (egress_pending_finishes (List.length pending) pending).
  - apply egress_after with (ev := SerialTimeout) (s1 := exit st 0);
      [reflexivity| |now apply egress_done].
    unfold step. now rewrite E, P.
Qed.

End EgressSide.

(** X19. The shutdown cannot hang once it waits for the sockets: from
    there on, on either side, the timers alone lead to [process.exit(0)]:
    the 3 s timer of every socket waited for, the 5 s timers of the
    servers, the 3 s timer of the serial port. *)
Theorem shutdown_cannot_hang :
  (forall st, ingressWaiting st -> ingressFinishes st)
  /\ (forall st, egressWaiting st -> egressFinishes st).
Proof.
  split; [exact ingress_waiting_finishes|exact egress_waiting_finishes].
Qed.

Lemma shutdown_cannot_hang_witness :
  exists st,
    Egress.run (Egress.init rngConst)
      [Egress.SerialData (bytesOf frameData); Egress.Connect 0;
       Egress.Signal; Egress.Resume; Egress.Resume] = Some st
    /\ Egress.phase st = Egress.AwaitSockets [0%nat]
    /\ egressFinishes st.
Proof.
  eexists. split; [vm_compute; reflexivity|].
  split; [reflexivity|].
  apply (proj2 shutdown_cannot_hang).
  split; [reflexivity|]. cbn. split; [discriminate|].
  repeat constructor.
Defined.

End Liveness.

(** ** The ingress: sessions and their sockets *)

Module IngressSessions.
Import Js JsFacts Codec Wire Samples Vocabulary CodecFacts StoreFacts Ingress
  IngressFacts IngressMore.

Lemma idsKept_refl (st : State) : ingressIdsKept st st.
Proof. intros i k N. now exists k. Qed.

Lemma idsKept_trans (a b c : State) :
  ingressIdsKept a b -> ingressIdsKept b c -> ingressIdsKept a c.
Proof.
  intros H1 H2 i k N. destruct (H1 i k N) as (k1 & N1 & I1).
  destruct (H2 i k1 N1) as (k2 & N2 & I2). exists k2. split; congruence.
Qed.

Lemma idsKept_same (st st' : State) :
  sockets st' = sockets st -> ingressIdsKept st st'.
Proof. intros S i k N. exists k. now rewrite S. Qed.

Lemma idsKept_updSocket (st : State) (s : nat) (f : Socket -> Socket) :
  (forall k, sk_clientId (f k) = sk_clientId k) ->
  ingressIdsKept st (updSocket st s f).
Proof.
  intros F i k N. st_cbn. destruct (Nat.eq_dec s i) as [E|E].
  - rewrite E, nth_error_updateAt_same, N. cbn. now exists (f k).
  - rewrite nth_error_updateAt_other by exact E. now exists k.
Qed.

Lemma consistent_kept (st st' : State) :
  clientsByPort st' = clientsByPort st \/ clientsByPort st' = [] ->
  ingressIdsKept st st' ->
  ingressConsistent st -> ingressConsistent st'.
Proof.
  intros [T|T] K H port bucket key client I J; rewrite T in I; [|destruct I].
  destruct (H port bucket key client I J) as (k & N & E).
  destruct (K _ _ N) as (k' & N' & E'). exists k'. split; congruence.
Qed.

Lemma idsKept_endAll (targets : list nat) (st : State) :
  ingressIdsKept st (fold_left (fun st s => updSocket st s skEnd) targets st).
Proof.
  revert st. induction targets as [|s r IH]; intros st; [apply idsKept_refl|].
  cbn [fold_left]. apply idsKept_trans with (b := updSocket st s skEnd);
    [now apply idsKept_updSocket|apply IH].
Qed.

Lemma closeSerial_sockets (st : State) : sockets (closeSerial st) = sockets st.
Proof. unfold closeSerial. now destruct (serialOpen st). Qed.

Lemma afterSockets_sockets (st : State) : sockets (afterSockets st) = sockets st.
Proof.
  unfold afterSockets, closeServers. cbv zeta.
  destruct (portMappings _); [|reflexivity].
  now rewrite closeSerial_sockets.
Qed.

Lemma idsKept_closeSockets (st : State) : ingressIdsKept st (closeSockets st).
Proof.
  unfold closeSockets.
  pose proof (idsKept_endAll (socketsToClose st (clientsByPort st)) st) as K.
  destruct (socketsToClose st (clientsByPort st)) as [|s r].
  - apply idsKept_same, afterSockets_sockets.
  - eapply idsKept_trans; [exact K|]. now apply idsKept_same.
Qed.

Lemma resolveClose_sockets (st : State) (s : nat) :
  sockets (resolveClose st s) = sockets st.
Proof.
  unfold resolveClose. destruct (phase st); auto.
  destruct (existsb (Nat.eqb s) pending); auto.
  destruct (filter (fun x => negb (Nat.eqb s x)) pending); [|reflexivity].
  apply afterSockets_sockets.
Qed.

Lemma idsKept_gracefulShutdown (st : State) :
  ingressIdsKept st (gracefulShutdown st).
Proof.
  unfold gracefulShutdown. destruct (serialOpen st);
    [|apply idsKept_closeSockets].
  pose proof (disconnectAll_sockets (clientsByPort st) st false) as S.
  destruct (disconnectAll st (clientsByPort st) false) as [st1 rejected].
  cbn [fst] in S.
  destruct (anyClient (clientsByPort st)).
  - destruct rejected; now apply idsKept_same.
  - apply idsKept_trans with (b := st1);
      [now apply idsKept_same|apply idsKept_closeSockets].
Qed.

Lemma ingress_consistent_startShutdown (st st' : State) :
  startShutdown st = Some st' ->
  ingressConsistent st -> ingressConsistent st'.
Proof.
  intros S. destruct (startShutdown_keeps _ _ S) as (T & _).
  revert S. unfold startShutdown. destruct (phase st); try discriminate.
  intros [= <-]. apply consistent_kept; [exact T|].
  apply idsKept_gracefulShutdown.
Qed.

Lemma skEnd_twice (k : Socket) : skEnd (skEnd k) = skEnd k.
Proof. reflexivity. Qed.

(** What the loop of the Disconnect case does to each socket. *)
Lemma endClient_touch (byPort : Map (Map ClientInfo)) (id : string) :
  forall st,
    (forall port bucket key client,
        In (port, bucket) byPort -> In (key, client) bucket ->
        exists k,
          nth_error (sockets st) (ci_socket client) = Some k
          /\ key = JsStr (sk_clientId k)) ->
    forall i k,
      nth_error (sockets st) i = Some k ->
      exists k',
        nth_error (sockets (endClient st byPort (JsStr id))) i = Some k'
        /\ (k' = k \/ (sk_clientId k = id /\ k' = skEnd k)).
Proof.
  induction byPort as [|[port clients] rest IH]; intros st H i k N.
  - exists k. auto.
  - cbn [endClient].
    assert (Hr : forall st1,
               ingressIdsKept st st1 ->
               forall port bucket key client,
                 In (port, bucket) rest -> In (key, client) bucket ->
                 exists k,
                   nth_error (sockets st1) (ci_socket client) = Some k
                   /\ key = JsStr (sk_clientId k)).
    { intros st1 K p b key c I J.
      destruct (H p b key c (or_intror I) J) as (k0 & N0 & E0).
      destruct (K _ _ N0) as (k1 & N1 & E1). exists k1. split; congruence. }
    destruct (mapGet clients (JsStr id)) as [client|] eqn:G;
      [|apply IH; [apply Hr, idsKept_refl|exact N]].
    destruct (mapGet_In _ _ _ G) as (key & I & Sv).
    apply sameValueZero_str in Sv. subst key.
    destruct (H port clients (JsStr id) client (or_introl eq_refl) I)
      as (k0 & N0 & E0).
    injection E0 as E0.
    destruct (negb (socketDestroyed st (ci_socket client)));
      [|apply IH; [apply Hr, idsKept_refl|exact N]].
    destruct (Nat.eq_dec (ci_socket client) i) as [Ei|Ei].
    + rewrite Ei in N0. assert (k0 = k) by congruence. subst k0.
      destruct (IH (updSocket st (ci_socket client) skEnd)
                  (Hr _ (idsKept_updSocket st _ skEnd (fun x => eq_refl)))
                  i (skEnd k)) as (k' & N' & C).
      { st_cbn. now rewrite Ei, nth_error_updateAt_same, N. }
      exists k'. split; [exact N'|]. right. split; [now symmetry|].
      destruct C as [C|[_ C]]; [exact C|now rewrite C].
    + apply IH; [apply Hr; now apply idsKept_updSocket|].
      st_cbn. now rewrite nth_error_updateAt_other.
Qed.

Lemma findClient_In (byPort : Map (Map ClientInfo)) (id : string) client :
  findClient byPort (JsStr id) = Some client ->
  exists port bucket, In (port, bucket) byPort /\ In (JsStr id, client) bucket.
Proof.
  induction byPort as [|[port clients] rest IH]; [discriminate|].
  cbn [findClient].
  destruct (mapGet clients (JsStr id)) as [c|] eqn:G.
  - intros [= <-]. destruct (mapGet_In _ _ _ G) as (key & I & Sv).
    apply sameValueZero_str in Sv. subst key.
    exists port, clients. split; [now left|exact I].
  - intros F. destruct (IH F) as (p & b & I & J).
    exists p, b. split; [now right|exact J].
Qed.

Lemma ingress_skWrite_effect (d : list byte) (k k' : Socket) :
  k' = skWrite d k -> k' <> k ->
  sk_destroyed k = false
  /\ (if sk_ended k then k' = skDestroy k
      else k' = mkSocket (sk_clientId k) (sk_mapping k) false (sk_closed k)
                  false (sk_written k ++ [d])).
Proof.
  intros -> D. unfold skWrite in *.
  destruct (sk_destroyed k) eqn:Ds; cbn [negb] in *; [congruence|].
  split; [reflexivity|]. destruct (sk_ended k) eqn:En; reflexivity.
Qed.

Lemma handleResponsePacket_touch (st : State) (p : Packet) (i : nat)
    (k k' : Socket) :
  ingressConsistent st ->
  nth_error (sockets st) i = Some k ->
  nth_error (sockets (handleResponsePacket st p)) i = Some k' ->
  k' <> k ->
  sk_clientId k = clientId p
  /\ ((cmd p = CMD_DATA
       /\ sk_destroyed k = false
       /\ (if sk_ended k then k' = skDestroy k
           else k' = mkSocket (sk_clientId k) (sk_mapping k) false
                       (sk_closed k) false (sk_written k ++ [data p])))
      \/ (cmd p = CMD_DISCONNECT /\ k' = skEnd k)).
Proof.
  intros H N N' D. unfold handleResponsePacket in N'.
  destruct (cmd p =? CMD_DATA) eqn:Cd.
  { apply Z.eqb_eq in Cd.
    destruct (findClient (clientsByPort st) (JsStr (clientId p)))
      as [client|] eqn:F; [|congruence].
    destruct (findClient_In _ _ _ F) as (port & bucket & I & J).
    destruct (H port bucket _ client I J) as (k0 & N0 & E0).
    injection E0 as E0.
    destruct (negb (socketDestroyed st (ci_socket client))); [|congruence].
    st_cbn. destruct (Nat.eq_dec (ci_socket client) i) as [Ei|Ei].
    - rewrite Ei in N', N0. rewrite nth_error_updateAt_same, N in N'.
      cbn in N'. injection N' as E. symmetry in E.
      split; [congruence|]. left. split; [exact Cd|].
      exact (ingress_skWrite_effect _ _ _ E D).
    - rewrite nth_error_updateAt_other in N' by exact Ei. congruence. }
  destruct (cmd p =? CMD_DISCONNECT) eqn:Cx.
  { apply Z.eqb_eq in Cx. cbv zeta in N'.
    assert (S : sockets
                  match mapGet
                          (clientsByPort
                             (endClient st (clientsByPort st)
                                (JsStr (clientId p))))
                          (JsStr (clientId p)) with
                  | Some bucket =>
                      setClientsByPort
                        (endClient st (clientsByPort st) (JsStr (clientId p)))
                        (mapSet
                           (clientsByPort
                              (endClient st (clientsByPort st)
                                 (JsStr (clientId p))))
                           (JsStr (clientId p))
                           (mapDelete bucket (JsStr (clientId p))))
                  | None => endClient st (clientsByPort st) (JsStr (clientId p))
                  end
                = sockets (endClient st (clientsByPort st) (JsStr (clientId p))))
      by (destruct (mapGet _ _); reflexivity).
    rewrite S in N'.
    destruct (endClient_touch (clientsByPort st) (clientId p) st H i k N)
      as (k1 & N1 & C).
    assert (k1 = k') by congruence. subst k1.
    destruct C as [C|[C1 C2]]; [contradiction|]. split; [exact C1|now right]. }
  destruct (cmd p =? CMD_PROGRAM_CLOSE); st_cbn; congruence.
Qed.

Lemma idsKept_handleResponsePacket (st : State) (p : Packet) :
  ingressIdsKept st (handleResponsePacket st p).
Proof.
  unfold handleResponsePacket.
  destruct (cmd p =? CMD_DATA).
  { destruct (findClient _ _); [|apply idsKept_refl].
    destruct (negb _); [|apply idsKept_refl].
    apply idsKept_updSocket. intros k. unfold skWrite, skDestroy.
    now destruct (sk_destroyed k), (sk_ended k). }
  destruct (cmd p =? CMD_DISCONNECT).
  { cbv zeta.
    assert (E : forall byPort id st0,
               ingressIdsKept st0 (endClient st0 byPort id)).
    { induction byPort as [|[port clients] rest IH]; intros id st0;
        [apply idsKept_refl|].
      cbn [endClient]. destruct (mapGet clients id); [|apply IH].
      destruct (negb _); [|apply IH].
      eapply idsKept_trans; [|apply IH]. now apply idsKept_updSocket. }
    eapply idsKept_trans; [apply E|].
    apply idsKept_same. destruct (mapGet _ _); reflexivity. }
  destruct (cmd p =? CMD_PROGRAM_CLOSE); now apply idsKept_same.
Qed.

Lemma consistent_handleResponsePackets (ps : list Packet) (st : State) :
  keysAreNumbers st -> ingressConsistent st ->
  ingressConsistent (fold_left handleResponsePacket ps st).
Proof.
  revert st. induction ps as [|p r IH]; intros st K H; [exact H|].
  cbn [fold_left].
  pose proof (handleResponsePacket_table st p K) as T.
  apply IH.
  - apply keys_same with st; auto.
  - apply consistent_kept with st; auto. apply idsKept_handleResponsePacket.
Qed.

Lemma onConnection_consistent (st : State) (mapping : Mapping) :
  ingressConsistent st -> ingressConsistent (onConnection st mapping).
Proof.
  intros H. unfold onConnection. cbv zeta. st_cbn.
  set (id := removeHyphens (randomUUID (rng st (draws st)))).
  set (P := JsNum (localPort mapping)).
  set (BY := if mapHas (clientsByPort st) P then clientsByPort st
             else mapSet (clientsByPort st) P []).
  set (B := match mapGet BY P with Some b => b | None => [] end).
  set (info := mkClientInfo id (List.length (sockets st)) (localPort mapping)
                 mapping).
  set (new := mkSocket id mapping false false false []).
  intros port bucket key client I J. st_cbn.
  assert (A2 : forall port bucket key client,
             In (port, bucket) (clientsByPort st) -> In (key, client) bucket ->
             exists k,
               nth_error (sockets st ++ [new]) (ci_socket client) = Some k
               /\ key = JsStr (sk_clientId k)).
  { intros p0 b0 k0 c0 I0 J0. destruct (H p0 b0 k0 c0 I0 J0) as (k & N & E).
    exists k. split; [|exact E].
    rewrite nth_error_app1; [exact N|]. apply nth_error_Some. congruence. }
  assert (A1 : forall p0 b0 k0 c0,
             In (p0, b0) BY -> In (k0, c0) b0 ->
             exists k,
               nth_error (sockets st ++ [new]) (ci_socket c0) = Some k
               /\ k0 = JsStr (sk_clientId k)).
  { intros p0 b0 k0 c0 I0 J0. unfold BY in I0.
    destruct (mapHas (clientsByPort st) P); [now apply (A2 p0 b0)|].
    apply mapSet_In in I0 as [I0|[[I0 _]|I0]].
    - now apply (A2 p0 b0).
    - cbn in I0. subst b0. destruct J0.
    - injection I0 as -> ->. destruct J0. }
  assert (A3 : forall k0 c0,
             In (k0, c0) B ->
             exists k,
               nth_error (sockets st ++ [new]) (ci_socket c0) = Some k
               /\ k0 = JsStr (sk_clientId k)).
  { intros k0 c0 J0. unfold B in J0.
    destruct (mapGet BY P) as [b|] eqn:G; [|destruct J0].
    destruct (mapGet_In _ _ _ G) as (p0 & I0 & _). now apply (A1 p0 b). }
  assert (A4 : In (key, client) (mapSet B (JsStr id) info) ->
               exists k,
                 nth_error (sockets st ++ [new]) (ci_socket client) = Some k
                 /\ key = JsStr (sk_clientId k)).
  { intros J0.
    assert (Nn : nth_error (sockets st ++ [new]) (List.length (sockets st))
                 = Some new)
      by (rewrite nth_error_app2, Nat.sub_diag by lia; reflexivity).
    apply mapSet_In in J0 as [J0|[[J1 J2]|J0]].
    - now apply A3.
    - cbn in J1, J2. subst client. apply sameValueZero_str in J2. subst key.
      exists new. split; [exact Nn|reflexivity].
    - injection J0 as -> ->. exists new. split; [exact Nn|reflexivity]. }
  apply mapSet_In in I as [I|[[I _]|I]].
  - now apply (A1 port bucket).
  - cbn in I. subst bucket. now apply A4.
  - injection I as -> ->. now apply A4.
Qed.

Lemma onSocketClose_consistent (st : State) (s : nat) (k : Socket) (st' : State) :
  onSocketClose st s k = Return st' \/ onSocketClose st s k = Throw st' ->
  ingressConsistent st -> ingressConsistent st'.
Proof.
  intros E H.
  set (st1 := updSocket st s skSetClosed).
  assert (H1 : ingressConsistent st1).
  { apply consistent_kept with st; [now left| |exact H].
    now apply idsKept_updSocket. }
  set (st2 := match mapGet (clientsByPort st1) (JsNum (localPort (sk_mapping k)))
              with
              | Some bucket =>
                  setClientsByPort st1
                    (mapSet (clientsByPort st1)
                       (JsNum (localPort (sk_mapping k)))
                       (mapDelete bucket (JsStr (sk_clientId k))))
              | None => st1
              end).
  assert (H2 : ingressConsistent st2).
  { unfold st2.
    destruct (mapGet (clientsByPort st1) (JsNum (localPort (sk_mapping k))))
      as [b|] eqn:G; [|exact H1].
    destruct (mapGet_In _ _ _ G) as (p0 & I0 & _).
    intros port bucket key client I J. st_cbn.
    apply mapSet_In in I as [I|[[I _]|I]].
    - now apply (H1 port bucket).
    - cbn in I. subst bucket. apply mapDelete_In in J. now apply (H1 p0 b).
    - injection I as -> ->. apply mapDelete_In in J. now apply (H1 p0 b). }
  unfold onSocketClose in E. cbv zeta in E. fold st1 in E. fold st2 in E.
  destruct (serialOpen st2).
  - destruct (ingress_sendPacket_cases st2 CMD_DISCONNECT
                (JsStr (sk_clientId k)) [] (remoteHost (sk_mapping k))
                (remotePort (sk_mapping k)))
      as [(x & f & R & _ & _ & C & S & _)|(x & R & _ & C & S & _)];
      rewrite R in E; destruct E as [E|E]; try discriminate;
      injection E as <-;
      (apply consistent_kept with st2; [now left|now apply idsKept_same|exact H2]).
  - destruct E as [E|E]; [|discriminate]. now injection E as <-.
Qed.

Lemma ingress_step_consistent (st : State) (ev : Event) (st' : State) :
  keysAreNumbers st -> ingressConsistent st ->
  step st ev = Some st' -> ingressConsistent st'.
Proof.
  intros K H. unfold step. destruct (exitCode st); [discriminate|].
  destruct ev as [chunk|i|s d|s|s| | | |s| | |].
  - unfold onSerialData.
    destruct (_transform (buffer st) chunk) as [[ps b]|]; [|discriminate].
    intros [= <-]. apply consistent_handleResponsePackets; [exact K|].
    apply consistent_kept with st; [now left|now apply idsKept_same|exact H].
  - destruct (nth_error (portMappings st) i) as [m|]; [|discriminate].
    destruct (listening st); [|discriminate]. intros [= <-].
    now apply onConnection_consistent.
  - destruct (nth_error (sockets st) s) as [k|]; [|discriminate].
    destruct (negb _); [|discriminate].
    destruct (onSocketData st k d) as [st1|st1] eqn:E; cbn [settle].
    + intros [= <-].
      destruct (onSocketData_keeps st k d st1 (or_introl E)) as (T & _).
      destruct (onSocketData_spec st k d st1 (or_introl E))
        as (_ & _ & _ & S & _).
      apply consistent_kept with st; [now left|now apply idsKept_same|exact H].
    + intros Sd.
      destruct (onSocketData_keeps st k d st1 (or_intror E)) as (T & _).
      destruct (onSocketData_spec st k d st1 (or_intror E))
        as (_ & _ & _ & S & _).
      apply (ingress_consistent_startShutdown _ _ Sd).
      apply consistent_kept with st; [now left|now apply idsKept_same|exact H].
  - destruct (nth_error (sockets st) s) as [k|]; [|discriminate].
    destruct (negb _); [|discriminate].
    destruct (onSocketClose st s k) as [st1|st1] eqn:E.
    + intros [= <-].
      destruct (ingress_resolveClose_keeps st1 s) as (T & _).
      apply consistent_kept with st1;
        [exact T|apply idsKept_same, resolveClose_sockets|].
      now apply (onSocketClose_consistent st s k st1 (or_introl E)).
    + intros Sd. apply (ingress_consistent_startShutdown _ _ Sd).
      now apply (onSocketClose_consistent st s k st1 (or_intror E)).
  - destruct (nth_error (sockets st) s) as [k|]; [|discriminate].
    destruct (negb _); [|discriminate]. now intros [= <-].
  - destruct (immediates st) as [|n]; [discriminate|]. intros Sd.
    apply (ingress_consistent_startShutdown _ _ Sd).
    apply consistent_kept with st; [now left|now apply idsKept_same|exact H].
  - intros Sd. exact (ingress_consistent_startShutdown _ _ Sd H).
  - destruct (phase st); try discriminate. intros [= <-].
    destruct (ingress_closeSockets_keeps st) as (T & _).
    apply consistent_kept with st; [exact T|apply idsKept_closeSockets|exact H].
  - destruct (phase st); try discriminate.
    destruct (existsb (Nat.eqb s) pending); [|discriminate].
    intros [= <-].
    set (st1 := if socketDestroyed st s then st else updSocket st s skDestroy).
    assert (H1 : ingressConsistent st1).
    { unfold st1. destruct (socketDestroyed st s); [exact H|].
      apply consistent_kept with st; [now left| |exact H].
      now apply idsKept_updSocket. }
    destruct (ingress_resolveClose_keeps st1 s) as (T & _).
    apply consistent_kept with st1;
      [exact T|apply idsKept_same, resolveClose_sockets|exact H1].
  - destruct (phase st); try discriminate. intros [= <-].
    destruct (ingress_closeSerial_keeps st) as (T & _).
    apply consistent_kept with st;
      [now left|apply idsKept_same, closeSerial_sockets|exact H].
  - destruct (phase st); try discriminate. intros [= <-].
    apply consistent_kept with st; [now left|now apply idsKept_same|exact H].
  - destruct (phase st); try discriminate. intros [= <-].
    apply consistent_kept with st; [now left|now apply idsKept_same|exact H].
Qed.

Lemma ingress_run_consistent (trace : list Event) (st st' : State) :
  keysAreNumbers st -> ingressConsistent st ->
  run st trace = Some st' -> ingressConsistent st'.
Proof.
  revert st. induction trace as [|ev rest IH]; intros st K H R.
  - cbn in R. now injection R as <-.
  - cbn [run] in R. destruct (step st ev) as [s1|] eqn:E; [|discriminate].
    apply IH with s1; [|exact (ingress_step_consistent _ _ _ K H E)|exact R].
    now apply (proj1 (step_keeps _ _ _ E)).
Qed.

(** X20. In every state that the ingress reaches, each entry of a bucket
    is stored under the id of its own socket, and a packet from the
    serial port changes no socket but one accepted under the id of the
    packet: a Data frame makes the socket accept the payload, or, when
    [end()] has been called on it, destroys it, the write failing with
    [ERR_STREAM_WRITE_AFTER_END]; a Disconnect frame ends it.  The
    bytes of a session never reach the client of another. *)
Theorem ingress_sessions_isolated
    (mappings : list Mapping) (rng : nat -> list byte)
    (trace : list Event) (st : State) :
  run (init mappings rng) trace = Some st ->
  ingressConsistent st
  /\ forall p i k k',
       nth_error (sockets st) i = Some k ->
       nth_error (sockets (handleResponsePacket st p)) i = Some k' ->
       k' <> k ->
       sk_clientId k = clientId p
       /\ ((cmd p = CMD_DATA
            /\ sk_destroyed k = false
            /\ (if sk_ended k then k' = skDestroy k
                else k' = mkSocket (sk_clientId k) (sk_mapping k) false
                            (sk_closed k) false (sk_written k ++ [data p])))
           \/ (cmd p = CMD_DISCONNECT /\ k' = skEnd k)).
Proof.
  intros R.
  assert (H : ingressConsistent st).
  { apply (ingress_run_consistent trace (init mappings rng)); [constructor| |exact R].
    intros port bucket key client I. destruct I. }
  split; [exact H|]. intros p i k k'. now apply handleResponsePacket_touch.
Qed.

(** A session is accepted and the peer sends its Disconnect; a Data
    frame for the id then finds the socket ended, and the write
    destroys it. *)
Lemma ingress_sessions_isolated_witness :
  exists st k k',
    run (init [echoMapping] rngConst)
      [Connection 0; SerialData (bytesOf frameDisconnect1)] = Some st
    /\ ingressConsistent st
    /\ nth_error (sockets st) 0 = Some k
    /\ sk_ended k = true
    /\ nth_error
         (sockets
            (handleResponsePacket st
               (mkPacket CMD_DATA (toHex id1) "127.0.0.1" 9000 [x6f; x6b])))
         0 = Some k'
    /\ sk_clientId k = toHex id1
    /\ k' = skDestroy k.
Proof.
  eexists. eexists. eexists.
  match goal with
  | |- run _ ?tr = Some ?s /\ _ =>
      assert (R : run (init [echoMapping] rngConst) tr = Some s)
        by (vm_compute; reflexivity)
  end.
  destruct (ingress_sessions_isolated [echoMapping] rngConst _ _ R) as (H & T).
  split; [exact R|]. split; [exact H|].
  split; [reflexivity|]. split; [reflexivity|]. split; [reflexivity|].
  match goal with
  | |- sk_clientId ?k = _ /\ ?k' = _ =>
      destruct (T (mkPacket CMD_DATA (toHex id1) "127.0.0.1" 9000 [x6f; x6b])
                  0%nat k k' eq_refl eq_refl)
        as (I & [(_ & _ & W)|(C & _)])
  end.
  - discriminate.
  - split; [exact I|]. exact W.
  - discriminate C.
Defined.

End IngressSessions.

(** ** The ingress: Disconnect frames, session by session *)

Module IngressTally.
Import Js JsFacts Codec Wire Samples Vocabulary CodecFacts FramerFacts
  StoreFacts Ingress IngressFacts IngressMore IngressSessions.

Lemma disconnectsFor_app (id : string) (w v : list (list byte)) :
  disconnectsFor id (w ++ v)
  = (disconnectsFor id w + disconnectsFor id v)%nat.
Proof. unfold disconnectsFor. now rewrite filter_app, length_app. Qed.

Lemma extract_frame (f : list byte) (p : Packet) (rest : list byte) :
  extract f = Some (p, rest) -> frameCmd f = cmd p /\ frameId f = clientId p.
Proof.
  unfold extract. destruct (27 <=? List.length f)%nat; [|discriminate].
  destruct (27 + readUInt32BE f 23 <=? Z.of_nat (List.length f));
    [|discriminate].
  intros [= <- _]. split; reflexivity.
Qed.

Lemma closedFor_signs (id : string) (st : State) :
  closedFor id st
  = List.length
      (filter (fun x => snd x && String.eqb (fst x) id) (map sign (sockets st))).
Proof.
  unfold closedFor. induction (sockets st) as [|k r IH]; [reflexivity|].
  cbn [map filter sign fst snd].
  destruct (sk_closed k && String.eqb (sk_clientId k) id); cbn [List.length];
    now rewrite IH.
Qed.

Lemma closedFor_stamp (id : string) (st st' : State) :
  ingressStamp st' = ingressStamp st -> closedFor id st' = closedFor id st.
Proof.
  unfold ingressStamp. intros [= _ E]. now rewrite !closedFor_signs, E.
Qed.

Lemma hex_stamp (st st' : State) :
  ingressStamp st' = ingressStamp st -> ingressHex st -> ingressHex st'.
Proof.
  unfold ingressStamp. intros [= R E] [H16 H]. split; [now rewrite R|].
  assert (F : forall l, Forall (fun k => isHexId (sk_clientId k)) l
                        <-> Forall (fun x => isHexId (fst x)) (map sign l)).
  { intros l. rewrite Forall_map. reflexivity. }
  apply F. rewrite E. now apply F.
Qed.

Lemma map_updateAt {A B} (g : A -> B) (f : A -> A) (l : list A) (s : nat) :
  (forall x, g (f x) = g x) -> map g (Egress.updateAt l s f) = map g l.
Proof.
  intros H. revert s. induction l as [|x r IH]; intros [|s]; cbn;
    try reflexivity; [now rewrite H|now rewrite IH].
Qed.

Lemma stamp_same (st st' : State) :
  rng st' = rng st -> sockets st' = sockets st ->
  ingressStamp st' = ingressStamp st.
Proof. unfold ingressStamp. now intros -> ->. Qed.

Lemma stamp_updSocket (st : State) (s : nat) (f : Socket -> Socket) :
  (forall k, sign (f k) = sign k) ->
  ingressStamp (updSocket st s f) = ingressStamp st.
Proof.
  intros H. unfold ingressStamp. st_cbn. now rewrite map_updateAt.
Qed.

Lemma stamp_endAll (targets : list nat) (st : State) :
  ingressStamp (fold_left (fun st s => updSocket st s skEnd) targets st)
  = ingressStamp st.
Proof.
  revert st. induction targets as [|s r IH]; intros st; [reflexivity|].
  cbn [fold_left]. rewrite IH. now apply stamp_updSocket.
Qed.

Lemma stamp_closeSerial (st : State) :
  ingressStamp (closeSerial st) = ingressStamp st.
Proof. unfold closeSerial. now destruct (serialOpen st). Qed.

Lemma stamp_afterSockets (st : State) :
  ingressStamp (afterSockets st) = ingressStamp st.
Proof.
  unfold afterSockets, closeServers. cbv zeta.
  destruct (portMappings _); [|reflexivity].
  now rewrite stamp_closeSerial.
Qed.

Lemma stamp_closeSockets (st : State) :
  ingressStamp (closeSockets st) = ingressStamp st.
Proof.
  unfold closeSockets.
  pose proof (stamp_endAll (socketsToClose st (clientsByPort st)) st) as K.
  destruct (socketsToClose st (clientsByPort st)) as [|s r].
  - apply stamp_afterSockets.
  - rewrite <- K. reflexivity.
Qed.

Lemma stamp_resolveClose (st : State) (s : nat) :
  ingressStamp (resolveClose st s) = ingressStamp st.
Proof.
  unfold resolveClose. destruct (phase st); auto.
  destruct (existsb (Nat.eqb s) pending); auto.
  destruct (filter (fun x => negb (Nat.eqb s x)) pending); [|reflexivity].
  apply stamp_afterSockets.
Qed.

(** [sendPacket], with the frame it writes. *)
Lemma sendPacket_shape st c cid d h p :
  (exists f,
      createPacket c cid d h p (randomUUID (rng st (draws st))) = Some f
      /\ exists st',
           sendPacket st c cid d h p = Return st'
           /\ wire st' = wire st ++ [f]
           /\ clientsByPort st' = clientsByPort st
           /\ ingressStamp st' = ingressStamp st
           /\ serialOpen st' = serialOpen st /\ phase st' = phase st
           /\ exitCode st' = exitCode st)
  \/ (exists st',
        sendPacket st c cid d h p = Throw st'
        /\ wire st' = wire st
        /\ clientsByPort st' = clientsByPort st
        /\ ingressStamp st' = ingressStamp st
        /\ serialOpen st' = serialOpen st /\ phase st' = phase st
        /\ exitCode st' = exitCode st).
Proof.
  unfold sendPacket, createPacketS.
  destruct (createPacket c cid d h p (randomUUID (rng st (draws st))))
    as [f|] eqn:E.
  - left. exists f. split; [reflexivity|]. eexists. split; [reflexivity|].
    destruct (drawsUUID cid); now repeat split.
  - right. eexists. split; [reflexivity|].
    destruct (drawsUUID cid); now repeat split.
Qed.

(** The frame built for a key made of sixteen bytes. *)
Lemma createPacket_hexKey c (id : string) d h p uuid f :
  isHexId id ->
  createPacket c (JsStr id) d h p uuid = Some f ->
  extract f
  = Some (mkPacket c id (joinDots (map byteToString (pad 4 (ipBuffer h)))) p d,
          []).
Proof.
  intros (r & L & ->) C.
  destruct (createPacket_some _ _ _ _ _ _ _ C) as (Hc & Hp & Hd & _).
  destruct (Bridge.createPacket_decodes c r d h p uuid Hc L Hp Hd)
    as (f' & C' & E).
  congruence.
Qed.

Lemma disconnectsFor_frame (id : string) (f : list byte) (p : Packet) rest :
  extract f = Some (p, rest) ->
  disconnectsFor id [f]
  = if (cmd p =? CMD_DISCONNECT) && String.eqb (clientId p) id
    then 1%nat else 0%nat.
Proof.
  intros E. destruct (extract_frame _ _ _ E) as [C I].
  unfold disconnectsFor. cbn [filter]. rewrite C, I.
  now destruct ((cmd p =? CMD_DISCONNECT) && String.eqb (clientId p) id).
Qed.

Lemma hexKeys_inv (st : State) :
  ingressConsistent st -> ingressHex st -> Forall hexKey (entries st).
Proof.
  intros C [_ H]. apply Forall_forall. intros [key client] I.
  unfold entries in I. apply in_concat in I as (bucket & Ib & Ie).
  apply in_map_iff in Ib as ([port b] & Eb & Ib). cbn in Eb. subst b.
  destruct (C port bucket key client Ib Ie) as (k & N & ->).
  exists (sk_clientId k). split; [|reflexivity].
  apply nth_error_In in N. rewrite Forall_forall in H. now apply H.
Qed.

(** Step 1 of the shutdown, entry by entry, for the count of [id]. *)
Lemma disconnectBucket_acct (id : string) (es : Map ClientInfo) :
  forall (st : State) (rejected : bool),
    Forall hexKey es ->
    (disconnectsFor id (wire (fst (disconnectBucket st es rejected)))
     <= disconnectsFor id (wire st)
        + List.length (filter (fun e => sameValueZero (fst e) (JsStr id)) es))%nat
    /\ ingressStamp (fst (disconnectBucket st es rejected)) = ingressStamp st.
Proof.
  induction es as [|[key client] rest IH]; intros st rejected H.
  - cbn. split; [lia|reflexivity].
  - inversion H as [|? ? (kid & Hk & Ek) Hr]; subst. cbn in Ek. subst key.
    cbn [disconnectBucket filter fst sameValueZero].
    destruct (sendPacket_shape st CMD_DISCONNECT (JsStr kid) []
                (remoteHost (ci_mapping client)) (remotePort (ci_mapping client)))
      as [(f & C & st1 & R & W & _ & S & _)|(st1 & R & W & _ & S & _)];
      rewrite R.
    + destruct (IH st1 rejected Hr) as (A & B).
      split; [|congruence].
      pose proof (createPacket_hexKey _ _ _ _ _ _ _ Hk C) as E.
      pose proof (disconnectsFor_frame id f _ _ E) as D.
      cbn [cmd clientId] in D.
      change (CMD_DISCONNECT =? CMD_DISCONNECT) with true in D. cbn [andb] in D.
      rewrite W, disconnectsFor_app, D in A.
      destruct (String.eqb kid id); cbn [List.length]; lia.
    + destruct (IH st1 true Hr) as (A & B).
      split; [|congruence].
      rewrite W in A. destruct (String.eqb kid id); cbn [List.length]; lia.
Qed.

Lemma disconnectAll_acct (id : string) (byPort : Map (Map ClientInfo)) :
  forall (st : State) (rejected : bool),
    Forall hexKey (List.concat (map snd byPort)) ->
    (disconnectsFor id (wire (fst (disconnectAll st byPort rejected)))
     <= disconnectsFor id (wire st)
        + List.length
            (filter (fun e => sameValueZero (fst e) (JsStr id))
               (List.concat (map snd byPort))))%nat
    /\ ingressStamp (fst (disconnectAll st byPort rejected)) = ingressStamp st.
Proof.
  induction byPort as [|[port clients] rest IH]; intros st rejected H.
  - cbn. split; [lia|reflexivity].
  - cbn [map List.concat snd] in *. apply Forall_app in H as [Hc Hr].
    cbn [disconnectAll].
    destruct (disconnectBucket_acct id clients st rejected Hc) as (A & B).
    destruct (disconnectBucket st clients rejected) as [st1 r1].
    cbn [fst] in *.
    destruct (IH st1 r1 Hr) as (A' & B').
    split; [|congruence]. rewrite filter_app, length_app. lia.
Qed.

Lemma gracefulShutdown_acct (id : string) (st : State) :
  Forall hexKey (entries st) ->
  (disconnectsFor id (wire (gracefulShutdown st))
   <= disconnectsFor id (wire st) + entriesFor id st)%nat
  /\ ingressStamp (gracefulShutdown st) = ingressStamp st.
Proof.
  intros H. unfold gracefulShutdown. destruct (serialOpen st).
  - destruct (disconnectAll_acct id (clientsByPort st) st false H) as (A & B).
    destruct (disconnectAll st (clientsByPort st) false) as [st1 rejected].
    cbn [fst] in *. fold (entries st) in A. fold (entriesFor id st) in A.
    destruct (anyClient (clientsByPort st)).
    + destruct rejected; split; assumption.
    + destruct (ingress_closeSockets_keeps st1) as (_ & W & _).
      rewrite W, stamp_closeSockets. now split.
  - destruct (ingress_closeSockets_keeps st) as (_ & W & _).
    rewrite W, stamp_closeSockets. split; [lia|reflexivity].
Qed.

Lemma sign_skWrite d k : sign (skWrite d k) = sign k.
Proof.
  unfold skWrite, skDestroy, sign.
  now destruct (sk_destroyed k), (sk_ended k).
Qed.

Lemma stamp_endClient (byPort : Map (Map ClientInfo)) (id : JsValue) :
  forall st, ingressStamp (endClient st byPort id) = ingressStamp st.
Proof.
  induction byPort as [|[port clients] rest IH]; intros st; [reflexivity|].
  cbn [endClient]. destruct (mapGet clients id); [|apply IH].
  rewrite IH. destruct (negb _); [|reflexivity].
  now apply stamp_updSocket.
Qed.

Lemma stamp_handleResponsePacket (st : State) (p : Packet) :
  ingressStamp (handleResponsePacket st p) = ingressStamp st.
Proof.
  unfold handleResponsePacket.
  destruct (cmd p =? CMD_DATA).
  { destruct (findClient _ _); [|reflexivity].
    destruct (negb _); [|reflexivity].
    apply stamp_updSocket. intros k. apply sign_skWrite. }
  destruct (cmd p =? CMD_DISCONNECT).
  { cbv zeta.
    rewrite <- (stamp_endClient (clientsByPort st) (JsStr (clientId p)) st).
    destruct (mapGet _ _); reflexivity. }
  destruct (cmd p =? CMD_PROGRAM_CLOSE); reflexivity.
Qed.

Lemma stamp_handleResponsePackets (ps : list Packet) :
  forall st, ingressStamp (fold_left handleResponsePacket ps st) = ingressStamp st.
Proof.
  induction ps as [|p r IH]; intros st; [reflexivity|].
  cbn [fold_left]. rewrite IH. apply stamp_handleResponsePacket.
Qed.

Lemma closedFor_setClosed (id : string) (st : State) (s : nat) (k : Socket) :
  nth_error (sockets st) s = Some k -> sk_closed k = false ->
  closedFor id (updSocket st s skSetClosed)
  = (closedFor id st + if String.eqb (sk_clientId k) id then 1 else 0)%nat.
Proof.
  unfold closedFor. st_cbn.
  generalize (sockets st) as l. intros l. revert s.
  induction l as [|x r IH]; intros [|s]; cbn; try discriminate.
  - intros [= ->] H. rewrite H. cbn.
    destruct (String.eqb (sk_clientId k) id); cbn; lia.
  - intros N H.
    destruct (sk_closed x && String.eqb (sk_clientId x) id); cbn;
      rewrite (IH s N H); lia.
Qed.

Lemma closedFor_sockets (id : string) (st st' : State) :
  sockets st' = sockets st -> closedFor id st' = closedFor id st.
Proof. unfold closedFor. now intros ->. Qed.

Lemma filter_filter_le {A} (P Q : A -> bool) (l : list A) :
  (List.length (filter P (filter Q l)) <= List.length (filter P l))%nat.
Proof.
  induction l as [|x r IH]; [reflexivity|]. cbn.
  destruct (Q x), (P x) eqn:Px; cbn; rewrite ?Px; cbn; lia.
Qed.

(** Taking an entry out of the bucket of a port. *)
Lemma entries_drop {V} (P : JsValue * V -> bool) (key : JsValue) :
  forall (T : Map (Map V)) (port : JsValue) (b : Map V),
    mapGet T port = Some b ->
    (List.length
       (filter P (List.concat (map snd (mapSet T port (mapDelete b key)))))
     <= List.length (filter P (List.concat (map snd T))))%nat
    /\ incl (List.concat (map snd (mapSet T port (mapDelete b key))))
         (List.concat (map snd T)).
Proof.
  induction T as [|[k' v] r IH]; intros port b G; [discriminate|].
  cbn [mapGet mapSet] in *. destruct (sameValueZero k' port).
  - injection G as ->. cbn [map List.concat snd].
    rewrite !filter_app, !length_app. split.
    + pose proof (filter_filter_le P
                    (fun e => negb (sameValueZero (fst e) key)) b) as Le.
      unfold mapDelete. lia.
    + apply incl_app; [|apply incl_appr, incl_refl].
      apply incl_appl. intros e He. now apply mapDelete_In in He.
  - cbn [map List.concat snd]. destruct (IH port b G) as (Le & In).
    rewrite !filter_app, !length_app. split; [lia|].
    apply incl_app; [apply incl_appl, incl_refl|now apply incl_appr].
Qed.

(** The close handler, for the count of [id]. *)
Lemma onSocketClose_acct (id : string) (st : State) (s : nat) (k : Socket)
    (st1 : State) :
  isHexId (sk_clientId k) ->
  onSocketClose st s k = Return st1 \/ onSocketClose st s k = Throw st1 ->
  rng st1 = rng st
  /\ (disconnectsFor id (wire st1)
      <= disconnectsFor id (wire st)
         + if String.eqb (sk_clientId k) id then 1 else 0)%nat
  /\ (entriesFor id st1 <= entriesFor id st)%nat
  /\ incl (entries st1) (entries st).
Proof.
  intros Hk. unfold onSocketClose. cbv zeta.
  set (st0 := updSocket st s skSetClosed).
  set (st2 := match mapGet (clientsByPort st0) (JsNum (localPort (sk_mapping k)))
              with
              | Some bucket =>
                  setClientsByPort st0
                    (mapSet (clientsByPort st0)
                       (JsNum (localPort (sk_mapping k)))
                       (mapDelete bucket (JsStr (sk_clientId k))))
              | None => st0
              end).
  assert (A2 : rng st2 = rng st /\ wire st2 = wire st
               /\ (entriesFor id st2 <= entriesFor id st)%nat
               /\ incl (entries st2) (entries st)).
  { unfold st2.
    destruct (mapGet (clientsByPort st0) (JsNum (localPort (sk_mapping k))))
      as [b|] eqn:G.
    - split; [reflexivity|]. split; [reflexivity|].
      unfold entriesFor, entries. st_cbn.
      exact (entries_drop _ (JsStr (sk_clientId k)) _ _ _ G).
    - repeat split; try reflexivity. apply incl_refl. }
  destruct A2 as (R2 & W2 & E2 & I2).
  destruct (serialOpen st2).
  - destruct (sendPacket_shape st2 CMD_DISCONNECT (JsStr (sk_clientId k)) []
                (remoteHost (sk_mapping k)) (remotePort (sk_mapping k)))
      as [(f & C & x & R & W & T & S & _)|(x & R & W & T & S & _)];
      rewrite R; intros [E|E]; try discriminate; injection E as <-;
      unfold ingressStamp in S; injection S as Sr Ss.
    + split; [congruence|].
      pose proof (createPacket_hexKey _ _ _ _ _ _ _ Hk C) as Ex.
      pose proof (disconnectsFor_frame id f _ _ Ex) as D.
      cbn [cmd clientId] in D.
      change (CMD_DISCONNECT =? CMD_DISCONNECT) with true in D. cbn [andb] in D.
      rewrite W, disconnectsFor_app, D, W2.
      split; [lia|]. unfold entriesFor, entries in *. rewrite T. now split.
    + split; [congruence|]. rewrite W, W2.
      split; [lia|]. unfold entriesFor, entries in *. rewrite T. now split.
  - intros [E|E]; [|discriminate]. injection E as <-.
    split; [exact R2|]. rewrite W2. split; [lia|]. now split.
Qed.

Lemma onSocketData_acct (id : string) (st : State) (k : Socket)
    (d : list byte) (st1 : State) :
  onSocketData st k d = Return st1 \/ onSocketData st k d = Throw st1 ->
  ingressStamp st1 = ingressStamp st
  /\ clientsByPort st1 = clientsByPort st
  /\ disconnectsFor id (wire st1) = disconnectsFor id (wire st).
Proof.
  unfold onSocketData. destruct (serialOpen st).
  - destruct (sendPacket_shape st CMD_DATA (JsStr (sk_clientId k)) d
                (remoteHost (sk_mapping k)) (remotePort (sk_mapping k)))
      as [(f & C & x & R & W & T & S & _)|(x & R & W & T & S & _)];
      rewrite R; intros [E|E]; try discriminate; injection E as <-;
      (split; [exact S|split; [exact T|]]).
    + apply createPacket_some in C as (_ & _ & _ & F).
      rewrite W, disconnectsFor_app. unfold disconnectsFor at 2.
      cbn [filter]. rewrite F.
      change (CMD_DATA =? CMD_DISCONNECT) with false. cbn. lia.
    + now rewrite W.
  - intros [E|E]; [|discriminate]. injection E as <-. now repeat split.
Qed.

Lemma tallyFor_same (id : string) (st st' : State) :
  wire st' = wire st -> ingressStamp st' = ingressStamp st ->
  ingressTallyFor id st st'.
Proof.
  intros W S. unfold ingressTallyFor.
  rewrite W, (closedFor_stamp id _ _ S). lia.
Qed.

(** A handler has run from [st] to [mid], and [gracefulShutdown] starts
    at [mid]. *)
Lemma shutdown_from (id : string) (st mid st' : State) :
  exitCode st = None -> phase mid = phase st ->
  startShutdown mid = Some st' ->
  ingressTallyFor id st mid ->
  (entriesFor id mid <= entriesFor id st)%nat ->
  Forall hexKey (entries mid) -> ingressHex mid ->
  ingressHex st'
  /\ ingressLive st /\ ~ ingressLive st'
  /\ (disconnectsFor id (wire st') + closedFor id st
      <= disconnectsFor id (wire st) + closedFor id st' + entriesFor id st)%nat.
Proof.
  intros X P S T E K H.
  destruct (startShutdown_spec _ _ S) as [_ St].
  unfold startShutdown in S. destruct (phase mid) eqn:Pm; try discriminate.
  injection S as <-.
  destruct (gracefulShutdown_acct id mid K) as (A & B).
  split; [exact (hex_stamp _ _ B H)|].
  split; [split; congruence|].
  split; [intros [L1 L2]; destruct St as [St|St]; auto|].
  unfold ingressTallyFor in T. rewrite (closedFor_stamp id _ _ B). lia.
Qed.

Lemma hexKeys_incl (st st' : State) :
  incl (entries st') (entries st) ->
  Forall hexKey (entries st) -> Forall hexKey (entries st').
Proof.
  intros I H. apply Forall_forall. intros e He.
  rewrite Forall_forall in H. now apply H, I.
Qed.

(** One step of the ingress, for the count of [id]: either no more
    Disconnect frames for [id] than closes of sockets of [id], or the
    step starts the shutdown, which adds one frame at most for each
    entry stored under [id]. *)
Lemma step_acct (id : string) (st : State) (ev : Event) (st' : State) :
  ingressInv st -> step st ev = Some st' ->
  ingressHex st'
  /\ (ingressTallyFor id st st'
      \/ (ingressLive st /\ ~ ingressLive st'
          /\ (disconnectsFor id (wire st') + closedFor id st
              <= disconnectsFor id (wire st) + closedFor id st'
                 + entriesFor id st)%nat)).
Proof.
  intros (K & C & H) S.
  pose proof (hexKeys_inv st C H) as HK.
  assert (Same : forall x, wire x = wire st -> ingressStamp x = ingressStamp st ->
                           ingressHex x
                           /\ (ingressTallyFor id st x
                               \/ (ingressLive st /\ ~ ingressLive x
                                   /\ (disconnectsFor id (wire x) + closedFor id st
                                       <= disconnectsFor id (wire st)
                                          + closedFor id x
                                          + entriesFor id st)%nat))).
  { intros x W B. split; [exact (hex_stamp _ _ B H)|left].
    now apply tallyFor_same. }
  unfold step in S. destruct (exitCode st) eqn:EX; [discriminate|].
  destruct ev as [chunk|i|s d|s|s| | | |s| | |].
  - unfold onSerialData in S.
    destruct (_transform (buffer st) chunk) as [[ps b]|]; [|discriminate].
    injection S as <-. apply Same.
    + apply (handleResponsePackets_spec ps (setBuffer st b)).
    + now rewrite stamp_handleResponsePackets.
  - destruct (nth_error (portMappings st) i) as [m|]; [|discriminate].
    destruct (listening st); [|discriminate]. injection S as <-.
    destruct H as [H16 Hs]. split.
    + split; [exact H16|]. unfold onConnection. st_cbn.
      apply Forall_app. split; [exact Hs|]. constructor; [|constructor].
      cbn [sk_clientId]. exists (rng st (draws st)).
      split; [apply H16|]. now apply removeHyphens_randomUUID.
    + left. unfold ingressTallyFor, closedFor, onConnection. st_cbn.
      rewrite filter_app, length_app. cbn. lia.
  - destruct (nth_error (sockets st) s) as [k|]; [|discriminate].
    destruct (negb _); [|discriminate].
    destruct (onSocketData st k d) as [st1|st1] eqn:O; cbn [settle] in S.
    + injection S as <-.
      destruct (onSocketData_acct id st k d st1 (or_introl O)) as (B & T & D).
      split; [exact (hex_stamp _ _ B H)|left].
      unfold ingressTallyFor. rewrite D, (closedFor_stamp id _ _ B). lia.
    + destruct (onSocketData_acct id st k d st1 (or_intror O)) as (B & T & D).
      destruct (onSocketData_spec st k d st1 (or_intror O)) as (_ & P & _).
      destruct (shutdown_from id st st1 st' EX P S) as (A1 & A2);
        [unfold ingressTallyFor; rewrite D, (closedFor_stamp id _ _ B); lia
        |unfold entriesFor, entries; now rewrite T
        |unfold entries in *; now rewrite T
        |exact (hex_stamp _ _ B H)|].
      split; [exact A1|now right].
  - destruct (nth_error (sockets st) s) as [k|] eqn:N; [|discriminate].
    destruct (sk_closed k) eqn:Kc; [discriminate|]. cbn [negb] in S.
    assert (Hk : isHexId (sk_clientId k)).
    { destruct H as [_ Hs]. rewrite Forall_forall in Hs.
      apply Hs. now apply nth_error_In in N. }
    assert (H0 : ingressHex (updSocket st s skSetClosed)).
    { destruct H as [H16 Hs]. split; [exact H16|]. st_cbn.
      apply EgressFacts.Forall_updateAt; [exact Hs|]. now intros x. }
    pose proof (closedFor_setClosed id st s k N Kc) as CC.
    destruct (onSocketClose st s k) as [st1|st1] eqn:O.
    + destruct (onSocketClose_acct id st s k st1 Hk (or_introl O))
        as (R & D & E & I).
      destruct (onSocketClose_spec st s k st1 (or_introl O))
        as (_ & P & X & So & _).
      injection S as <-.
      assert (B : ingressStamp (resolveClose st1 s)
                  = ingressStamp (updSocket st s skSetClosed)).
      { rewrite stamp_resolveClose. unfold ingressStamp.
        now rewrite R, So. }
      split; [exact (hex_stamp _ _ B H0)|left].
      unfold ingressTallyFor.
      destruct (ingress_resolveClose_keeps st1 s) as (_ & W & _).
      rewrite W, (closedFor_stamp id _ _ B), CC. lia.
    + destruct (onSocketClose_acct id st s k st1 Hk (or_intror O))
        as (R & D & E & I).
      destruct (onSocketClose_spec st s k st1 (or_intror O))
        as (_ & P & X & So & _).
      assert (B : ingressStamp st1 = ingressStamp (updSocket st s skSetClosed))
        by (unfold ingressStamp; now rewrite R, So).
      destruct (shutdown_from id st st1 st' EX P S) as (A1 & A2);
        [unfold ingressTallyFor; rewrite (closedFor_stamp id _ _ B), CC; lia
        |exact E|exact (hexKeys_incl _ _ I HK)|exact (hex_stamp _ _ B H0)|].
      split; [exact A1|now right].
  - destruct (nth_error (sockets st) s) as [k|]; [|discriminate].
    destruct (negb _); [|discriminate]. injection S as <-.
    now apply Same.
  - destruct (immediates st) as [|n]; [discriminate|].
    destruct (shutdown_from id st (setImmediates st n) st' EX eq_refl S)
      as (A1 & A2);
      [now apply tallyFor_same|reflexivity|exact HK|exact H|].
    split; [exact A1|now right].
  - destruct (shutdown_from id st st st' EX eq_refl S) as (A1 & A2);
      [now apply tallyFor_same|reflexivity|exact HK|exact H|].
    split; [exact A1|now right].
  - destruct (phase st); try discriminate. injection S as <-.
    apply Same; [apply ingress_closeSockets_keeps|apply stamp_closeSockets].
  - destruct (phase st); try discriminate.
    destruct (existsb (Nat.eqb s) pending); [|discriminate].
    injection S as <-.
    set (st1 := if socketDestroyed st s then st else updSocket st s skDestroy).
    assert (A : wire st1 = wire st /\ ingressStamp st1 = ingressStamp st).
    { unfold st1. destruct (socketDestroyed st s); [now split|].
      split; [reflexivity|now apply stamp_updSocket]. }
    destruct A as (A1 & A2).
    destruct (ingress_resolveClose_keeps st1 s) as (_ & W & _).
    apply Same; [congruence|]. now rewrite stamp_resolveClose.
  - destruct (phase st); try discriminate. injection S as <-.
    apply Same; [apply ingress_closeSerial_keeps|apply stamp_closeSerial].
  - destruct (phase st); try discriminate. injection S as <-.
    now apply Same.
  - destruct (phase st); try discriminate. injection S as <-.
    now apply Same.
Qed.

Lemma step_inv (st : State) (ev : Event) (st' : State) :
  ingressInv st -> step st ev = Some st' -> ingressInv st'.
Proof.
  intros I S. pose proof I as (K & C & H).
  split; [now apply (proj1 (step_keeps _ _ _ S))|].
  split; [exact (ingress_step_consistent _ _ _ K C S)|].
  exact (proj1 (step_acct EmptyString _ _ _ I S)).
Qed.

Lemma init_inv (mappings : list Mapping) (rng : nat -> list byte) :
  (forall n, List.length (rng n) = 16%nat) ->
  ingressInv (init mappings rng).
Proof.
  intros H. split; [constructor|]. split.
  - intros port bucket key client I. destruct I.
  - split; [exact H|constructor].
Qed.

Lemma run_inv (trace : list Event) :
  forall st st', ingressInv st -> run st trace = Some st' -> ingressInv st'.
Proof.
  induction trace as [|ev rest IH]; intros st st' I R.
  - cbn in R. now injection R as <-.
  - cbn [run] in R. destruct (step st ev) as [s1|] eqn:E; [|discriminate].
    exact (IH _ _ (step_inv _ _ _ I E) R).
Qed.



End IngressTally.

(** ** The Disconnect frames of a session *)

Module SessionDisconnects.
Import Js JsFacts Codec Wire Samples Vocabulary CodecFacts FramerFacts
  StoreFacts Ingress IngressFacts IngressMore IngressSessions IngressTally.

(** Step 1 of the shutdown, frame by frame. *)
Lemma disconnectBucket_exact (es : Map ClientInfo) :
  forall (st : State) (rejected : bool),
    Forall hexKey es ->
    Forall (fun e => mappingOK (ci_mapping (snd e))) es ->
    exists new,
      wire (fst (disconnectBucket st es rejected)) = wire st ++ new
      /\ Forall2 disconnectOf es new.
Proof.
  induction es as [|[key client] rest IH]; intros st rejected H M.
  - exists []. cbn. split; [now rewrite app_nil_r|constructor].
  - inversion H as [|? ? (kid & Hk & Ek) Hr]; subst. cbn in Ek. subst key.
    inversion M as [|? ? Mc Mr]; subst. cbn [snd] in Mc.
    cbn [disconnectBucket].
    destruct (sendPacket_shape st CMD_DISCONNECT (JsStr kid) []
                (remoteHost (ci_mapping client)) (remotePort (ci_mapping client)))
      as [(f & C & st1 & R & W & _)|(st1 & R & _)]; rewrite R.
    + destruct (IH st1 rejected Hr Mr) as (new & Wn & F).
      exists (f :: new). split; [rewrite Wn, W, <- app_assoc; reflexivity|].
      constructor; [|exact F]. exists kid. split; [reflexivity|].
      exact (createPacket_hexKey _ _ _ _ _ _ _ Hk C).
    + exfalso.
      destruct (proj2 (sendPacket_returns_iff st CMD_DISCONNECT (JsStr kid) []
                         (remoteHost (ci_mapping client))
                         (remotePort (ci_mapping client)))) as (x & Rx).
      * unfold CMD_DISCONNECT, maxDataLength. cbn [List.length].
        repeat split; try apply Mc; lia.
      * congruence.
Qed.

Lemma disconnectAll_exact (byPort : Map (Map ClientInfo)) :
  forall (st : State) (rejected : bool),
    Forall hexKey (List.concat (map snd byPort)) ->
    Forall (fun b => Forall (fun e => mappingOK (ci_mapping (snd e))) (snd b))
      byPort ->
    exists new,
      wire (fst (disconnectAll st byPort rejected)) = wire st ++ new
      /\ Forall2 disconnectOf (List.concat (map snd byPort)) new.
Proof.
  induction byPort as [|[port clients] rest IH]; intros st rejected H M.
  - exists []. cbn. split; [now rewrite app_nil_r|constructor].
  - cbn [map List.concat snd] in *. apply Forall_app in H as [Hc Hr].
    inversion M as [|? ? Mc Mr]; subst. cbn [snd] in Mc.
    cbn [disconnectAll].
    destruct (disconnectBucket_exact clients st rejected Hc Mc) as (n1 & W1 & F1).
    destruct (disconnectBucket st clients rejected) as [st1 r1].
    cbn [fst] in *.
    destruct (IH st1 r1 Hr Mr) as (n2 & W2 & F2).
    exists (n1 ++ n2). split; [rewrite W2, W1, <- app_assoc; reflexivity|].
    now apply Forall2_app.
Qed.

Lemma gracefulShutdown_exact (st : State) :
  serialOpen st = true ->
  Forall hexKey (entries st) ->
  ingressPortsOK st ->
  exists new,
    wire (gracefulShutdown st) = wire st ++ new
    /\ Forall2 disconnectOf (entries st) new.
Proof.
  intros O H (_ & _ & P). unfold gracefulShutdown. rewrite O.
  destruct (disconnectAll_exact (clientsByPort st) st false H P)
    as (new & W & F).
  destruct (disconnectAll st (clientsByPort st) false) as [st1 rejected].
  cbn [fst] in *. exists new. split; [|exact F].
  destruct (anyClient (clientsByPort st)).
  - now destruct rejected.
  - destruct (ingress_closeSockets_keeps st1) as (_ & Wc & _). congruence.
Qed.

Lemma reach_portsOK (mappings : list Mapping) (rng : nat -> list byte)
    (trace : list Event) (st : State) :
  Forall mappingOK mappings ->
  run (init mappings rng) trace = Some st -> ingressPortsOK st.
Proof.
  intros M R. destruct (run_quiet _ _ _ R) as (_ & S & _).
  apply S. split; [exact M|]. split; constructor.
Qed.

(** X9. Step 1 of the shutdown of the ingress, in any state it reaches
    with the serial port open and every mapping having a target port
    within its field: [gracefulShutdown] writes, before its first
    [await], one frame for each session of [clientsByPort], in the order
    of the table, and nothing else; the frame of a session is a
    Disconnect that carries the id of that session and the target of its
    mapping, without payload. *)
Theorem ingress_shutdown_notifies_sessions
    (mappings : list Mapping) (rng : nat -> list byte)
    (trace : list Event) (st : State) :
  (forall n, List.length (rng n) = 16%nat) ->
  Forall mappingOK mappings ->
  run (init mappings rng) trace = Some st ->
  serialOpen st = true ->
  exists new,
    wire (gracefulShutdown st) = wire st ++ new
    /\ Forall2 disconnectOf (entries st) new
    /\ map frameCmd new = repeat CMD_DISCONNECT (List.length (entries st))
    /\ map (fun f => JsStr (frameId f)) new = map fst (entries st).
Proof.
  intros H16 M R O.
  destruct (run_inv trace _ _ (init_inv mappings rng H16) R) as (_ & C & H).
  destruct (gracefulShutdown_exact st O (hexKeys_inv st C H)
              (reach_portsOK _ _ _ _ M R)) as (new & W & F).
  exists new. split; [exact W|]. split; [exact F|].
  clear W. induction F as [|e f es fs (id & Ek & Ex) F IH];
    [split; reflexivity|].
  destruct IH as (I1 & I2).
  destruct (extract_frame _ _ _ Ex) as (Fc & Fi). cbn [cmd clientId] in Fc, Fi.
  cbn [map List.length repeat]. rewrite Fc, Fi, I1, I2, Ek. split; reflexivity.
Qed.

(** One session, already ended by a Disconnect of the peer and still in
    the table: the shutdown writes one frame, with the id of that
    session. *)
Lemma ingress_shutdown_notifies_sessions_witness :
  exists st new,
    run (init [echoMapping; echoMapping] rngConst)
      [Connection 0; SerialData (bytesOf frameDisconnect1)] = Some st
    /\ wire (gracefulShutdown st) = wire st ++ new
    /\ map (fun f => JsStr (frameId f)) new = [JsStr (toHex id1)].
Proof.
  eexists.
  match goal with
  | |- exists new, run _ ?tr = Some ?s /\ _ =>
      assert (R : run (init [echoMapping; echoMapping] rngConst) tr = Some s)
        by (vm_compute; reflexivity)
  end.
  destruct (ingress_shutdown_notifies_sessions
              [echoMapping; echoMapping] rngConst _ _
              (fun _ => eq_refl)
              ltac:(repeat constructor; cbn; lia) R eq_refl)
    as (new & W & _ & _ & I).
  exists new. split; [exact R|]. split; [exact W|exact I].
Defined.





End SessionDisconnects.

(** ** Delivery to the socket of a session *)

Module Delivery.
Import Js JsFacts Codec Wire Samples Vocabulary CodecFacts FramerFacts
  StoreFacts Egress EgressFacts EgressMore.



(** *** What a handler leaves as it is *)
















(** *** The frames of a chunk *)




(** *** One event *)















End Delivery.
